(** * atomic_data: a multibyte general purpose lock-free data structure

    A shallow embedding of [samples/atomic_data.h] (the cell with the
    node-recycling queue and the two usage counters), of the earlier
    single-counter cell of [atomic_data.h], of the singly linked
    [atomic_list] built on the cell, and of the functors and thread
    bodies of the tests (the vector of cells, the array whose minimum
    is incremented, the map of counters).

    The embedding is sequential: one thread runs the operations, and a
    mutator may re-enter [update_weak] (the list does).  What other
    threads could do to a [compare_exchange_weak] is kept as an oracle
    in the state: the call may fail although the value matches. *)

From stdpp Require Import base gmap list.
From Stdlib Require Import ZArith Lia.
Local Open Scope Z_scope.

(** ** Machine integers and pointers *)

(** [unsigned] is 32 bits wide; every store to such a variable wraps. *)
Definition uint_mod : Z := 2 ^ 32.
Definition wrap (x : Z) : Z := x mod uint_mod.

(** Addresses of heap objects of type [T0], [T0*] with [None] for
    [nullptr], and the identity of an [atomic_data] instance. *)
Abbreviation addr := positive (only parsing).
Abbreviation ptr := (option positive) (only parsing).
Abbreviation cell := positive (only parsing).

(** ** Own steps of a call among other threads

    [own] is one step of the calling thread on its program point and
    the shared state; before its [i]-th step the other threads change
    the state by [others i].  The call is wait-free when some number of
    own steps completes it whatever the others do, as long as they
    keep [alive] (the object is not destroyed under the call). *)
Section OwnSteps.

Context {St Pc : Type}.
Variable own : Pc -> St -> Pc * St.

Fixpoint run (others : nat -> St -> St) (n : nat) (pc : Pc) (s : St)
  : Pc * St :=
  match n with
  | O => (pc, s)
  | S n' =>
      let '(pc', s') := own pc (others O s) in
      run (fun i => others (S i)) n' pc' s'
  end.

Definition wait_free (returned : Pc -> bool) (call : Pc)
    (alive : St -> Prop) : Prop :=
  exists bound,
    forall (others : nat -> St -> St) (s : St),
      (forall i s', alive s' -> alive (others i s')) ->
      alive s ->
      returned (fst (run others bound call s)) = true.

End OwnSteps.

Module AtomicData.

Section Cell.

Context {T : Type}.

(** Template parameter [N0]; [queue_size = N0], [array_size = 2 * N0]. *)
Variable N0 : Z.

Definition queue_size : Z := N0.
Definition array_size : Z := 2 * N0.

(** The static members shared by all instances of one [atomic_data<T0,N0>]
    ([queue], [left], [right], [counter_usage]), the [data] member of
    every instance, the objects the pointers refer to, and the oracle
    for [compare_exchange_weak]: a head [true] makes the next call fail
    spuriously; an empty oracle never does. *)
Record state : Type := mkState {
  queue : list ptr;
  left : Z;
  right : Z;
  counters : Z * Z;
  heap : gmap addr T;
  cells : gmap cell ptr;
  weak_cas : list bool
}.

Definition set_queue (q : list ptr) (s : state) : state :=
  mkState q (left s) (right s) (counters s) (heap s) (cells s) (weak_cas s).
Definition set_left (x : Z) (s : state) : state :=
  mkState (queue s) x (right s) (counters s) (heap s) (cells s) (weak_cas s).
Definition set_right (x : Z) (s : state) : state :=
  mkState (queue s) (left s) x (counters s) (heap s) (cells s) (weak_cas s).
Definition set_counters (c : Z * Z) (s : state) : state :=
  mkState (queue s) (left s) (right s) c (heap s) (cells s) (weak_cas s).
Definition set_heap (h : gmap addr T) (s : state) : state :=
  mkState (queue s) (left s) (right s) (counters s) h (cells s) (weak_cas s).
Definition set_cells (c : gmap cell ptr) (s : state) : state :=
  mkState (queue s) (left s) (right s) (counters s) (heap s) c (weak_cas s).
Definition set_weak_cas (o : list bool) (s : state) : state :=
  mkState (queue s) (left s) (right s) (counters s) (heap s) (cells s) o.

(** ** The monad of the embedding

    A computation ends normally with a value, ends with a C++ exception
    in flight, runs into undefined behaviour (dereferencing [nullptr] or
    a pointer to no object), or exhausts the fuel of a loop. *)
Inductive outcome (A : Type) : Type :=
| Done (a : A) (s : state)
| Raised (s : state)
| Undef
| Timeout.
Arguments Done {A} a s.
Arguments Raised {A} s.
Arguments Undef {A}.
Arguments Timeout {A}.

Definition M (A : Type) : Type := state -> outcome A.

Definition ret {A} (a : A) : M A := fun s => Done a s.

Definition bind {A B} (m : M A) (k : A -> M B) : M B :=
  fun s =>
    match m s with
    | Done a s' => k a s'
    | Raised s' => Raised s'
    | Undef => Undef
    | Timeout => Timeout
    end.

Definition throw {A} : M A := fun s => Raised s.
Definition undef {A} : M A := fun _ => Undef.
Definition timeout {A} : M A := fun _ => Timeout.

(** Runs [dtor] when the scope of [body] is left, by return or by an
    exception: the destructor of a local object. *)
Definition scope_exit {A} (dtor : M unit) (body : M A) : M A :=
  fun s =>
    match body s with
    | Done a s1 =>
        match dtor s1 with
        | Done _ s2 => Done a s2
        | Raised s2 => Raised s2
        | Undef => Undef
        | Timeout => Timeout
        end
    | Raised s1 =>
        match dtor s1 with
        | Done _ s2 => Raised s2
        | Raised s2 => Raised s2
        | Undef => Undef
        | Timeout => Timeout
        end
    | Undef => Undef
    | Timeout => Timeout
    end.

(** ** Atomic members ([atomic_t], relaxed by default) *)

Definition load_left : M Z := fun s => Done (left s) s.
Definition load_right : M Z := fun s => Done (right s) s.

(** [right.add( 1 )]: fetch-and-add, the old value is returned. *)
Definition right_add_1 : M Z :=
  fun s => Done (right s) (set_right (wrap (right s + 1)) s).

(** Takes the head of the oracle: does this weak CAS fail spuriously? *)
Definition spurious : M bool :=
  fun s =>
    match weak_cas s with
    | [] => Done false s
    | b :: o => Done b (set_weak_cas o s)
    end.

(** [left.compare_exchange_weak( expected, desired )] *)
Definition left_compare_exchange_weak (expected desired : Z) : M bool :=
  bind spurious (fun fails s =>
    if fails then Done false s
    else if left s =? expected then Done true (set_left (wrap desired) s)
    else Done false s).

(** [data.load()] of the instance [this]. *)
Definition data_load (this : cell) : M ptr :=
  fun s =>
    match cells s !! this with
    | Some p => Done p s
    | None => Undef
    end.

(** [data.compare_exchange_weak( expected, desired )] of [this]. *)
Definition data_compare_exchange_weak (this : cell) (expected desired : ptr)
  : M bool :=
  bind spurious (fun fails s =>
    if fails then Done false s
    else
      match cells s !! this with
      | Some p =>
          if decide (p = expected)
          then Done true (set_cells (<[this := desired]> (cells s)) s)
          else Done false s
      | None => Undef
      end).

(** ** Objects *)

(** [*p] read and [*p = v]. *)
Definition deref (p : ptr) : M T :=
  fun s =>
    match p with
    | Some a =>
        match heap s !! a with
        | Some v => Done v s
        | None => Undef
        end
    | None => Undef
    end.

Definition assign (p : ptr) (v : T) : M unit :=
  fun s =>
    match p with
    | Some a =>
        match heap s !! a with
        | Some _ => Done tt (set_heap (<[a := v]> (heap s)) s)
        | None => Undef
        end
    | None => Undef
    end.

(** [new T0{ v }] *)
Definition new_object (v : T) : M ptr :=
  fun s =>
    let a := fresh (dom (heap s)) in
    Done (Some a) (set_heap (<[a := v]> (heap s)) s).

(** ** The queue array *)

(** [queue[ i ]] for [i] below [array_size]. *)
Definition queue_get (i : Z) : M ptr :=
  fun s =>
    match queue s !! Z.to_nat i with
    | Some p => Done p s
    | None => Undef
    end.

(** [queue[ i ] = p] *)
Definition queue_set (i : Z) (p : ptr) : M unit :=
  fun s =>
    if decide (Z.to_nat i < length (queue s))%nat
    then Done tt (set_queue (<[Z.to_nat i := p]> (queue s)) s)
    else Undef.

(** ** Usage tracking ([counter_t]) *)

Definition counter_at (i : Z) (c : Z * Z) : Z :=
  if i =? 0 then fst c else snd c.

Definition counter_upd (i : Z) (f : Z -> Z) (c : Z * Z) : Z * Z :=
  if i =? 0 then (f (fst c), snd c) else (fst c, f (snd c)).

(** Each half of the queue uses its own counter. *)
Definition counter_index (queue_right : Z) : Z :=
  if (queue_right mod array_size) <? queue_size then 1 else 0.

Definition inc (queue_right : Z) : M unit :=
  fun s =>
    Done tt (set_counters
               (counter_upd (counter_index queue_right)
                  (fun c => wrap (c + 1)) (counters s)) s).

Definition dec (queue_right : Z) : M unit :=
  fun s =>
    Done tt (set_counters
               (counter_upd (counter_index queue_right)
                  (fun c => wrap (c - 1)) (counters s)) s).

Definition is_used (queue_right : Z) : M bool :=
  fun s =>
    Done (0 <? counter_at (1 - counter_index queue_right) (counters s)) s.

(** [counter_guard]: the constructor reads [right] and increments the
    counter of its half; the destructor decrements the same counter. *)
Definition counter_guard_ctor : M Z :=
  bind load_right (fun queue_right =>
  bind (inc queue_right) (fun _ => ret queue_right)).

Definition counter_guard_dtor (queue_right : Z) : M unit := dec queue_right.

(** [std::this_thread::yield()] *)
Definition yield : M unit := ret tt.

(** ** Logic for the synchronization barrier *)

Definition check_barrier (queue_left queue_right : Z) : M bool :=
  let is_barrier := (queue_left mod queue_size) =? 0 in
  if is_barrier then
    if wrap (queue_right - queue_left) <? queue_size then
      bind yield (fun _ => ret false)
    else
      bind (is_used queue_right) (fun used =>
        if used then bind yield (fun _ => ret false) else ret true)
  else ret true.

(** ** [deallocate_guard]

    Its member [counter] is constructed first, and destroyed after the
    body of the destructor has run. *)
Record deallocate_guard : Type := mkGuard {
  guard_counter : Z;
  guard_data : ptr
}.

Definition deallocate_guard_ctor (data_ : ptr) : M deallocate_guard :=
  bind counter_guard_ctor (fun queue_right =>
  ret (mkGuard queue_right data_)).

Definition reset (data_ : ptr) (g : deallocate_guard) : deallocate_guard :=
  mkGuard (guard_counter g) data_.

Definition deallocate_guard_dtor (g : deallocate_guard) : M unit :=
  bind right_add_1 (fun r =>
  bind (queue_set (r mod array_size) (guard_data g)) (fun _ =>
  counter_guard_dtor (guard_counter g))).

(** ** Read *)

Definition read {R} (this : cell) (fn : ptr -> M R) : M R :=
  bind counter_guard_ctor (fun counter =>
  scope_exit (counter_guard_dtor counter)
    (bind (data_load this) fn)).

(** ** Update weak

    The functor [fn] gets the pointer to the copy and the variables its
    closure captured by reference (of type [L]); it gives back its
    verdict and the captured variables as it leaves them.

    The first part, up to the read of [queue[ queue_left % array_size ]],
    takes an element from the queue. *)
Definition try_allocate : M (option ptr) :=
  bind load_left (fun queue_left =>
  bind load_right (fun queue_right =>
  if queue_left =? queue_right then
    bind yield (fun _ => ret None)
  else
    bind (check_barrier queue_left queue_right) (fun ok =>
    if negb ok then ret None
    else
      bind (left_compare_exchange_weak queue_left (queue_left + 1))
        (fun ok =>
         if negb ok then ret None
         else
           bind (queue_get (queue_left mod array_size)) (fun data_new =>
           ret (Some data_new)))))).

(** The body under the guard [dalloc]: copy, update, publish.  It gives
    back the guard as the scope leaves it, next to the result. *)
Definition copy_update_publish {L} (this : cell) (fn : ptr -> L -> M (bool * L)) (l : L)
    (data_new data_old : ptr) (dalloc : deallocate_guard)
  : M (deallocate_guard * (bool * L)) :=
  bind (deref data_old) (fun v =>
  bind (assign data_new v) (fun _ =>
  bind (fn data_new l) (fun '(r, l') =>
  if negb r then ret (dalloc, (false, l'))
  else
    bind (data_compare_exchange_weak this data_old data_new) (fun ok =>
    if negb ok then ret (dalloc, (false, l'))
    else ret (reset data_old dalloc, (true, l')))))).

(** Leaving the scope of [dalloc]: an exception can only come from
    [fn], before [reset], so the guard then still holds [data_new]. *)
Definition with_deallocate_guard {A} (dalloc : deallocate_guard)
    (body : M (deallocate_guard * A)) : M A :=
  fun s =>
    match body s with
    | Done (g, a) s1 => bind (deallocate_guard_dtor g) (fun _ => ret a) s1
    | Raised s1 => bind (deallocate_guard_dtor dalloc) (fun _ => throw) s1
    | Undef => Undef
    | Timeout => Timeout
    end.

Definition update_weak {L} (this : cell) (fn : ptr -> L -> M (bool * L))
    (l : L) : M (bool * L) :=
  bind try_allocate (fun a =>
  match a with
  | None => ret (false, l)
  | Some data_new =>
      bind (data_load this) (fun data_old =>
      bind (deallocate_guard_ctor data_new) (fun dalloc =>
      with_deallocate_guard dalloc
        (copy_update_publish this fn l data_new data_old dalloc)))
  end).

(** ** Update: [while( ! update_weak( fn ) );]

    The fuel bounds how often the loop goes round again. *)
Fixpoint update {L} (fuel : nat) (this : cell)
    (fn : ptr -> L -> M (bool * L)) (l : L) : M L :=
  bind (update_weak this fn l) (fun '(r, l') =>
  if r then ret l'
  else
    match fuel with
    | O => timeout
    | S fuel' => update fuel' this fn l'
    end).

(** ** Mutators without captured variables and without calls of their own

    [f] maps the copy to the value it leaves in it and to how it ends. *)
Inductive verdict : Type := Accept | Veto | Throws.

Definition mutator (f : T -> T * verdict) : ptr -> unit -> M (bool * unit) :=
  fun p _ =>
    bind (deref p) (fun v =>
    bind (assign p (fst (f v))) (fun _ =>
    match snd (f v) with
    | Accept => ret (true, tt)
    | Veto => ret (false, tt)
    | Throws => throw
    end)).

(** ** Construction *)

(** [init_static]: [queue[ i ] = new T0] for [i < queue_size], then
    [right = queue_size]; the objects start as [v0]. *)
Fixpoint preallocate (v0 : T) (n : nat) (i : Z) : M unit :=
  match n with
  | O => ret tt
  | S n' =>
      bind (new_object v0) (fun p =>
      bind (queue_set i p) (fun _ => preallocate v0 n' (i + 1)))
  end.

Definition init_static (v0 : T) : M unit :=
  bind (preallocate v0 (Z.to_nat queue_size) 0) (fun _ s =>
  Done tt (set_right (wrap queue_size) s)).

(** Static storage before [init_static] ran. *)
Definition zero_state (oracle : list bool) : state :=
  mkState (replicate (Z.to_nat array_size) None) 0 0 (0, 0) ∅ ∅ oracle.

(** [atomic_data( T0* object )] *)
Definition construct (object : ptr) : M cell :=
  fun s =>
    let c := fresh (dom (cells s)) in
    Done c (set_cells (<[c := object]> (cells s)) s).

(** ** Copying, moving and destroying an instance *)

(** [delete p]: nothing for [nullptr]; undefined for a pointer to no
    object (a second [delete]). *)
Definition delete_object (p : ptr) : M unit :=
  fun s =>
    match p with
    | Some a =>
        match heap s !! a with
        | Some _ => Done tt (set_heap (delete a (heap s)) s)
        | None => Undef
        end
    | None => Done tt s
    end.

(** [data = p] of the instance [this]. *)
Definition data_store (this : cell) (p : ptr) : M unit :=
  fun s =>
    match cells s !! this with
    | Some _ => Done tt (set_cells (<[this := p]> (cells s)) s)
    | None => Undef
    end.

(** The functor [[]( T0* object ) { return new T0( *object ); }]. *)
Definition clone (object : ptr) : M ptr :=
  bind (deref object) new_object.

(** [atomic_data( atomic_data const& r )] *)
Definition copy_construct (r : cell) : M cell :=
  bind (read r clone) construct.

(** [atomic_data( atomic_data&& r )] *)
Definition move_construct (r : cell) : M cell :=
  bind (data_load r) (fun p =>
  bind (construct p) (fun this =>
  bind (data_store r None) (fun _ => ret this))).

(** The body of [~atomic_data()]: [delete data.load()]. *)
Definition destroy (this : cell) : M unit :=
  bind (data_load this) delete_object.

(** [operator=( atomic_data const& r )] *)
Definition copy_assign (this r : cell) : M unit :=
  bind (read r clone) (fun object =>
  bind (destroy this) (fun _ => data_store this object)).

(** [operator=( atomic_data&& r )] *)
Definition move_assign (this r : cell) : M unit :=
  bind (data_load r) (fun p =>
  bind (data_store this p) (fun _ => data_store r None)).

(** [~init_static()]: [for( i = left, end = right; i < end; i++ )
    delete queue[ i % array_size ]]; the fuel bounds the number of
    rounds. *)
Fixpoint delete_queue (fuel : nat) (i end_ : Z) : M unit :=
  if i <? end_ then
    match fuel with
    | O => timeout
    | S fuel' =>
        bind (queue_get (i mod array_size)) (fun p =>
        bind (delete_object p) (fun _ =>
        delete_queue fuel' (wrap (i + 1)) end_))
    end
  else ret tt.

Definition init_static_dtor (fuel : nat) : M unit :=
  bind load_left (fun i =>
  bind load_right (fun end_ => delete_queue fuel i end_)).

(** ** The barrier (C4) *)

(** What the barrier asks for at the snapshot [(L, R)]: all elements are
    back in the queue and the counter of the other half reads zero. *)
Definition barrier_open (s : state) : Prop :=
  queue_size <= wrap (right s - left s)
  /\ counter_at (1 - counter_index (right s)) (counters s) = 0.

Definition counters_ok (s : state) : Prop :=
  0 <= fst (counters s) < uint_mod /\ 0 <= snd (counters s) < uint_mod.

(** The next weak CAS does not fail spuriously. *)
Definition cas_strong (s : state) : Prop :=
  match weak_cas s with
  | b :: _ => b = false
  | [] => True
  end.

Lemma counter_at_range i s :
  counters_ok s -> 0 <= counter_at i (counters s) < uint_mod.
Proof.
  intros [H0 H1]. unfold counter_at. destruct (i =? 0); assumption.
Qed.

Lemma check_barrier_spec s :
  counters_ok s ->
  check_barrier (left s) (right s) s
  = Done (bool_decide (left s mod queue_size <> 0 \/ barrier_open s)) s.
Proof.
  intros Hc. unfold check_barrier, barrier_open.
  destruct (Z.eqb_spec (left s mod queue_size) 0) as [Hb | Hb].
  - destruct (Z.ltb_spec (wrap (right s - left s)) queue_size) as [Hlt | Hge].
    + unfold bind, yield, ret. f_equal. symmetry.
      apply bool_decide_eq_false. intros [? | [? _]]; [congruence | lia].
    + unfold bind, is_used.
      pose proof (counter_at_range (1 - counter_index (right s)) s Hc) as Hr.
      destruct (Z.ltb_spec 0
                  (counter_at (1 - counter_index (right s)) (counters s)))
        as [Hu | Hu]; unfold yield, ret; f_equal; symmetry.
      * apply bool_decide_eq_false. intros [? | [_ ?]]; [congruence | lia].
      * apply bool_decide_eq_true. right. split; [assumption | lia].
  - unfold ret. f_equal. symmetry. apply bool_decide_eq_true. left. assumption.
Qed.

Lemma spurious_strong s :
  cas_strong s -> exists o, spurious s = Done false (set_weak_cas o s)
                            /\ (weak_cas s = [] \/ weak_cas s = false :: o).
Proof.
  unfold cas_strong, spurious. destruct (weak_cas s) as [| b o] eqn:E.
  - intros _. exists []. split; [| left; reflexivity].
    f_equal. destruct s; unfold set_weak_cas; simpl in *; congruence.
  - intros ->. exists o. split; [reflexivity | right; reflexivity].
Qed.

(** C4: the barrier check is made exactly when the snapshot of [left]
    is a multiple of [N0]; such an allocation fails unless
    [R - L >= N0] and the counter of the other half, index
    [1 - counter_index R], reads zero; any other allocation from a
    non-empty queue goes on to the CAS on [left] and, when that is not
    lost, takes the element. *)
Theorem C4_barrier_check (s : state) :
  0 < N0 ->
  counters_ok s ->
  length (queue s) = Z.to_nat array_size ->
  check_barrier (left s) (right s) s
  = Done (bool_decide (left s mod queue_size <> 0 \/ barrier_open s)) s
  /\ (left s mod queue_size = 0 -> ~ barrier_open s ->
      forall (L : Type) this (fn : ptr -> L -> M (bool * L)) l,
        update_weak this fn l s = Done (false, l) s)
  /\ ((left s mod queue_size <> 0 /\ left s <> right s)
      \/ (left s mod queue_size = 0 /\ barrier_open s) ->
      cas_strong s ->
      exists p s',
        try_allocate s = Done (Some p) s'
        /\ left s' = wrap (left s + 1)
        /\ queue s !! Z.to_nat (left s mod array_size) = Some p).
Proof.
  intros HN Hc Hlen. pose proof (check_barrier_spec s Hc) as Hcb.
  split; [exact Hcb |]. split.
  - intros Hb Hclosed L this fn l.
    unfold update_weak, try_allocate, bind at 1 2 3, load_left, load_right.
    destruct (Z.eqb_spec (left s) (right s)); [reflexivity |].
    unfold bind at 1. rewrite Hcb.
    rewrite bool_decide_eq_false_2; [reflexivity |].
    intros [? | ?]; [congruence | tauto].
  - intros Hcase Hstrong.
    assert (Hne : left s <> right s).
    { destruct Hcase as [[_ ?] | [_ [Hge _]]]; [assumption |].
      intros E. rewrite E, Z.sub_diag in Hge. unfold wrap, queue_size in Hge.
      rewrite Z.mod_0_l in Hge by (unfold uint_mod; lia). lia. }
    destruct (spurious_strong s Hstrong) as (o & Hsp & _).
    assert (Hlt : (Z.to_nat (left s mod array_size) < length (queue s))%nat).
    { rewrite Hlen. unfold array_size.
      pose proof (Z.mod_pos_bound (left s) (2 * N0)). lia. }
    destruct (lookup_lt_is_Some_2 _ _ Hlt) as [p Hp].
    exists p, (set_left (wrap (left s + 1)) (set_weak_cas o s)).
    split; [| split; [reflexivity | exact Hp]].
    unfold try_allocate, bind at 1 2, load_left, load_right.
    destruct (Z.eqb_spec (left s) (right s)); [contradiction |].
    unfold bind at 1. rewrite Hcb.
    rewrite bool_decide_eq_true_2 by tauto. simpl.
    unfold bind at 1, left_compare_exchange_weak, bind at 1. rewrite Hsp.
    simpl. rewrite Z.eqb_refl. simpl.
    unfold bind, queue_get. simpl. unfold array_size in Hp |- *. rewrite Hp.
    reflexivity.
Qed.

(** ** Arithmetic of the indices

    [static_assert( N0 != 0 && ( N0 & ( N0 - 1 ) ) == 0 )]: the queue
    size is a power of two; [array_size = 2 * N0] has to fit [unsigned]. *)
Definition N0_ok : Prop := exists k, 0 <= k <= 30 /\ N0 = 2 ^ k.

Section Verified.

Hypothesis HN0 : N0_ok.

Lemma N0_pos : 0 < N0.
Proof. destruct HN0 as (k & Hk & ->). apply Z.pow_pos_nonneg; lia. Qed.

Lemma array_size_pos : 0 < array_size.
Proof. unfold array_size. pose proof N0_pos. lia. Qed.

Lemma array_size_divide : (array_size | uint_mod).
Proof.
  destruct HN0 as (k & Hk & E). exists (2 ^ (31 - k)).
  unfold array_size, uint_mod. rewrite E.
  replace (2 * 2 ^ k) with (2 ^ (k + 1)) by (rewrite Z.pow_add_r; lia).
  rewrite <- Z.pow_add_r by lia. f_equal. lia.
Qed.

Lemma array_size_lt : array_size < uint_mod.
Proof.
  destruct HN0 as (k & Hk & E). unfold array_size, uint_mod. rewrite E.
  replace (2 * 2 ^ k) with (2 ^ (k + 1)) by (rewrite Z.pow_add_r; lia).
  apply Z.pow_lt_mono_r; lia.
Qed.

Lemma wrap_mod_array x : wrap x mod array_size = x mod array_size.
Proof.
  unfold wrap. apply Z.mod_mod_divide, array_size_divide.
Qed.

Lemma wrap_range x : 0 <= wrap x < uint_mod.
Proof. unfold wrap. apply Z.mod_pos_bound. unfold uint_mod. lia. Qed.

Lemma wrap_small x : 0 <= x < uint_mod -> wrap x = x.
Proof. unfold wrap. apply Z.mod_small. Qed.

Lemma wrap_add_l a b : wrap (wrap a + b) = wrap (a + b).
Proof. unfold wrap. apply Zplus_mod_idemp_l. Qed.

Lemma wrap_sub_r a b : wrap (a - wrap b) = wrap (a - b).
Proof. unfold wrap. apply Zminus_mod_idemp_r. Qed.

Lemma wrap_sub_l a b : wrap (wrap a - b) = wrap (a - b).
Proof. unfold wrap. apply Zminus_mod_idemp_l. Qed.

Lemma wrap_inc_dec c : 0 <= c < uint_mod -> wrap (wrap (c + 1) - 1) = c.
Proof.
  intros Hc. rewrite wrap_sub_l. replace (c + 1 - 1) with c by lia.
  apply wrap_small. assumption.
Qed.

Lemma wrap_diff_zero a b :
  0 <= a < uint_mod -> 0 <= b < uint_mod -> wrap (b - a) = 0 -> a = b.
Proof.
  unfold wrap, uint_mod. change (2 ^ 32) with 4294967296.
  intros Ha Hb H.
  apply Z.mod_divide in H; [| lia]. destruct H as [q Hq]. lia.
Qed.

(** Indices less than [array_size] apart fall on different elements. *)
Lemma slot_inj x k1 k2 :
  0 <= k1 < array_size -> 0 <= k2 < array_size ->
  (x + k1) mod array_size = (x + k2) mod array_size -> k1 = k2.
Proof.
  intros H1 H2 E. pose proof array_size_pos as HA.
  assert (Hd : (k1 - k2) mod array_size = 0).
  { replace (k1 - k2) with ((x + k1) - (x + k2)) by lia.
    rewrite Zminus_mod, E, Z.sub_diag. apply Z.mod_0_l. lia. }
  apply Z.mod_divide in Hd; [| lia]. destruct Hd as [q Hq].
  assert (Hq0 : q = 0).
  { destruct (Z.lt_trichotomy q 0) as [Hlt | [Heq | Hgt]]; [| exact Heq |].
    - assert (q * array_size <= - array_size) by nia. lia.
    - assert (array_size <= q * array_size) by nia. lia. }
  subst q. lia.
Qed.

Lemma slot_wrap_left x k :
  (wrap (x + 1) + k) mod array_size = (x + (1 + k)) mod array_size.
Proof.
  rewrite <- Zplus_mod_idemp_l, wrap_mod_array, Zplus_mod_idemp_l.
  f_equal. lia.
Qed.

Lemma slot_right l r n :
  wrap (r - l) = n -> r mod array_size = (l + n) mod array_size.
Proof.
  intros <-. rewrite <- Zplus_mod_idemp_r, wrap_mod_array, Zplus_mod_idemp_r.
  f_equal. lia.
Qed.

Lemma slot_lt x : (Z.to_nat (x mod array_size) < Z.to_nat array_size)%nat.
Proof. pose proof (Z.mod_pos_bound x array_size array_size_pos). lia. Qed.

(** ** The invariant of the queue

    [H] lists the elements taken from the queue and not yet given back:
    the copies of the calls of [update_weak] under way (one inside the
    functor of the other).  The [N0 - length H] positions from [left]
    on hold distinct objects, none of them held and none the [data] of
    an instance; every instance has an object of its own. *)
Definition free_at (s : state) (k : Z) (a : addr) : Prop :=
  queue s !! Z.to_nat ((left s + k) mod array_size) = Some (Some a).

Definition current (s : state) (a : addr) : Prop :=
  exists c, cells s !! c = Some (Some a).

Record pool (H : list addr) (s : state) : Prop := mkPool {
  pool_left : 0 <= left s < uint_mod;
  pool_right : 0 <= right s < uint_mod;
  pool_counters : counters_ok s;
  pool_length : length (queue s) = Z.to_nat array_size;
  pool_size : wrap (right s - left s) = N0 - Z.of_nat (length H);
  pool_bound : Z.of_nat (length H) <= N0;
  pool_free : forall k, 0 <= k < N0 - Z.of_nat (length H) ->
                        exists a, free_at s k a;
  pool_free_inj : forall k1 k2 a,
      0 <= k1 < N0 - Z.of_nat (length H) ->
      0 <= k2 < N0 - Z.of_nat (length H) ->
      free_at s k1 a -> free_at s k2 a -> k1 = k2;
  pool_free_obj : forall k a,
      0 <= k < N0 - Z.of_nat (length H) -> free_at s k a ->
      is_Some (heap s !! a) /\ (a ∉ H) /\ ~ current s a;
  pool_held : NoDup H;
  pool_held_obj : forall a,
      a ∈ H -> is_Some (heap s !! a) /\ ~ current s a;
  pool_cells : forall c p,
      cells s !! c = Some p -> exists a, p = Some a /\ is_Some (heap s !! a);
  pool_cells_inj : forall c1 c2 a,
      cells s !! c1 = Some (Some a) -> cells s !! c2 = Some (Some a) ->
      c1 = c2
}.

Lemma set_weak_cas_id s : set_weak_cas (weak_cas s) s = s.
Proof. destruct s; reflexivity. Qed.

Lemma pool_weak_cas H s o : pool H s -> pool H (set_weak_cas o s).
Proof. intros []; constructor; assumption. Qed.

Lemma pool_set_counters H s c :
  0 <= fst c < uint_mod -> 0 <= snd c < uint_mod ->
  pool H s -> pool H (set_counters c s).
Proof. intros H0 H1 []; constructor; try assumption. split; assumption. Qed.

Lemma counter_upd_ok i f c :
  (forall x, 0 <= f x < uint_mod) ->
  0 <= fst c < uint_mod /\ 0 <= snd c < uint_mod ->
  0 <= fst (counter_upd i f c) < uint_mod
  /\ 0 <= snd (counter_upd i f c) < uint_mod.
Proof.
  intros Hf [H0 H1]. unfold counter_upd.
  destruct (i =? 0); simpl; auto.
Qed.

Lemma counter_upd_inc_dec i c :
  0 <= fst c < uint_mod /\ 0 <= snd c < uint_mod ->
  counter_upd i (fun x => wrap (x - 1))
    (counter_upd i (fun x => wrap (x + 1)) c) = c.
Proof.
  intros [H0 H1]. destruct c as [c0 c1]. unfold counter_upd.
  destruct (i =? 0) eqn:E; simpl in *; rewrite ?E; simpl;
    rewrite wrap_inc_dec by assumption; reflexivity.
Qed.

Lemma pool_set_heap H s h :
  (forall a, is_Some (heap s !! a) -> is_Some (h !! a)) ->
  pool H s -> pool H (set_heap h s).
Proof.
  intros Hh []; constructor; try assumption.
  - intros k a Hk Hf. destruct (pool_free_obj0 k a Hk Hf) as (? & ? & ?).
    auto.
  - intros a Ha. destruct (pool_held_obj0 a Ha). auto.
  - intros c p Hc. destruct (pool_cells0 c p Hc) as (a & -> & ?).
    exists a. auto.
Qed.

(** Taking the element at [left]. *)
Lemma pool_allocate H s a o :
  pool H s -> left s <> right s -> free_at s 0 a ->
  pool (a :: H) (set_left (wrap (left s + 1)) (set_weak_cas o s)).
Proof.
  intros P Hne Ha. pose proof N0_pos as HN. pose proof array_size_lt as HA.
  unfold array_size in HA.
  assert (Hsz : 1 <= N0 - Z.of_nat (length H)).
  { destruct (Z.eq_dec (N0 - Z.of_nat (length H)) 0) as [E | E].
    - exfalso. apply Hne. apply wrap_diff_zero.
      + apply (pool_left _ _ P).
      + apply (pool_right _ _ P).
      + rewrite (pool_size _ _ P). exact E.
    - pose proof (pool_bound _ _ P). lia. }
  assert (Hshift : forall k b,
    free_at (set_left (wrap (left s + 1)) (set_weak_cas o s)) k b
    <-> free_at s (1 + k) b).
  { intros k b. unfold free_at. simpl. rewrite slot_wrap_left. tauto. }
  destruct (pool_free_obj _ _ P 0 a ltac:(lia) Ha) as (Hobj & HnH & Hnc).
  constructor; simpl.
  - apply wrap_range.
  - apply (pool_right _ _ P).
  - apply (pool_counters _ _ P).
  - apply (pool_length _ _ P).
  - rewrite wrap_sub_r.
    replace (right s - (left s + 1)) with (right s - left s - 1) by lia.
    rewrite <- wrap_sub_l, (pool_size _ _ P). rewrite wrap_small; lia.
  - lia.
  - intros k Hk. destruct (pool_free _ _ P (1 + k) ltac:(lia)) as [b Hb].
    exists b. apply Hshift. exact Hb.
  - intros k1 k2 b Hk1 Hk2 H1 H2. apply Hshift in H1, H2.
    pose proof (pool_free_inj _ _ P (1 + k1) (1 + k2) b
                  ltac:(lia) ltac:(lia) H1 H2). lia.
  - intros k b Hk Hb. apply Hshift in Hb.
    destruct (pool_free_obj _ _ P (1 + k) b ltac:(lia) Hb) as (? & ? & ?).
    split; [assumption |]. split; [| assumption].
    rewrite elem_of_cons. intros [-> | ?]; [| contradiction].
    pose proof (pool_free_inj _ _ P (1 + k) 0 a ltac:(lia) ltac:(lia) Hb Ha).
    lia.
  - constructor; [exact HnH | apply (pool_held _ _ P)].
  - intros b. rewrite elem_of_cons. intros [-> | Hb].
    + split; assumption.
    + apply (pool_held_obj _ _ P b Hb).
  - apply (pool_cells _ _ P).
  - apply (pool_cells_inj _ _ P).
Qed.

(** Giving a held element back at [right]. *)
Definition give_back (p : ptr) (s : state) : state :=
  set_queue (<[Z.to_nat (right s mod array_size) := p]> (queue s))
    (set_right (wrap (right s + 1)) s).

Lemma pool_give_back H s a :
  pool (a :: H) s -> pool H (give_back (Some a) s).
Proof.
  intros P. pose proof N0_pos as HN. pose proof array_size_lt as HA.
  unfold array_size in HA.
  pose proof (pool_bound _ _ P) as Hbd. pose proof (pool_size _ _ P) as Hs.
  simpl length in Hbd, Hs.
  set (n := N0 - Z.of_nat (length H)) in *.
  assert (Hn : 1 <= n <= N0) by lia.
  assert (Hr : right s mod array_size = (left s + (n - 1)) mod array_size).
  { apply slot_right. rewrite Hs. lia. }
  assert (Hlast : forall b, free_at (give_back (Some a) s) (n - 1) b <-> b = a).
  { intros b. unfold free_at, give_back. simpl. rewrite <- Hr.
    rewrite list_lookup_insert_eq.
    - split; [congruence | intros ->; reflexivity].
    - rewrite (pool_length _ _ P). apply slot_lt. }
  assert (Hold : forall k b, 0 <= k < n - 1 ->
    free_at (give_back (Some a) s) k b <-> free_at s k b).
  { intros k b Hk. unfold free_at, give_back. simpl.
    rewrite list_lookup_insert_ne; [tauto |].
    rewrite Hr. intros E. apply Z2Nat.inj in E.
    - apply slot_inj in E; unfold array_size; lia.
    - apply Z.mod_pos_bound, array_size_pos.
    - apply Z.mod_pos_bound, array_size_pos. }
  assert (Hheld : forall k b, 0 <= k < n - 1 -> free_at s k b ->
    is_Some (heap s !! b) /\ (b ∉ a :: H) /\ ~ current s b).
  { intros k b Hk. apply (pool_free_obj _ _ P). simpl length. lia. }
  destruct (pool_held_obj _ _ P a ltac:(left)) as [Haobj Hacur].
  pose proof (pool_held _ _ P) as Hnd. apply NoDup_cons in Hnd.
  destruct Hnd as [HaH HndH].
  constructor; simpl.
  - apply (pool_left _ _ P).
  - apply wrap_range.
  - apply (pool_counters _ _ P).
  - rewrite length_insert. apply (pool_length _ _ P).
  - rewrite wrap_sub_l. replace (right s + 1 - left s)
      with (right s - left s + 1) by lia.
    rewrite <- wrap_add_l, Hs. rewrite wrap_small; lia.
  - lia.
  - intros k Hk. destruct (Z.eq_dec k (n - 1)) as [-> | Hne].
    + exists a. apply Hlast. reflexivity.
    + destruct (pool_free _ _ P k) as [b Hb]; [simpl length; lia |].
      exists b. apply Hold; [lia | exact Hb].
  - intros k1 k2 b Hk1 Hk2 H1 H2.
    destruct (Z.eq_dec k1 (n - 1)) as [-> | Hne1];
      destruct (Z.eq_dec k2 (n - 1)) as [-> | Hne2]; [reflexivity | | |].
    + apply Hlast in H1. subst b. apply Hold in H2; [| lia].
      destruct (Hheld k2 a ltac:(lia) H2) as (_ & Hn2 & _).
      exfalso. apply Hn2. left.
    + apply Hlast in H2. subst b. apply Hold in H1; [| lia].
      destruct (Hheld k1 a ltac:(lia) H1) as (_ & Hn1 & _).
      exfalso. apply Hn1. left.
    + apply Hold in H1, H2; try lia.
      apply (pool_free_inj _ _ P k1 k2 b); simpl length; try lia; assumption.
  - intros k b Hk Hb. destruct (Z.eq_dec k (n - 1)) as [-> | Hne].
    + apply Hlast in Hb. subst b. auto.
    + apply Hold in Hb; [| lia].
      destruct (Hheld k b ltac:(lia) Hb) as (? & Hn2 & ?).
      split; [assumption |]. split; [| assumption].
      intros ?. apply Hn2. right. assumption.
  - exact HndH.
  - intros b Hb. apply (pool_held_obj _ _ P b). right. exact Hb.
  - apply (pool_cells _ _ P).
  - apply (pool_cells_inj _ _ P).
Qed.

(** Publishing a held element as the [data] of [this]: the displaced
    object becomes the held one. *)
Lemma pool_publish H s a this d :
  pool (a :: H) s -> cells s !! this = Some (Some d) ->
  pool (d :: H) (set_cells (<[this := Some a]> (cells s)) s).
Proof.
  intros P Hd.
  destruct (pool_held_obj _ _ P a ltac:(left)) as [Haobj Hacur].
  pose proof (pool_held _ _ P) as Hnd. apply NoDup_cons in Hnd.
  destruct Hnd as [HaH HndH].
  assert (Hcur : forall b,
    current (set_cells (<[this := Some a]> (cells s)) s) b ->
    b = a \/ (current s b /\ b <> d)).
  { intros b [c Hc]. simpl in Hc.
    destruct (decide (c = this)) as [-> | Hne].
    - rewrite lookup_insert_eq in Hc. left. congruence.
    - rewrite lookup_insert_ne in Hc by congruence. right.
      split; [exists c; exact Hc |]. intros ->.
      apply Hne. apply (pool_cells_inj _ _ P c this d); assumption. }
  assert (HdH : d ∉ H).
  { intros Hin. destruct (pool_held_obj _ _ P d ltac:(right; exact Hin))
      as [_ Hn]. apply Hn. exists this. exact Hd. }
  destruct (pool_cells _ _ P this _ Hd) as (d' & Hd' & Hdobj).
  injection Hd' as <-.
  constructor; simpl.
  - apply (pool_left _ _ P).
  - apply (pool_right _ _ P).
  - apply (pool_counters _ _ P).
  - apply (pool_length _ _ P).
  - apply (pool_size _ _ P).
  - apply (pool_bound _ _ P).
  - apply (pool_free _ _ P).
  - apply (pool_free_inj _ _ P).
  - intros k b Hk Hb.
    destruct (pool_free_obj _ _ P k b Hk Hb) as (? & Hn & Hnc).
    split; [assumption |]. split.
    + rewrite elem_of_cons. intros [-> | ?].
      * apply Hnc. exists this. exact Hd.
      * apply Hn. right. assumption.
    + intros Hc. apply Hcur in Hc. destruct Hc as [-> | [Hc _]].
      * apply Hn. left.
      * contradiction.
  - constructor; assumption.
  - intros b. rewrite elem_of_cons. intros [-> | Hb].
    + split; [assumption |]. intros Hc. apply Hcur in Hc.
      destruct Hc as [-> | [_ ?]]; [| congruence].
      apply Hacur. exists this. exact Hd.
    + destruct (pool_held_obj _ _ P b ltac:(right; exact Hb)) as [? Hn].
      split; [assumption |]. intros Hc. apply Hcur in Hc.
      destruct Hc as [-> | [? _]]; contradiction.
  - intros c p Hc. destruct (decide (c = this)) as [-> | Hne].
    + rewrite lookup_insert_eq in Hc. injection Hc as <-. exists a. auto.
    + rewrite lookup_insert_ne in Hc by congruence.
      apply (pool_cells _ _ P c p Hc).
  - intros c1 c2 b H1 H2.
    destruct (decide (c1 = this)) as [-> | Hne1];
      destruct (decide (c2 = this)) as [-> | Hne2]; [reflexivity | | |].
    + rewrite lookup_insert_eq in H1. injection H1 as <-.
      rewrite lookup_insert_ne in H2 by congruence.
      exfalso. apply Hacur. exists c2. exact H2.
    + rewrite lookup_insert_eq in H2. injection H2 as <-.
      rewrite lookup_insert_ne in H1 by congruence.
      exfalso. apply Hacur. exists c1. exact H1.
    + rewrite lookup_insert_ne in H1, H2 by congruence.
      apply (pool_cells_inj _ _ P c1 c2 b); assumption.
Qed.

(** ** Weakest preconditions

    [wp tm m Q E s]: from [s], [m] ends normally in a state and with a
    value that satisfy [Q], or with an exception in a state that
    satisfies [E]; it has no undefined behaviour; [tm] says whether
    exhausting the fuel is tolerated. *)
Definition wp (tm : Prop) {A} (m : M A) (Q : A -> state -> Prop)
    (E : state -> Prop) (s : state) : Prop :=
  match m s with
  | Done a s' => Q a s'
  | Raised s' => E s'
  | Undef => False
  | Timeout => tm
  end.

Lemma wp_ret tm {A} (a : A) Q E s : Q a s -> wp tm (ret a) Q E s.
Proof. exact id. Qed.

Lemma wp_bind tm {A B} (m : M A) (k : A -> M B) Q E s :
  wp tm m (fun a s' => wp tm (k a) Q E s') E s -> wp tm (bind m k) Q E s.
Proof. unfold wp, bind. destruct (m s); exact id. Qed.

Lemma wp_mono tm {A} (m : M A) (Q Q' : A -> state -> Prop)
    (E E' : state -> Prop) s :
  (forall a s', Q a s' -> Q' a s') -> (forall s', E s' -> E' s') ->
  wp tm m Q E s -> wp tm m Q' E' s.
Proof. unfold wp. intros HQ HE. destruct (m s); auto. Qed.

Lemma wp_done tm {A} (m : M A) Q E s a s' :
  wp tm m Q E s -> m s = Done a s' -> Q a s'.
Proof. unfold wp. intros H Hm. rewrite Hm in H. exact H. Qed.

Lemma wp_raised tm {A} (m : M A) Q E s s' :
  wp tm m Q E s -> m s = Raised s' -> E s'.
Proof. unfold wp. intros H Hm. rewrite Hm in H. exact H. Qed.

Lemma wp_total {A} (m : M A) Q E s :
  wp False m Q E s ->
  (exists a s', m s = Done a s' /\ Q a s')
  \/ (exists s', m s = Raised s' /\ E s').
Proof.
  unfold wp. destruct (m s) as [a s' | s' | |]; intros H; try contradiction.
  - left. exists a, s'. auto.
  - right. exists s'. auto.
Qed.

(** ** The steps of [update_weak] on the state *)

Definition register (queue_right : Z) (s : state) : state :=
  set_counters
    (counter_upd (counter_index queue_right) (fun c => wrap (c + 1))
       (counters s)) s.

Definition unregister (queue_right : Z) (s : state) : state :=
  set_counters
    (counter_upd (counter_index queue_right) (fun c => wrap (c - 1))
       (counters s)) s.

Definition tail_cas (s : state) : state := set_weak_cas (tail (weak_cas s)) s.

(** The allocation goes as far as the CAS on [left]. *)
Definition can_allocate (s : state) : Prop :=
  left s <> right s /\ (left s mod queue_size <> 0 \/ barrier_open s).

#[local] Instance can_allocate_dec s : Decision (can_allocate s).
Proof. unfold can_allocate, barrier_open. apply _. Defined.

(** The state in which the functor runs: element [a] taken, the guard
    registered, the current value [v] copied into [a]. *)
Definition started (a : addr) (v : T) (s : state) : state :=
  set_heap (<[a := v]> (heap s))
    (register (right s) (set_left (wrap (left s + 1)) (tail_cas s))).

(** The state the destructor of the guard leaves. *)
Definition finished (queue_right : Z) (p : ptr) (s : state) : state :=
  unregister queue_right (give_back p s).

Definition published (this : cell) (a : addr) (s : state) : state :=
  set_cells (<[this := Some a]> (cells s)) s.

Lemma try_allocate_closed s :
  counters_ok s -> ~ can_allocate s -> try_allocate s = Done None s.
Proof.
  intros Hc Hn. unfold try_allocate, bind at 1 2, load_left, load_right.
  destruct (Z.eqb_spec (left s) (right s)); [reflexivity |].
  unfold bind at 1. rewrite (check_barrier_spec s Hc).
  rewrite bool_decide_eq_false_2; [reflexivity |].
  intros Hb. apply Hn. split; assumption.
Qed.

Lemma try_allocate_lost s o :
  counters_ok s -> can_allocate s -> weak_cas s = true :: o ->
  try_allocate s = Done None (set_weak_cas o s).
Proof.
  intros Hc [Hne Hb] Ho.
  unfold try_allocate, bind at 1 2, load_left, load_right.
  destruct (Z.eqb_spec (left s) (right s)); [contradiction |].
  unfold bind at 1. rewrite (check_barrier_spec s Hc).
  rewrite bool_decide_eq_true_2 by assumption. simpl.
  unfold bind at 1, left_compare_exchange_weak, bind at 1, spurious.
  rewrite Ho. reflexivity.
Qed.

Lemma spurious_tail s :
  cas_strong s -> spurious s = Done false (tail_cas s).
Proof.
  unfold cas_strong, spurious, tail_cas.
  destruct (weak_cas s) as [| b o] eqn:Eo.
  - intros _. simpl. rewrite <- Eo, set_weak_cas_id. reflexivity.
  - intros ->. reflexivity.
Qed.

Lemma try_allocate_taken s p :
  counters_ok s -> can_allocate s -> cas_strong s ->
  queue s !! Z.to_nat (left s mod array_size) = Some p ->
  try_allocate s
  = Done (Some p) (set_left (wrap (left s + 1)) (tail_cas s)).
Proof.
  intros Hc [Hne Hb] Hs Hp.
  unfold try_allocate, bind at 1 2, load_left, load_right.
  destruct (Z.eqb_spec (left s) (right s)); [contradiction |].
  unfold bind at 1. rewrite (check_barrier_spec s Hc).
  rewrite bool_decide_eq_true_2 by assumption. simpl.
  unfold bind at 1, left_compare_exchange_weak, bind at 1.
  rewrite (spurious_tail s Hs). simpl. rewrite Z.eqb_refl. simpl.
  unfold bind, queue_get. simpl. rewrite Hp. reflexivity.
Qed.

Lemma deallocate_guard_dtor_eq qr p s :
  length (queue s) = Z.to_nat array_size -> 0 < N0 ->
  deallocate_guard_dtor (mkGuard qr p) s = Done tt (finished qr p s).
Proof.
  intros Hlen HN. unfold deallocate_guard_dtor, bind, right_add_1, queue_set.
  simpl. destruct (decide _) as [Hlt | Hge]; [reflexivity |].
  exfalso. apply Hge. rewrite Hlen. unfold array_size.
  pose proof (Z.mod_pos_bound (right s) (2 * N0)). lia.
Qed.

Lemma pool_nonempty H s :
  pool H s -> left s <> right s -> exists a, free_at s 0 a.
Proof.
  intros P Hne. apply (pool_free _ _ P).
  destruct (Z.eq_dec (N0 - Z.of_nat (length H)) 0) as [E | E].
  - exfalso. apply Hne. apply wrap_diff_zero.
    + apply (pool_left _ _ P).
    + apply (pool_right _ _ P).
    + rewrite (pool_size _ _ P). exact E.
  - pose proof (pool_bound _ _ P). lia.
Qed.

Lemma pool_register H s qr : pool H s -> pool H (register qr s).
Proof.
  intros P. unfold register.
  pose proof (counter_upd_ok (counter_index qr) (fun c => wrap (c + 1))
                (counters s) (fun x => wrap_range (x + 1))
                (pool_counters _ _ P)) as [? ?].
  apply pool_set_counters; assumption.
Qed.

Lemma pool_unregister H s qr : pool H s -> pool H (unregister qr s).
Proof.
  intros P. unfold unregister.
  pose proof (counter_upd_ok (counter_index qr) (fun c => wrap (c - 1))
                (counters s) (fun x => wrap_range (x - 1))
                (pool_counters _ _ P)) as [? ?].
  apply pool_set_counters; assumption.
Qed.

Lemma pool_assign H s a v :
  is_Some (heap s !! a) -> pool H s ->
  pool H (set_heap (<[a := v]> (heap s)) s).
Proof.
  intros Ha. apply pool_set_heap. intros b Hb.
  destruct (decide (a = b)) as [-> | Hne].
  - rewrite lookup_insert_eq. eauto.
  - rewrite lookup_insert_ne by congruence. exact Hb.
Qed.

Lemma pool_started H s a v :
  pool H s -> left s <> right s -> free_at s 0 a ->
  pool (a :: H) (started a v s).
Proof.
  intros P Hne Ha. unfold started.
  destruct (pool_free_obj _ _ P 0 a) as (Hobj & _ & _);
    [| exact Ha |].
  { destruct (pool_nonempty H s P Hne) as [b Hb].
    pose proof (pool_bound _ _ P).
    destruct (Z.eq_dec (N0 - Z.of_nat (length H)) 0) as [E | E]; [| lia].
    exfalso. apply Hne. apply wrap_diff_zero.
    - apply (pool_left _ _ P).
    - apply (pool_right _ _ P).
    - rewrite (pool_size _ _ P). exact E. }
  apply (pool_assign (a :: H)
           (register (right s) (set_left (wrap (left s + 1)) (tail_cas s)))).
  - exact Hobj.
  - apply pool_register. apply pool_allocate; assumption.
Qed.

Lemma pool_finished H s a qr :
  pool (a :: H) s -> pool H (finished qr (Some a) s).
Proof. intros P. apply pool_unregister, pool_give_back. exact P. Qed.

Lemma cas_cases s : (exists o, weak_cas s = true :: o) \/ cas_strong s.
Proof.
  unfold cas_strong. destruct (weak_cas s) as [| [|] o]; eauto.
Qed.

Lemma data_cas_lost this e d s o :
  weak_cas s = true :: o ->
  data_compare_exchange_weak this e d s = Done false (set_weak_cas o s).
Proof.
  intros Ho. unfold data_compare_exchange_weak, bind, spurious.
  rewrite Ho. reflexivity.
Qed.

Lemma data_cas_strong this e d s p :
  cas_strong s -> cells s !! this = Some p ->
  data_compare_exchange_weak this e d s
  = if decide (p = e)
    then Done true (set_cells (<[this := d]> (cells s)) (tail_cas s))
    else Done false (tail_cas s).
Proof.
  intros Hs Hp. unfold data_compare_exchange_weak, bind.
  rewrite (spurious_tail s Hs). simpl. rewrite Hp. reflexivity.
Qed.

Lemma pool_free_head H s a :
  pool H s -> left s <> right s -> free_at s 0 a ->
  is_Some (heap s !! a) /\ (a ∉ H) /\ ~ current s a.
Proof.
  intros P Hne Ha. apply (pool_free_obj _ _ P 0 a); [| exact Ha].
  pose proof (pool_bound _ _ P).
  destruct (Z.eq_dec (N0 - Z.of_nat (length H)) 0) as [E | E]; [| lia].
  exfalso. apply Hne. apply wrap_diff_zero.
  - apply (pool_left _ _ P).
  - apply (pool_right _ _ P).
  - rewrite (pool_size _ _ P). exact E.
Qed.

(** Once the element is taken, [update_weak] is its functor between
    the construction and the destruction of the guard. *)
Lemma update_weak_taken {L} H this (fn : ptr -> L -> M (bool * L)) (l : L)
    s a d v :
  pool H s -> can_allocate s -> cas_strong s -> free_at s 0 a ->
  cells s !! this = Some (Some d) -> heap s !! d = Some v ->
  update_weak this fn l s
  = with_deallocate_guard (mkGuard (right s) (Some a))
      (bind (fn (Some a) l) (fun '(r, l') =>
         if negb r then ret (mkGuard (right s) (Some a), (false, l'))
         else
           bind (data_compare_exchange_weak this (Some d) (Some a))
             (fun ok =>
                if negb ok then ret (mkGuard (right s) (Some a), (false, l'))
                else ret (mkGuard (right s) (Some d), (true, l')))))
      (started a v s).
Proof.
  intros P Hcan Hs Ha Hd Hv. pose proof (pool_counters _ _ P) as Hc.
  pose proof Ha as Ha'. unfold free_at in Ha'. rewrite Z.add_0_r in Ha'.
  destruct (pool_free_head H s a P (proj1 Hcan) Ha) as ([w Hw] & _ & _).
  unfold update_weak, bind at 1.
  rewrite (try_allocate_taken s (Some a) Hc Hcan Hs Ha').
  unfold bind at 1, data_load. simpl. rewrite Hd.
  unfold bind at 1, deallocate_guard_ctor, bind at 1, counter_guard_ctor,
    bind at 1 2, load_right, inc, ret. simpl.
  unfold with_deallocate_guard, copy_update_publish, bind at 1, deref.
  simpl. rewrite Hv.
  unfold bind at 1, assign. simpl. rewrite Hw. reflexivity.
Qed.

(** The rule for [update_weak]: what has to hold on each way out. *)
Lemma wp_update_weak {L} tm H this (fn : ptr -> L -> M (bool * L)) (l : L)
    s d v (Q : bool * L -> state -> Prop) (E : state -> Prop) :
  pool H s ->
  cells s !! this = Some (Some d) ->
  heap s !! d = Some v ->
  (~ can_allocate s -> Q (false, l) s) ->
  (forall o, can_allocate s -> weak_cas s = true :: o ->
             Q (false, l) (set_weak_cas o s)) ->
  (forall a, can_allocate s -> cas_strong s -> free_at s 0 a ->
     pool (a :: H) (started a v s) ->
     wp tm (fn (Some a) l)
       (fun rl s2 =>
          pool (a :: H) s2 /\
          if fst rl then
            is_Some (cells s2 !! this)
            /\ (forall o, weak_cas s2 = true :: o ->
                  Q (false, snd rl)
                    (finished (right s) (Some a) (set_weak_cas o s2)))
            /\ (cas_strong s2 -> cells s2 !! this = Some (Some d) ->
                  Q (true, snd rl)
                    (finished (right s) (Some d)
                       (published this a (tail_cas s2))))
            /\ (cas_strong s2 -> cells s2 !! this <> Some (Some d) ->
                  Q (false, snd rl)
                    (finished (right s) (Some a) (tail_cas s2)))
          else Q (false, snd rl) (finished (right s) (Some a) s2))
       (fun s2 => pool (a :: H) s2 /\ E (finished (right s) (Some a) s2))
       (started a v s)) ->
  wp tm (update_weak this fn l) Q E s.
Proof.
  intros P Hd Hv Hclosed Hlost Htaken.
  pose proof (pool_counters _ _ P) as Hc. pose proof N0_pos as HN.
  destruct (decide (can_allocate s)) as [Hcan | Hcan].
  2: { unfold wp, update_weak, bind.
       rewrite (try_allocate_closed s Hc Hcan). apply Hclosed, Hcan. }
  destruct (cas_cases s) as [[o Ho] | Hs].
  { unfold wp, update_weak, bind.
    rewrite (try_allocate_lost s o Hc Hcan Ho). apply Hlost; auto. }
  destruct (pool_nonempty H s P (proj1 Hcan)) as [a Ha].
  pose proof (pool_started H s a v P (proj1 Hcan) Ha) as P1.
  specialize (Htaken a Hcan Hs Ha P1).
  unfold wp. rewrite (update_weak_taken H this fn l s a d v) by assumption.
  unfold wp in Htaken. unfold with_deallocate_guard, bind at 1.
  destruct (fn (Some a) l (started a v s)) as [[r l'] s2 | s2 | |];
    [| | contradiction | exact Htaken].
  2: { destruct Htaken as [P2 HE]. unfold bind.
       rewrite (deallocate_guard_dtor_eq _ _ s2 (pool_length _ _ P2) HN).
       exact HE. }
  destruct Htaken as [P2 HQ]. simpl in HQ.
  pose proof (pool_length _ _ P2) as Hlen2.
  destruct r; simpl.
  2: { unfold bind, ret. rewrite (deallocate_guard_dtor_eq _ _ s2 Hlen2 HN).
       exact HQ. }
  destruct HQ as ([p Hp] & HQlost & HQok & HQother).
  destruct (cas_cases s2) as [[o2 Ho2] | Hs2].
  { unfold bind at 1. rewrite (data_cas_lost _ _ _ _ _ Ho2). simpl.
    unfold ret, bind.
    rewrite (deallocate_guard_dtor_eq _ _ (set_weak_cas o2 s2) Hlen2 HN).
    apply HQlost. exact Ho2. }
  unfold bind at 1. rewrite (data_cas_strong _ _ _ _ _ Hs2 Hp).
  destruct (decide (p = Some d)) as [-> | Hne]; simpl; unfold ret, bind.
  - rewrite (deallocate_guard_dtor_eq _ _
               (set_cells (<[this := Some a]> (cells s2)) (tail_cas s2))
               Hlen2 HN).
    apply HQok; auto.
  - rewrite (deallocate_guard_dtor_eq _ _ (tail_cas s2) Hlen2 HN).
    apply HQother; auto. congruence.
Qed.

(** ** What a mutator does to the copy *)

Lemma mutator_started H s a v f :
  pool (a :: H) (started a v s) ->
  let s2 := set_heap (<[a := fst (f v)]> (heap (started a v s)))
              (started a v s) in
  pool (a :: H) s2
  /\ mutator f (Some a) tt (started a v s)
     = match snd (f v) with
       | Accept => Done (true, tt) s2
       | Veto => Done (false, tt) s2
       | Throws => Raised s2
       end.
Proof.
  intros P1 s2. split.
  - apply pool_assign; [| exact P1]. simpl. rewrite lookup_insert_eq. eauto.
  - unfold mutator, bind at 1, deref. simpl. rewrite lookup_insert_eq.
    unfold bind at 1, assign. simpl. rewrite lookup_insert_eq.
    destruct (snd (f v)); reflexivity.
Qed.

(** The value an instance publishes. *)
Definition value_of (s : state) (c : cell) : option T :=
  match cells s !! c with
  | Some (Some a) => heap s !! a
  | _ => None
  end.

(** A failed call leaves every published value and the counters as
    they were; the queue is as before, or the element taken at [left]
    has been put back at [right]. *)
Definition rolled_back (s s' : state) : Prop :=
  cells s' = cells s
  /\ (forall c, value_of s' c = value_of s c)
  /\ counters s' = counters s
  /\ ((left s' = left s /\ right s' = right s /\ queue s' = queue s
       /\ heap s' = heap s)
      \/ (exists a,
            free_at s 0 a
            /\ left s' = wrap (left s + 1)
            /\ right s' = wrap (right s + 1)
            /\ queue s'
               = <[Z.to_nat (right s mod array_size) := Some a]> (queue s))).

Lemma value_of_held H s a w c :
  pool (a :: H) s ->
  value_of (set_heap (<[a := w]> (heap s)) s) c = value_of s c.
Proof.
  intros P. unfold value_of. simpl.
  destruct (cells s !! c) as [[b |] |] eqn:Ec; try reflexivity.
  apply lookup_insert_ne. intros ->.
  destruct (pool_held_obj _ _ P b ltac:(left)) as [_ Hn].
  apply Hn. exists c. exact Ec.
Qed.

(** C1: when [update_weak] returns [true], the instance publishes the
    result of the mutator on a copy of the value that was current at
    the call, in the element taken at [left]; the displaced object,
    still holding the old value, is back in the queue at the old
    [right]. *)
Theorem C1_update_weak_publishes H s this f d v s' :
  pool H s ->
  cells s !! this = Some (Some d) ->
  heap s !! d = Some v ->
  update_weak this (mutator f) tt s = Done (true, tt) s' ->
  exists a,
    free_at s 0 a /\ a <> d /\ snd (f v) = Accept
    /\ cells s' !! this = Some (Some a)
    /\ value_of s' this = Some (fst (f v))
    /\ heap s' !! d = Some v
    /\ queue s' !! Z.to_nat (right s mod array_size) = Some (Some d)
    /\ right s' = wrap (right s + 1)
    /\ left s' = wrap (left s + 1)
    /\ free_at s' (N0 - Z.of_nat (length H) - 1) d
    /\ counters s' = counters s
    /\ pool H s'.
Proof.
  intros P Hd Hv Hrun.
  pose (Q := fun (rl : bool * unit) (s' : state) =>
    fst rl = true ->
    exists a,
      free_at s 0 a /\ a <> d /\ snd (f v) = Accept
      /\ cells s' !! this = Some (Some a)
      /\ value_of s' this = Some (fst (f v))
      /\ heap s' !! d = Some v
      /\ queue s' !! Z.to_nat (right s mod array_size) = Some (Some d)
      /\ right s' = wrap (right s + 1)
      /\ left s' = wrap (left s + 1)
      /\ free_at s' (N0 - Z.of_nat (length H) - 1) d
      /\ counters s' = counters s
      /\ pool H s').
  assert (W : wp False (update_weak this (mutator f) tt) Q (fun _ => True) s).
  { apply (wp_update_weak False H this (mutator f) tt s d v); try assumption.
    - intros _ Hf. discriminate Hf.
    - intros o _ _ Hf. discriminate Hf.
    - intros a Hcan Hs Ha P1.
      destruct (mutator_started H s a v f P1) as [P2 Hm].
      unfold wp. rewrite Hm.
      destruct (snd (f v)) eqn:Ev; simpl; [| split; [exact P2 |] | auto].
      2: { intros Hf. discriminate Hf. }
      split; [exact P2 |]. split; [simpl; rewrite Hd; eauto |].
      split; [intros o _ Hf; discriminate Hf |].
      split; [| intros _ _ Hf; discriminate Hf].
      intros _ _ _.
      destruct (pool_free_head H s a P (proj1 Hcan) Ha) as (_ & _ & Hnc).
      assert (Had : a <> d) by (intros ->; apply Hnc; exists this; exact Hd).
      pose proof (pool_length _ _ P) as Hlen.
      exists a. split; [exact Ha |]. split; [exact Had |].
      split; [reflexivity |].
      split; [simpl; apply lookup_insert_eq |].
      split; [unfold value_of; simpl; rewrite lookup_insert_eq;
              apply lookup_insert_eq |].
      split; [simpl; rewrite !lookup_insert_ne by congruence; exact Hv |].
      split; [simpl; apply list_lookup_insert_eq; rewrite Hlen;
              apply slot_lt |].
      split; [reflexivity |]. split; [reflexivity |].
      assert (P3 : pool H
        (finished (right s) (Some d)
           (published this a
              (tail_cas
                 (set_heap (<[a:=fst (f v)]> (heap (started a v s)))
                    (started a v s)))))).
      { apply pool_finished. apply pool_publish; [| simpl; exact Hd].
        apply pool_weak_cas. exact P2. }
      split; [| split; [| exact P3]].
      + unfold free_at. simpl. rewrite slot_wrap_left.
        replace (1 + (N0 - Z.of_nat (length H) - 1))
          with (N0 - Z.of_nat (length H)) by lia.
        rewrite <- (slot_right (left s) (right s) _ (pool_size _ _ P)).
        apply list_lookup_insert_eq. rewrite Hlen. apply slot_lt.
      + simpl. apply counter_upd_inc_dec. apply (pool_counters _ _ P). }
  apply (wp_done _ _ _ _ _ _ _ W Hrun). reflexivity.
Qed.

Lemma value_of_frame s s' :
  cells s' = cells s ->
  (forall b, current s b -> heap s' !! b = heap s !! b) ->
  forall c, value_of s' c = value_of s c.
Proof.
  intros Hc Hh c. unfold value_of. rewrite Hc.
  destruct (cells s !! c) as [[b |] |] eqn:Ec; try reflexivity.
  apply Hh. exists c. exact Ec.
Qed.

Lemma rolled_back_refl s : rolled_back s s.
Proof. unfold rolled_back. auto 10. Qed.

Lemma rolled_back_lost s o : rolled_back s (set_weak_cas o s).
Proof. unfold rolled_back. simpl. auto 10. Qed.

(** The copy was changed and put back: nothing published has moved. *)
Lemma rolled_back_finished H s a v w o :
  pool H s -> left s <> right s -> free_at s 0 a ->
  rolled_back s
    (finished (right s) (Some a)
       (set_weak_cas o
          (set_heap (<[a := w]> (heap (started a v s))) (started a v s)))).
Proof.
  intros P Hne Ha.
  destruct (pool_free_head H s a P Hne Ha) as (_ & _ & Hnc).
  unfold rolled_back. split; [reflexivity |]. split; [| split].
  - apply value_of_frame; [reflexivity |]. intros b Hb. simpl.
    assert (a <> b) by (intros ->; contradiction).
    rewrite !lookup_insert_ne by assumption. reflexivity.
  - simpl. apply counter_upd_inc_dec. apply (pool_counters _ _ P).
  - right. exists a. simpl. auto.
Qed.

(** C2: when [update_weak] does not succeed, by returning [false] or
    by an exception of the mutator, every published value and both
    usage counters are as before the call and the element taken from
    the queue, if any, is back in it; an exception of the mutator
    reaches the caller. *)
Theorem C2_update_weak_rolls_back H s this f d v :
  pool H s ->
  cells s !! this = Some (Some d) ->
  heap s !! d = Some v ->
  ((exists s', update_weak this (mutator f) tt s = Done (true, tt) s')
   \/ (exists s', update_weak this (mutator f) tt s = Done (false, tt) s'
                  /\ rolled_back s s' /\ pool H s')
   \/ (exists s', update_weak this (mutator f) tt s = Raised s'
                  /\ snd (f v) = Throws
                  /\ rolled_back s s' /\ pool H s'))
  /\ (can_allocate s -> cas_strong s -> snd (f v) = Throws ->
      exists s', update_weak this (mutator f) tt s = Raised s').
Proof.
  intros P Hd Hv.
  pose (called := can_allocate s /\ cas_strong s).
  pose (Q := fun (rl : bool * unit) (s' : state) =>
    (fst rl = true \/ (rolled_back s s' /\ pool H s'))
    /\ (called -> snd (f v) <> Throws)).
  pose (E := fun (s' : state) =>
    snd (f v) = Throws /\ rolled_back s s' /\ pool H s').
  assert (W : wp False (update_weak this (mutator f) tt) Q E s).
  { apply (wp_update_weak False H this (mutator f) tt s d v); try assumption.
    - intros Hn. split; [right; split; [apply rolled_back_refl | exact P] |].
      intros [? _]. contradiction.
    - intros o _ Ho. split.
      + right. split; [apply rolled_back_lost | apply pool_weak_cas, P].
      + intros [_ Hs]. unfold cas_strong in Hs. rewrite Ho in Hs.
        discriminate Hs.
    - intros a Hcan Hs Ha P1.
      destruct (mutator_started H s a v f P1) as [P2 Hm].
      unfold wp. rewrite Hm.
      assert (Hrb : forall o,
        rolled_back s
          (finished (right s) (Some a)
             (set_weak_cas o
                (set_heap (<[a := fst (f v)]> (heap (started a v s)))
                   (started a v s))))
        /\ pool H
             (finished (right s) (Some a)
                (set_weak_cas o
                   (set_heap (<[a := fst (f v)]> (heap (started a v s)))
                      (started a v s))))).
      { intros o. split.
        - apply (rolled_back_finished H); [exact P | apply Hcan | exact Ha].
        - apply pool_finished, pool_weak_cas, P2. }
      assert (Hid : forall s2 : state, set_weak_cas (weak_cas s2) s2 = s2)
        by apply set_weak_cas_id.
      destruct (snd (f v)) eqn:Ev; simpl.
      + split; [exact P2 |]. split; [simpl; rewrite Hd; eauto |].
        split; [| split].
        * intros o _. split; [right; apply Hrb | intros _; discriminate].
        * intros _ _. split; [left; reflexivity | intros _; discriminate].
        * intros _ _. split; [right; apply (Hrb _) | intros _; discriminate].
      + split; [exact P2 |].
        split; [right | intros _; discriminate].
        rewrite <- (Hid (set_heap _ (started a v s))). apply Hrb.
      + split; [exact P2 |]. split; [reflexivity |].
        rewrite <- (Hid (set_heap _ (started a v s))). apply Hrb. }
  split.
  - destruct (wp_total _ _ _ _ W) as [([r []] & s' & Hrun & [HQ _])
                                     | (s' & Hrun & HE)].
    + destruct r.
      * left. eauto.
      * right. left. exists s'.
        destruct HQ as [Hf | [Hrb Hp]]; [discriminate | auto].
    + right. right. exists s'. destruct HE as (? & ? & ?). auto.
  - intros Hcan Hs Hthrows.
    destruct (wp_total _ _ _ _ W) as [(rl & s' & Hrun & [_ HQ])
                                     | (s' & Hrun & _)].
    + exfalso. apply HQ; [split; assumption | exact Hthrows].
    + eauto.
Qed.

(** ** The state after static initialization *)

(** After [i] rounds of the loop of [init_static]. *)
Record preallocated (i : Z) (s : state) : Prop := mkPre {
  pre_length : length (queue s) = Z.to_nat array_size;
  pre_obj : forall k, 0 <= k < i ->
      exists a, queue s !! Z.to_nat k = Some (Some a)
                /\ is_Some (heap s !! a);
  pre_inj : forall k1 k2 a, 0 <= k1 < i -> 0 <= k2 < i ->
      queue s !! Z.to_nat k1 = Some (Some a) ->
      queue s !! Z.to_nat k2 = Some (Some a) -> k1 = k2;
  pre_left : left s = 0;
  pre_right : right s = 0;
  pre_counters : counters s = (0, 0);
  pre_cells : cells s = ∅
}.

Lemma preallocate_spec v0 n :
  forall i s, 0 <= i -> i + Z.of_nat n <= array_size ->
    preallocated i s ->
    exists s', preallocate v0 n i s = Done tt s'
               /\ preallocated (i + Z.of_nat n) s'
               /\ weak_cas s' = weak_cas s.
Proof.
  induction n as [| n IH]; intros i s Hi Hn Pre.
  - exists s. split; [reflexivity |]. split; [| reflexivity].
    replace (i + Z.of_nat 0) with i by lia. exact Pre.
  - simpl preallocate. unfold bind at 1, new_object.
    set (a := fresh (dom (heap s))).
    assert (Hfresh : heap s !! a = None).
    { apply not_elem_of_dom. apply is_fresh. }
    unfold bind at 1, queue_set. simpl.
    destruct (decide (Z.to_nat i < length (queue s))%nat) as [Hlt | Hge].
    2: { exfalso. apply Hge. rewrite (pre_length _ _ Pre). lia. }
    set (s1 := set_queue (<[Z.to_nat i := Some a]> (queue s))
                 (set_heap (<[a := v0]> (heap s)) s)).
    destruct (IH (i + 1) s1) as (s' & Hrun & Pre' & Ho); [lia | lia | |].
    + constructor; simpl.
      * rewrite length_insert. apply (pre_length _ _ Pre).
      * intros k Hk. destruct (Z.eq_dec k i) as [-> | Hne].
        -- exists a. rewrite list_lookup_insert_eq by exact Hlt.
           rewrite lookup_insert_eq. eauto.
        -- destruct (pre_obj _ _ Pre k ltac:(lia)) as (b & Hb & Hobj).
           exists b. rewrite list_lookup_insert_ne by lia.
           split; [exact Hb |].
           destruct (decide (a = b)) as [-> | Hab].
           ++ rewrite lookup_insert_eq. eauto.
           ++ rewrite lookup_insert_ne by exact Hab. exact Hobj.
      * assert (Hold : forall k b, 0 <= k < i ->
                  queue s !! Z.to_nat k = Some (Some b) -> b <> a).
        { intros k b Hk Hb ->.
          destruct (pre_obj _ _ Pre k Hk) as (b & Hb' & [w Hw]).
          congruence. }
        intros k1 k2 b Hk1 Hk2.
        destruct (Z.eq_dec k1 i) as [-> | Hne1];
          destruct (Z.eq_dec k2 i) as [-> | Hne2]; [reflexivity | | |].
        -- rewrite list_lookup_insert_eq by exact Hlt.
           rewrite list_lookup_insert_ne by lia.
           intros E Hb. injection E as <-.
           exfalso. apply (Hold k2 a); [lia | exact Hb | reflexivity].
        -- rewrite list_lookup_insert_ne by lia.
           rewrite list_lookup_insert_eq by exact Hlt.
           intros Hb E. injection E as <-.
           exfalso. apply (Hold k1 a); [lia | exact Hb | reflexivity].
        -- rewrite !list_lookup_insert_ne by lia.
           apply (pre_inj _ _ Pre); lia.
      * apply (pre_left _ _ Pre).
      * apply (pre_right _ _ Pre).
      * apply (pre_counters _ _ Pre).
      * apply (pre_cells _ _ Pre).
    + exists s'. split; [exact Hrun |]. split; [| exact Ho].
      replace (i + Z.of_nat (S n)) with (i + 1 + Z.of_nat n) by lia.
      exact Pre'.
Qed.

Lemma zero_state_preallocated o : preallocated 0 (zero_state o).
Proof.
  constructor; simpl; try reflexivity; try (intros; lia).
  apply length_replicate.
Qed.

(** [init_static] leaves [N0] objects in the queue, [left = 0] and
    [right = N0]. *)
Lemma init_static_pool v0 o :
  exists s, init_static v0 (zero_state o) = Done tt s
            /\ pool [] s
            /\ left s = 0 /\ right s = N0 /\ counters s = (0, 0)
            /\ cells s = ∅ /\ weak_cas s = o.
Proof.
  pose proof N0_pos as HN. pose proof array_size_lt as HA.
  assert (HNA : N0 < array_size) by (unfold array_size; lia).
  destruct (preallocate_spec v0 (Z.to_nat queue_size) 0 (zero_state o))
    as (s' & Hrun & Pre & Ho).
  { lia. }
  { unfold queue_size. lia. }
  { apply zero_state_preallocated. }
  replace (0 + Z.of_nat (Z.to_nat queue_size)) with N0 in Pre
    by (unfold queue_size; lia).
  exists (set_right (wrap queue_size) s').
  unfold init_static, bind. rewrite Hrun.
  assert (Hw : wrap queue_size = N0).
  { unfold queue_size. apply wrap_small. lia. }
  split; [reflexivity |].
  assert (Hfree : forall k b, 0 <= k < N0 ->
    free_at (set_right (wrap queue_size) s') k b
    <-> queue s' !! Z.to_nat k = Some (Some b)).
  { intros k b Hk. unfold free_at. simpl. rewrite (pre_left _ _ Pre).
    rewrite Z.add_0_l, Z.mod_small by lia. tauto. }
  assert (Hnc : forall b, ~ current (set_right (wrap queue_size) s') b).
  { intros b [c Hc]. simpl in Hc. rewrite (pre_cells _ _ Pre) in Hc.
    rewrite lookup_empty in Hc. discriminate Hc. }
  split; [| simpl; rewrite Hw; repeat split;
            [apply (pre_left _ _ Pre) | apply (pre_counters _ _ Pre)
            | apply (pre_cells _ _ Pre) | exact Ho]].
  constructor.
  - simpl. rewrite (pre_left _ _ Pre). unfold uint_mod. lia.
  - apply wrap_range.
  - unfold counters_ok. simpl. rewrite (pre_counters _ _ Pre). simpl.
    unfold uint_mod. lia.
  - apply (pre_length _ _ Pre).
  - simpl. rewrite Hw, (pre_left _ _ Pre), !Z.sub_0_r. apply wrap_small. lia.
  - simpl. lia.
  - intros k Hk. simpl in Hk.
    destruct (pre_obj _ _ Pre k ltac:(lia)) as (a & Ha & _).
    exists a. apply Hfree; [lia | assumption].
  - intros k1 k2 a Hk1 Hk2 H1 H2. simpl in Hk1, Hk2.
    apply (proj1 (Hfree k1 a ltac:(lia))) in H1.
    apply (proj1 (Hfree k2 a ltac:(lia))) in H2.
    apply (pre_inj _ _ Pre k1 k2 a); try lia; assumption.
  - intros k a Hk Ha. simpl in Hk.
    apply (proj1 (Hfree k a ltac:(lia))) in Ha.
    destruct (pre_obj _ _ Pre k ltac:(lia)) as (b & Hb & Hobj).
    assert (b = a) by congruence. subst b.
    split; [exact Hobj |]. split; [apply not_elem_of_nil | apply Hnc].
  - constructor.
  - intros a Ha. apply elem_of_nil in Ha. contradiction.
  - intros c p Hc. simpl in Hc.
    rewrite (pre_cells _ _ Pre), lookup_empty in Hc. discriminate Hc.
  - intros c1 c2 a Hc. simpl in Hc.
    rewrite (pre_cells _ _ Pre), lookup_empty in Hc. discriminate Hc.
Qed.

Lemma preallocate_heap v0 n :
  forall i s s',
    (forall b m, heap s !! b = Some m -> m = v0) ->
    preallocate v0 n i s = Done tt s' ->
    forall b m, heap s' !! b = Some m -> m = v0.
Proof.
  induction n as [| n IH]; intros i s s' Hs Hrun.
  - injection Hrun as <-. exact Hs.
  - simpl in Hrun. unfold bind at 1, new_object in Hrun.
    unfold bind at 1, queue_set in Hrun. simpl in Hrun.
    destruct (decide _) as [Hlt | Hge]; [| discriminate Hrun].
    refine (IH _ _ _ _ Hrun).
    intros b m. simpl.
    destruct (decide (fresh (dom (heap s)) = b)) as [<- | Hne].
    + rewrite lookup_insert_eq. congruence.
    + rewrite lookup_insert_ne by exact Hne. apply Hs.
Qed.

Lemma init_static_heap v0 o s :
  init_static v0 (zero_state o) = Done tt s ->
  forall b m, heap s !! b = Some m -> m = v0.
Proof.
  unfold init_static, bind.
  destruct (preallocate v0 (Z.to_nat queue_size) 0 (zero_state o))
    as [[] s' | | |] eqn:Hrun; try discriminate.
  intros E. injection E as <-. simpl.
  refine (preallocate_heap v0 _ _ _ _ _ Hrun).
  intros b m. simpl. rewrite lookup_empty. discriminate.
Qed.

(** [new atomic_data{ new T0{ v } }]: a new instance with an object of
    its own. *)
Definition new_cell (v : T) : M cell :=
  bind (new_object v) construct.

Lemma new_cell_eq v s :
  new_cell v s
  = Done (fresh (dom (cells s)))
      (set_cells (<[fresh (dom (cells s)) := Some (fresh (dom (heap s)))]>
                    (cells s))
         (set_heap (<[fresh (dom (heap s)) := v]> (heap s)) s)).
Proof. reflexivity. Qed.

Lemma pool_new_cell H s v c s' :
  pool H s -> new_cell v s = Done c s' ->
  pool H s'
  /\ cells s !! c = None
  /\ value_of s' c = Some v
  /\ (forall c', c' <> c -> cells s' !! c' = cells s !! c')
  /\ (forall b, is_Some (heap s !! b) -> heap s' !! b = heap s !! b)
  /\ queue s' = queue s /\ left s' = left s /\ right s' = right s
  /\ counters s' = counters s /\ weak_cas s' = weak_cas s.
Proof.
  intros P. rewrite new_cell_eq. intros E. injection E as <- <-.
  set (c := fresh (dom (cells s))). set (a := fresh (dom (heap s))).
  assert (Hc : cells s !! c = None) by apply not_elem_of_dom, is_fresh.
  assert (Ha : heap s !! a = None) by apply not_elem_of_dom, is_fresh.
  assert (Hkeep : forall b, is_Some (heap s !! b) ->
            <[a := v]> (heap s) !! b = heap s !! b).
  { intros b [w Hw]. apply lookup_insert_ne. congruence. }
  assert (Hcur : forall b,
    current (set_cells (<[c := Some a]> (cells s))
               (set_heap (<[a := v]> (heap s)) s)) b ->
    b = a \/ current s b).
  { intros b [c' Hc']. simpl in Hc'.
    destruct (decide (c' = c)) as [-> | Hne].
    - rewrite lookup_insert_eq in Hc'. left. congruence.
    - rewrite lookup_insert_ne in Hc' by congruence. right. exists c'.
      exact Hc'. }
  assert (Hna : forall b, is_Some (heap s !! b) -> b <> a).
  { intros b [w Hw] ->. congruence. }
  split.
  { constructor; simpl; try apply P.
    - intros k b Hk Hb.
      destruct (pool_free_obj _ _ P k b Hk Hb) as (Hobj & HnH & Hncur).
      split; [rewrite Hkeep; assumption |]. split; [exact HnH |].
      intros Hb'. apply Hcur in Hb'. destruct Hb' as [-> | ?].
      + apply (Hna a Hobj). reflexivity.
      + contradiction.
    - intros b Hb. destruct (pool_held_obj _ _ P b Hb) as [Hobj Hncur].
      split; [rewrite Hkeep; assumption |].
      intros Hb'. apply Hcur in Hb'. destruct Hb' as [-> | ?].
      + apply (Hna a Hobj). reflexivity.
      + contradiction.
    - intros c' p. destruct (decide (c' = c)) as [-> | Hne].
      + rewrite lookup_insert_eq. intros E. injection E as <-.
        exists a. rewrite lookup_insert_eq. eauto.
      + rewrite lookup_insert_ne by congruence. intros Hp.
        destruct (pool_cells _ _ P c' p Hp) as (b & -> & Hobj).
        exists b. rewrite Hkeep; auto.
    - intros c1 c2 b.
      destruct (decide (c1 = c)) as [-> | Hne1];
        destruct (decide (c2 = c)) as [-> | Hne2]; [reflexivity | | |].
      + rewrite lookup_insert_eq, lookup_insert_ne by congruence.
        intros E Hb. injection E as <-.
        destruct (pool_cells _ _ P c2 _ Hb) as (b & Eb & Hobj).
        injection Eb as <-. exfalso. apply (Hna a Hobj). reflexivity.
      + rewrite lookup_insert_eq, lookup_insert_ne by congruence.
        intros Hb E. injection E as <-.
        destruct (pool_cells _ _ P c1 _ Hb) as (b & Eb & Hobj).
        injection Eb as <-. exfalso. apply (Hna a Hobj). reflexivity.
      + rewrite !lookup_insert_ne by congruence.
        apply (pool_cells_inj _ _ P). }
  split; [exact Hc |].
  split; [unfold value_of; simpl; rewrite lookup_insert_eq;
          apply lookup_insert_eq |].
  split; [intros c' Hne; simpl; apply lookup_insert_ne; congruence |].
  split; [exact Hkeep |]. simpl. auto 10.
Qed.

(** ** The states in between (C6)

    A call of [read] or [update_weak] that has constructed its guard
    and not yet destroyed it is a frame; a functor may start further
    calls, so the frames form a stack.  A step is the construction or
    destruction of a guard, a write of a functor to its copy, a lost
    CAS on [left], or the construction of an instance. *)
Inductive frame : Type :=
| Updating (this : cell) (a d : addr) (queue_right : Z)
| Reading (queue_right : Z).

Definition held_by (fr : frame) : option addr :=
  match fr with
  | Updating _ a _ _ => Some a
  | Reading _ => None
  end.

Definition held (K : list frame) : list addr := omap held_by K.

Inductive step : list frame * state -> list frame * state -> Prop :=
| step_construct K s v c s' :
    new_cell v s = Done c s' -> step (K, s) (K, s')
| step_read_enter K s :
    step (K, s) (Reading (right s) :: K, register (right s) s)
| step_read_leave K s qr :
    step (Reading qr :: K, s) (K, unregister qr s)
| step_lost K s o :
    can_allocate s -> weak_cas s = true :: o ->
    step (K, s) (K, set_weak_cas o s)
| step_taken K s this a d v :
    can_allocate s -> cas_strong s -> free_at s 0 a ->
    cells s !! this = Some (Some d) -> heap s !! d = Some v ->
    step (K, s) (Updating this a d (right s) :: K, started a v s)
| step_mutate K s this a d qr w :
    step (Updating this a d qr :: K, s)
         (Updating this a d qr :: K, set_heap (<[a := w]> (heap s)) s)
| step_rollback K s this a d qr :
    step (Updating this a d qr :: K, s) (K, finished qr (Some a) s)
| step_publish_lost K s this a d qr o :
    weak_cas s = true :: o ->
    step (Updating this a d qr :: K, s)
         (K, finished qr (Some a) (set_weak_cas o s))
| step_publish_other K s this a d qr :
    cas_strong s -> cells s !! this <> Some (Some d) ->
    step (Updating this a d qr :: K, s)
         (K, finished qr (Some a) (tail_cas s))
| step_publish K s this a d qr :
    cas_strong s -> cells s !! this = Some (Some d) ->
    step (Updating this a d qr :: K, s)
         (K, finished qr (Some d) (published this a (tail_cas s))).

(** Reachable from the state [init_static] leaves. *)
Definition reachable (v0 : T) (oracle : list bool)
    (c : list frame * state) : Prop :=
  exists s0, init_static v0 (zero_state oracle) = Done tt s0
             /\ rtc step ([], s0) c.

Lemma step_pool K s K' s' :
  step (K, s) (K', s') -> pool (held K) s -> pool (held K') s'.
Proof.
  intros Hstep. inversion Hstep; subst; simpl; intros P.
  - eapply pool_new_cell; eassumption.
  - apply pool_register, P.
  - apply pool_unregister, P.
  - apply pool_weak_cas, P.
  - apply pool_started; [exact P | | assumption].
    match goal with Hc : can_allocate _ |- _ => apply Hc end.
  - apply (pool_assign (a :: held K0)); [| exact P].
    apply (pool_held_obj _ _ P). left.
  - apply pool_finished, P.
  - apply pool_finished, pool_weak_cas, P.
  - apply pool_finished, pool_weak_cas, P.
  - apply pool_finished, (pool_publish (held K')); [| assumption].
    apply pool_weak_cas, P.
Qed.

Lemma steps_pool c c' :
  rtc step c c' -> pool (held (fst c)) (snd c) ->
  pool (held (fst c')) (snd c').
Proof.
  induction 1 as [c | [K1 s1] [K2 s2] c3 Hstep _ IH]; [exact id |].
  intros P. apply IH. simpl in *. eapply step_pool; eassumption.
Qed.

Lemma reachable_pool v0 o K s :
  reachable v0 o (K, s) -> pool (held K) s.
Proof.
  intros (s0 & Hinit & Hsteps).
  destruct (init_static_pool v0 o) as (s0' & Hinit' & P0 & _).
  assert (s0' = s0) by congruence. subst s0'.
  apply (steps_pool _ _ Hsteps). exact P0.
Qed.

(** The rule for [read]. *)
Lemma wp_read tm {R} this (fn : ptr -> M R) s p
    (Q : R -> state -> Prop) (E : state -> Prop) :
  cells s !! this = Some p ->
  wp tm (fn p)
    (fun r s2 => Q r (unregister (right s) s2))
    (fun s2 => E (unregister (right s) s2))
    (register (right s) s) ->
  wp tm (read this fn) Q E s.
Proof.
  intros Hp W. unfold wp, read, bind at 1, counter_guard_ctor, bind at 1 2,
    load_right, inc, ret. simpl.
  fold (register (right s) s).
  unfold scope_exit, bind, data_load. simpl. rewrite Hp.
  unfold wp in W.
  destruct (fn p (register (right s) s)) as [r s2 | s2 | |]; auto.
Qed.

(** Every call of [update_weak] is a sequence of steps, when the run
    of its functor is one. *)
Lemma update_weak_steps {L} K this (fn : ptr -> L -> M (bool * L)) (l : L)
    s d v :
  pool (held K) s ->
  cells s !! this = Some (Some d) ->
  heap s !! d = Some v ->
  (forall a, pool (a :: held K) (started a v s) ->
     let fr := Updating this a d (right s) in
     let inside s2 :=
       pool (a :: held K) s2 /\ is_Some (cells s2 !! this)
       /\ rtc step (fr :: K, started a v s) (fr :: K, s2) in
     wp True (fn (Some a) l) (fun _ => inside) inside (started a v s)) ->
  wp True (update_weak this fn l)
    (fun _ s' => rtc step (K, s) (K, s'))
    (fun s' => rtc step (K, s) (K, s')) s.
Proof.
  intros P Hd Hv Hfn.
  apply (wp_update_weak True (held K) this fn l s d v); try assumption.
  - intros _. apply rtc_refl.
  - intros o Hcan Ho. apply rtc_once. apply step_lost; assumption.
  - intros a Hcan Hs Ha P1. specialize (Hfn a P1).
    assert (Hin : rtc step (K, s)
                    (Updating this a d (right s) :: K, started a v s)).
    { apply rtc_once. apply step_taken; assumption. }
    eapply wp_mono; [| | exact Hfn].
    + intros [r l'] s2 (P2 & Hc & Hsteps). split; [exact P2 |].
      destruct r; simpl.
      * split; [exact Hc |]. split; [| split].
        -- intros o Ho. eapply rtc_trans; [exact Hin |].
           eapply rtc_r; [exact Hsteps |].
           apply step_publish_lost. exact Ho.
        -- intros Hs2 Hd2. eapply rtc_trans; [exact Hin |].
           eapply rtc_r; [exact Hsteps |].
           apply step_publish; assumption.
        -- intros Hs2 Hd2. eapply rtc_trans; [exact Hin |].
           eapply rtc_r; [exact Hsteps |].
           apply step_publish_other; assumption.
      * eapply rtc_trans; [exact Hin |].
        eapply rtc_r; [exact Hsteps |]. apply step_rollback.
    + intros s2 (P2 & Hc & Hsteps). split; [exact P2 |].
      eapply rtc_trans; [exact Hin |].
      eapply rtc_r; [exact Hsteps |]. apply step_rollback.
Qed.

Lemma update_weak_mutator_steps K this f s d v :
  pool (held K) s ->
  cells s !! this = Some (Some d) ->
  heap s !! d = Some v ->
  wp True (update_weak this (mutator f) tt)
    (fun _ s' => rtc step (K, s) (K, s'))
    (fun s' => rtc step (K, s) (K, s')) s.
Proof.
  intros P Hd Hv. apply (update_weak_steps K this _ tt s d v); try assumption.
  intros a P1 fr inside.
  destruct (mutator_started (held K) s a v f P1) as [P2 Hm].
  assert (Hin : inside
            (set_heap (<[a := fst (f v)]> (heap (started a v s)))
               (started a v s))).
  { split; [exact P2 |]. split; [simpl; rewrite Hd; eauto |].
    apply rtc_once. apply step_mutate. }
  unfold wp. rewrite Hm. destruct (snd (f v)); exact Hin.
Qed.

(** A reader that does not write: [g] maps the pointer and the state
    to the value returned. *)
Definition reader {R} (g : ptr -> state -> R) : ptr -> M R :=
  fun p s => Done (g p s) s.

Lemma read_steps {R} K this (g : ptr -> state -> R) s :
  is_Some (cells s !! this) ->
  wp True (read this (reader g))
    (fun _ s' => rtc step (K, s) (K, s')) (fun _ => False) s.
Proof.
  intros [p Hp]. apply (wp_read True this (reader g) s p); [exact Hp |].
  unfold wp, reader.
  eapply rtc_l; [apply step_read_enter |].
  apply rtc_once. apply step_read_leave.
Qed.

(** C6, as the code has it: in every reachable state the distance from
    [left] to [right], modulo [2^32], is [N0] less the number of calls
    of [update_weak] that hold an element; it lies between [0] and
    [N0], below [array_size = 2 * N0], and is [N0] when no such call
    is under way. *)
Theorem C6_queue_indices v0 oracle K s :
  reachable v0 oracle (K, s) ->
  wrap (right s - left s) = N0 - Z.of_nat (length (held K))
  /\ 0 <= wrap (right s - left s) <= N0
  /\ N0 <= array_size
  /\ (held K = [] -> wrap (right s - left s) = N0).
Proof.
  intros Hr. pose proof (reachable_pool v0 oracle K s Hr) as P.
  pose proof (pool_size _ _ P) as Hsz. pose proof (pool_bound _ _ P) as Hb.
  pose proof N0_pos as HN.
  split; [exact Hsz |]. split; [lia |]. split; [unfold array_size; lia |].
  intros E. rewrite Hsz, E. simpl. lia.
Qed.

(** Static initialization followed by the construction of one instance
    that holds [v]. *)
Definition boot (v0 : T) (oracle : list bool) (v : T) : outcome cell :=
  bind (init_static v0) (fun _ => new_cell v) (zero_state oracle).

Lemma boot_pool v0 o v :
  exists c s, boot v0 o v = Done c s
              /\ pool [] s /\ value_of s c = Some v
              /\ left s = 0 /\ right s = N0 /\ counters s = (0, 0)
              /\ weak_cas s = o.
Proof.
  destruct (init_static_pool v0 o)
    as (s0 & Hinit & P0 & Hl & Hr & Hc & _ & Ho).
  destruct (new_cell v s0) as [c s | | |] eqn:Hnew;
    try (rewrite new_cell_eq in Hnew; discriminate Hnew).
  destruct (pool_new_cell [] s0 v c s P0 Hnew)
    as (P & _ & Hv & _ & _ & _ & Hl' & Hr' & Hc' & Ho').
  exists c, s. unfold boot, bind. rewrite Hinit.
  split; [exact Hnew |]. split; [exact P |]. split; [exact Hv |].
  repeat split; congruence.
Qed.

(** ** The own steps of [read] (C5)

    The constructor of the guard, [data.load()], the functor, the
    destructor of the guard. *)
Inductive read_pc (R : Type) : Type :=
| RCall
| RRegistered (queue_right : Z)
| RLoaded (queue_right : Z) (p : ptr)
| RApplied (queue_right : Z) (r : R)
| RReturn (r : R)
| RUndef.
Arguments RCall {R}.
Arguments RRegistered {R} queue_right.
Arguments RLoaded {R} queue_right p.
Arguments RApplied {R} queue_right r.
Arguments RReturn {R} r.
Arguments RUndef {R}.

Definition read_own {R} (this : cell) (g : ptr -> state -> R)
    (pc : read_pc R) (s : state) : read_pc R * state :=
  match pc with
  | RCall => (RRegistered (right s), register (right s) s)
  | RRegistered qr =>
      match cells s !! this with
      | Some p => (RLoaded qr p, s)
      | None => (RUndef, s)
      end
  | RLoaded qr p => (RApplied qr (g p s), s)
  | RApplied qr r => (RReturn r, unregister qr s)
  | RReturn r => (RReturn r, s)
  | RUndef => (RUndef, s)
  end.

Definition read_returned {R} (pc : read_pc R) : bool :=
  match pc with
  | RReturn _ => true
  | _ => false
  end.

(** No thread destroys the instance [this] under the call. *)
Definition instance_alive (this : cell) (s : state) : Prop :=
  is_Some (cells s !! this).

(** Left alone, the four own steps are the call. *)
Lemma read_own_read {R} this (g : ptr -> state -> R) s :
  instance_alive this s ->
  exists r s',
    read this (reader g) s = Done r s'
    /\ run (read_own this g) (fun _ s => s) 4 RCall s = (RReturn r, s').
Proof.
  intros [p Hp].
  exists (g p (register (right s) s)),
         (unregister (right s) (register (right s) s)).
  split.
  - unfold read, bind at 1, counter_guard_ctor, bind at 1 2, load_right,
      inc, ret. simpl. unfold scope_exit, bind, data_load. simpl.
    rewrite Hp. reflexivity.
  - simpl. rewrite Hp. reflexivity.
Qed.

(** C5 for the cell with the two usage counters: whatever the other
    threads do between its steps, [read] returns after four steps of
    its own: register with the usage counter, load [data], apply the
    functor, unregister.  None of the steps looks at [left], [right]
    against each other or at the counters: the barrier cannot hold up
    a reader. *)
Theorem C5_read_wait_free {R} (this : cell) (g : ptr -> state -> R) :
  wait_free (read_own this g) read_returned RCall (instance_alive this)
  /\ (forall (others : nat -> state -> state) s,
        (forall i s', instance_alive this s' ->
                      instance_alive this (others i s')) ->
        instance_alive this s ->
        exists r s', run (read_own this g) others 4 RCall s = (RReturn r, s')).
Proof.
  assert (H4 : forall (others : nat -> state -> state) s,
    (forall i s', instance_alive this s' ->
                  instance_alive this (others i s')) ->
    instance_alive this s ->
    exists r s', run (read_own this g) others 4 RCall s = (RReturn r, s')).
  { intros others s Hothers Halive. simpl.
    assert (Hp : instance_alive this
                   (others 1%nat
                      (register (right (others 0%nat s)) (others 0%nat s)))).
    { apply Hothers. unfold instance_alive, register. simpl.
      apply Hothers. exact Halive. }
    destruct Hp as [p Hp]. rewrite Hp. eauto. }
  split; [| exact H4].
  exists 4%nat. intros others s Hothers Halive.
  destruct (H4 others s Hothers Halive) as (r & s' & Hrun).
  rewrite Hrun. reflexivity.
Qed.

(** ** Functors that only work on their copy

    [fn] behaves as [g]: on a copy that holds [n], with the captured
    variables [l], it leaves [fst (fst (g n l))] in the copy, returns
    [snd (fst (g n l))] and leaves [snd (g n l)] in the captured
    variables. *)
Definition behaves {L} (fn : ptr -> L -> M (bool * L))
    (g : T -> L -> T * bool * L) : Prop :=
  forall a l s n,
    heap s !! a = Some n ->
    fn (Some a) l s
    = Done (snd (fst (g n l)), snd (g n l))
        (set_heap (<[a := fst (fst (g n l))]> (heap s)) s).

Lemma set_heap_id s a n :
  heap s !! a = Some n -> set_heap (<[a := n]> (heap s)) s = s.
Proof.
  intros Hn. unfold set_heap. rewrite (insert_id _ _ _ Hn).
  destruct s; reflexivity.
Qed.

Lemma value_of_published this a s c :
  value_of (published this a s) c
  = if decide (c = this) then heap s !! a else value_of s c.
Proof.
  unfold value_of, published. simpl.
  destruct (decide (c = this)) as [-> | Hne].
  - rewrite lookup_insert_eq. reflexivity.
  - rewrite lookup_insert_ne by congruence. reflexivity.
Qed.

Lemma value_of_started H s a v c :
  pool H s -> left s <> right s -> free_at s 0 a ->
  value_of (started a v s) c = value_of s c.
Proof.
  intros P Hne Ha.
  destruct (pool_free_head H s a P Hne Ha) as (_ & _ & Hnc).
  apply value_of_frame; [reflexivity |]. intros b Hb. simpl.
  apply lookup_insert_ne. intros ->. contradiction.
Qed.

Lemma value_of_cell s c n :
  value_of s c = Some n ->
  exists d, cells s !! c = Some (Some d) /\ heap s !! d = Some n.
Proof.
  unfold value_of. destruct (cells s !! c) as [[d |] |]; try discriminate.
  eauto.
Qed.

Lemma unregister_register s qr :
  counters_ok s -> unregister qr (register qr s) = s.
Proof.
  intros Hc. unfold unregister, register, set_counters. simpl.
  rewrite counter_upd_inc_dec by exact Hc. destruct s; reflexivity.
Qed.

(** Nothing is under way: every element is in the queue and both
    counters read zero. *)
Definition quiescent (s : state) : Prop :=
  pool [] s /\ counters s = (0, 0).

Lemma quiescent_can_allocate s : quiescent s -> can_allocate s.
Proof.
  intros [P Hc]. pose proof N0_pos as HN.
  pose proof (pool_size _ _ P) as Hsz. simpl in Hsz.
  rewrite Z.sub_0_r in Hsz. split.
  - intros E. rewrite E, Z.sub_diag in Hsz. unfold wrap in Hsz.
    rewrite Z.mod_0_l in Hsz by (unfold uint_mod; lia). lia.
  - right. split.
    + unfold queue_size. lia.
    + rewrite Hc. unfold counter_at. destruct (_ =? _); reflexivity.
Qed.

(** What [update_weak] with such a functor does. *)
Definition local_post {L} (H : list addr) (this : cell)
    (g : T -> L -> T * bool * L) (l : L) (n : T) (s : state)
    (rl : bool * L) (s' : state) : Prop :=
  pool H s'
  /\ counters s' = counters s
  /\ (forall c, c <> this -> value_of s' c = value_of s c)
  /\ (forall c, cells s' !! c = None <-> cells s !! c = None)
  /\ (forall b, b ∈ H -> heap s' !! b = heap s !! b)
  /\ (forall b m, heap s' !! b = Some m ->
        heap s !! b = Some m \/ m = n \/ m = fst (fst (g n l)))
  /\ (length (weak_cas s') <= length (weak_cas s))%nat
  /\ (forall c, c <> this -> cells s' !! c = cells s !! c)
  /\ if fst rl then
       value_of s' this = Some (fst (fst (g n l)))
       /\ snd (fst (g n l)) = true /\ snd rl = snd (g n l)
       /\ cells s' !! this <> cells s !! this
     else
       value_of s' this = Some n
       /\ (snd rl = l \/ snd rl = snd (g n l))
       /\ (~ can_allocate s
           \/ (length (weak_cas s') < length (weak_cas s))%nat
           \/ snd (fst (g n l)) = false)
       /\ cells s' = cells s.

Lemma length_tail_cas s :
  (length (weak_cas (tail_cas s)) <= length (weak_cas s))%nat.
Proof. unfold tail_cas. simpl. destruct (weak_cas s); simpl; lia. Qed.

Lemma update_weak_local {L} tm H this (fn : ptr -> L -> M (bool * L))
    (g : T -> L -> T * bool * L) (l : L) s n :
  behaves fn g -> pool H s -> value_of s this = Some n ->
  wp tm (update_weak this fn l) (local_post H this g l n s)
    (fun _ => False) s.
Proof.
  intros Hfn P Hn. destruct (value_of_cell s this n Hn) as (d & Hd & Hv).
  assert (Hnone : forall s', cells s' = cells s ->
            forall c, cells s' !! c = None <-> cells s !! c = None).
  { intros s' -> c. tauto. }
  apply (wp_update_weak tm H this fn l s d n); try assumption.
  - intros Hcl. unfold local_post. simpl.
    split; [exact P |]. split; [reflexivity |].
    split; [reflexivity |]. split; [tauto |]. split; [reflexivity |].
    split; [auto |]. split; [lia |]. split; [reflexivity |].
    split; [exact Hn |]. auto.
  - intros o Hcan Ho. unfold local_post. simpl. rewrite Ho. simpl.
    split; [apply pool_weak_cas, P |]. split; [reflexivity |].
    split; [reflexivity |]. split; [tauto |]. split; [reflexivity |].
    split; [auto |]. split; [lia |]. split; [reflexivity |].
    split; [exact Hn |].
    split; [auto |]. split; [| reflexivity]. right. left. lia.
  - intros a Hcan Hs Ha P1.
    destruct (pool_free_head H s a P (proj1 Hcan) Ha) as (Haobj & HaH & Hnc).
    assert (Had : a <> d) by (intros ->; apply Hnc; exists this; exact Hd).
    set (n' := fst (fst (g n l))).
    set (s2 := set_heap (<[a := n']> (heap (started a n s))) (started a n s)).
    assert (Hrun : fn (Some a) l (started a n s)
                   = Done (snd (fst (g n l)), snd (g n l)) s2).
    { apply Hfn. simpl. apply lookup_insert_eq. }
    assert (P2 : pool (a :: H) s2).
    { apply pool_assign; [| exact P1]. simpl. rewrite lookup_insert_eq.
      eauto. }
    assert (Hheap : forall b m, heap s2 !! b = Some m ->
              heap s !! b = Some m \/ m = n \/ m = n').
    { intros b m. unfold s2. simpl.
      destruct (decide (a = b)) as [-> | Hab].
      - rewrite lookup_insert_eq. intros E. injection E as <-. auto.
      - rewrite !lookup_insert_ne by exact Hab. auto. }
    assert (HheldH : forall b, b ∈ H -> heap s2 !! b = heap s !! b).
    { intros b Hb. unfold s2. simpl.
      rewrite !lookup_insert_ne; [reflexivity | |]; intros ->; contradiction. }
    assert (Hview : forall c, value_of s2 c = value_of s c).
    { apply value_of_frame; [reflexivity |]. intros b Hb. unfold s2. simpl.
      rewrite !lookup_insert_ne; [reflexivity | |]; intros ->; contradiction. }
    assert (Hlen : (length (weak_cas s2) <= length (weak_cas s))%nat).
    { apply (length_tail_cas s). }
    assert (Hcnt : forall p s3, counters s3 = counters s2 ->
              counters (finished (right s) p s3) = counters s).
    { intros p s3 E. unfold finished, unregister. simpl. rewrite E.
      unfold s2. simpl. apply counter_upd_inc_dec, (pool_counters _ _ P). }
    unfold wp. rewrite Hrun.
    split; [exact P2 |].
    assert (Hfail : forall (l' : L) s3,
      cells s3 = cells s2 -> heap s3 = heap s2 ->
      counters s3 = counters s2 -> pool (a :: H) s3 ->
      (length (weak_cas s3) <= length (weak_cas s))%nat ->
      (l' = l \/ l' = snd (g n l)) ->
      (~ can_allocate s
       \/ (length (weak_cas s3) < length (weak_cas s))%nat
       \/ snd (fst (g n l)) = false) ->
      local_post H this g l n s (false, l')
        (finished (right s) (Some a) s3)).
    { intros l' s3 Ec Eh En P3 Hl3 Hl' Hwhy. unfold local_post.
      split; [apply pool_finished, P3 |].
      split; [apply Hcnt, En |].
      assert (Hv3 : forall c,
                value_of (finished (right s) (Some a) s3) c = value_of s c).
      { intros c. rewrite <- Hview. unfold value_of. simpl.
        rewrite Ec, Eh. reflexivity. }
      split; [intros c _; apply Hv3 |].
      split; [apply Hnone; simpl; rewrite Ec; reflexivity |].
      split; [intros b Hb; simpl; rewrite Eh; apply HheldH, Hb |].
      split; [intros b m; simpl; rewrite Eh; apply Hheap |].
      split; [exact Hl3 |].
      split; [intros c _; simpl; rewrite Ec; reflexivity |]. simpl.
      split; [rewrite Hv3; exact Hn |]. split; [exact Hl' |].
      split; [exact Hwhy | exact Ec]. }
    destruct (snd (fst (g n l))) eqn:Er; simpl.
    + split; [simpl; rewrite Hd; eauto |]. split; [| split].
      * intros o Ho.
        pose proof (f_equal (@length bool) Ho) as Hlo.
        unfold s2 in Hlo, Hlen. simpl in Hlo, Hlen.
        apply (Hfail _ (set_weak_cas o s2)); auto.
        -- apply pool_weak_cas, P2.
        -- simpl. lia.
        -- right. left. simpl. lia.
      * intros Hs2 Hd2. unfold local_post.
        split; [apply pool_finished, pool_publish;
                [apply pool_weak_cas, P2 | exact Hd2] |].
        split; [apply Hcnt; reflexivity |].
        split.
        { intros c Hc. unfold value_of. simpl.
          rewrite lookup_insert_ne by congruence.
          apply (Hview c). }
        split.
        { intros c. simpl. destruct (decide (c = this)) as [-> | Hc].
          - rewrite lookup_insert_eq, Hd. split; discriminate.
          - rewrite lookup_insert_ne by congruence. tauto. }
        split; [intros b Hb; apply HheldH, Hb |].
        split; [exact Hheap |].
        split; [pose proof (length_tail_cas s2); simpl in *; lia |].
        split; [intros c Hc; simpl; apply lookup_insert_ne; congruence |].
        simpl.
        split; [unfold value_of; simpl; rewrite lookup_insert_eq;
                apply lookup_insert_eq |].
        split; [exact Er |]. split; [reflexivity |].
        rewrite lookup_insert_eq, Hd. congruence.
      * intros Hs2 Hd2. exfalso. apply Hd2. simpl. exact Hd.
    + rewrite <- (set_weak_cas_id s2). apply Hfail; auto.
Qed.

(** What [update] with an accepting functor of that kind does. *)
Definition strong_post (H : list addr) (this : cell) (n n' : T)
    (s s' : state) : Prop :=
  pool H s'
  /\ counters s' = counters s
  /\ (forall c, c <> this -> value_of s' c = value_of s c)
  /\ (forall c, cells s' !! c = None <-> cells s !! c = None)
  /\ (forall b, b ∈ H -> heap s' !! b = heap s !! b)
  /\ (forall b m, heap s' !! b = Some m ->
        heap s !! b = Some m \/ m = n \/ m = n')
  /\ (length (weak_cas s') <= length (weak_cas s))%nat
  /\ value_of s' this = Some n'.

(** A failed attempt in a quiescent state has used up part of the
    oracle. *)
Lemma local_post_progress {L} this (g : T -> L -> T * bool * L) l n s l' s1 :
  quiescent s -> snd (fst (g n l)) = true ->
  local_post [] this g l n s (false, l') s1 ->
  (length (weak_cas s1) < length (weak_cas s))%nat.
Proof.
  intros Hq Hacc (_ & _ & _ & _ & _ & _ & _ & _ & Hr). simpl in Hr.
  destruct Hr as (_ & _ & [Hcl | [Hlt | Hveto]] & _).
  - exfalso. apply Hcl, quiescent_can_allocate, Hq.
  - exact Hlt.
  - rewrite Hacc in Hveto. discriminate Hveto.
Qed.

Lemma strong_post_step {L} H this (g : T -> L -> T * bool * L) l n
    s (l' : L) s1 s' :
  local_post H this g l n s (false, l') s1 ->
  strong_post H this n (fst (fst (g n l))) s1 s' ->
  strong_post H this n (fst (fst (g n l))) s s'.
Proof.
  intros (P1 & Hc1 & Hv1 & Hn1 & Hh1 & Hm1 & Hl1 & _ & _)
         (P' & Hc' & Hv' & Hn' & Hh' & Hm' & Hl' & Hr').
  unfold strong_post. split; [exact P' |]. split; [congruence |].
  split; [intros c Hc; rewrite Hv', Hv1 by exact Hc; reflexivity |].
  split; [intros c; rewrite Hn', Hn1; tauto |].
  split; [intros b Hb; rewrite Hh', Hh1 by exact Hb; reflexivity |].
  split; [| split; [lia | exact Hr']].
  intros b m Hm. destruct (Hm' b m Hm) as [Hold | Hnew]; [| auto].
  apply Hm1. exact Hold.
Qed.

Lemma update_local tm fuel H this (fn : ptr -> unit -> M (bool * unit))
    (g : T -> unit -> T * bool * unit) :
  behaves fn g ->
  (forall m, snd (fst (g m tt)) = true) ->
  forall s n,
    pool H s -> value_of s this = Some n ->
    tm \/ (H = [] /\ counters s = (0, 0)
           /\ (length (weak_cas s) <= fuel)%nat) ->
    wp tm (update fuel this fn tt)
      (fun _ s' => strong_post H this n (fst (fst (g n tt))) s s')
      (fun _ => False) s.
Proof.
  intros Hfn Hacc. induction fuel as [| fuel IH]; intros s n P Hn Htm.
  - simpl update. apply wp_bind.
    eapply wp_mono;
      [| | apply (update_weak_local tm H this fn g tt s n Hfn P Hn)];
      [| intros ? []].
    intros [r []] s1 Hpost. destruct r.
    + apply wp_ret.
      destruct Hpost as (P1 & Hc1 & Hv1 & Hn1 & Hh1 & Hm1 & Hl1 & _ & Hr).
      simpl in Hr. destruct Hr as (Hv & _ & _ & _).
      unfold strong_post. auto 10.
    + unfold wp, timeout.
      destruct Htm as [Ht | (-> & Hc0 & Hlen)]; [exact Ht |].
      exfalso.
      pose proof (local_post_progress this g tt n s tt s1
                    (conj P Hc0) (Hacc n) Hpost).
      lia.
  - simpl update. apply wp_bind.
    eapply wp_mono;
      [| | apply (update_weak_local tm H this fn g tt s n Hfn P Hn)];
      [| intros ? []].
    intros [r []] s1 Hpost. destruct r.
    + apply wp_ret.
      destruct Hpost as (P1 & Hc1 & Hv1 & Hn1 & Hh1 & Hm1 & Hl1 & _ & Hr).
      simpl in Hr. destruct Hr as (Hv & _ & _ & _).
      unfold strong_post. auto 10.
    + pose proof Hpost as (P1 & Hc1 & _ & _ & _ & _ & _ & _ & Hr).
      simpl in Hr. destruct Hr as (Hv1 & _ & _ & _).
      eapply wp_mono; [| | apply (IH s1 n P1 Hv1)].
      * intros [] s' Hs'. eapply strong_post_step; eassumption.
      * intros ? [].
      * destruct Htm as [Ht | (-> & Hc0 & Hlen)]; [left; exact Ht |].
        right. split; [reflexivity |]. split; [congruence |].
        pose proof (local_post_progress this g tt n s tt s1
                      (conj P Hc0) (Hacc n) Hpost).
        lia.
Qed.

(** ** Further properties of the cell *)

(** A mutator that does not throw is a functor that only works on its
    copy. *)
Definition mutator_as (f : T -> T * verdict) (n : T) (_ : unit)
  : T * bool * unit :=
  (fst (f n), match snd (f n) with Accept => true | _ => false end, tt).

Lemma mutator_behaves f :
  (forall m, snd (f m) <> Throws) -> behaves (mutator f) (mutator_as f).
Proof.
  intros Hf a [] s n Hn. unfold mutator, bind at 1, deref. rewrite Hn.
  unfold bind at 1, assign. rewrite Hn. unfold mutator_as. simpl.
  specialize (Hf n). destruct (snd (f n)); try reflexivity. contradiction.
Qed.

(** The strong update with an accepting mutator. *)
Lemma update_accepting (fuel : nat) s this f v :
  quiescent s ->
  value_of s this = Some v ->
  (forall m, snd (f m) = Accept) ->
  (length (weak_cas s) <= fuel)%nat ->
  exists s',
    update fuel this (mutator f) tt s = Done tt s'
    /\ value_of s' this = Some (fst (f v))
    /\ (forall c, c <> this -> value_of s' c = value_of s c)
    /\ (forall c, is_Some (cells s' !! c) <-> is_Some (cells s !! c))
    /\ (length (weak_cas s') <= length (weak_cas s))%nat
    /\ quiescent s'.
Proof.
  intros [P Hc] Hv Hf Hlen.
  assert (Hb : behaves (mutator f) (mutator_as f)).
  { apply mutator_behaves. intros m. rewrite Hf. discriminate. }
  assert (Hacc : forall m, snd (fst (mutator_as f m tt)) = true).
  { intros m. unfold mutator_as. simpl. rewrite Hf. reflexivity. }
  pose proof (update_local False fuel [] this (mutator f) (mutator_as f)
                Hb Hacc s v P Hv
                (or_intror (conj eq_refl (conj Hc Hlen)))) as W.
  destruct (wp_total _ _ _ _ W) as [([] & s' & Hrun & Hpost) | (? & _ & [])].
  destruct Hpost as (P' & Hc' & Hv' & Hn' & _ & _ & Hl' & Hthis).
  exists s'. split; [exact Hrun |]. split; [exact Hthis |].
  split; [exact Hv' |]. split.
  { intros c. rewrite <- !not_eq_None_Some. rewrite (Hn' c). tauto. }
  split; [exact Hl' |]. split; [exact P' | congruence].
Qed.

(** X1: in a state with nothing under way, [update] with a functor
    that always accepts returns once the fuel covers the spurious
    failures left in the oracle; the instance then publishes the result
    of the functor on the value that was current, every other instance
    publishes what it did, and again nothing is under way. *)
Theorem X1_update_publishes (fuel : nat) s this f v :
  quiescent s ->
  value_of s this = Some v ->
  (forall m, snd (f m) = Accept) ->
  (length (weak_cas s) <= fuel)%nat ->
  exists s',
    update fuel this (mutator f) tt s = Done tt s'
    /\ value_of s' this = Some (fst (f v))
    /\ (forall c, c <> this -> value_of s' c = value_of s c)
    /\ quiescent s'.
Proof.
  intros Hq Hv Hf Hlen.
  destruct (update_accepting fuel s this f v Hq Hv Hf Hlen)
    as (s' & Hrun & Hthis & Hother & _ & _ & Hq').
  exists s'. auto.
Qed.

(** X2: [update] with a functor that always returns [false] never
    returns: whatever the fuel, the loop is still running when it is
    used up, and no attempt publishes anything. *)
Theorem X2_update_veto_spins (fuel : nat) H s this f v :
  pool H s ->
  value_of s this = Some v ->
  (forall m, snd (f m) = Veto) ->
  update fuel this (mutator f) tt s = Timeout.
Proof.
  intros P Hv Hf.
  assert (Hb : behaves (mutator f) (mutator_as f)).
  { apply mutator_behaves. intros m. rewrite Hf. discriminate. }
  revert s P Hv. induction fuel as [| fuel IH]; intros s P Hv;
    pose proof (update_weak_local False H this (mutator f) (mutator_as f)
                  tt s v Hb P Hv) as W;
    simpl update; unfold bind; unfold wp in W;
    destruct (update_weak this (mutator f) tt s) as [[r []] s1 | | |];
    try contradiction;
    destruct W as (P1 & _ & _ & _ & _ & _ & _ & _ & Hr);
    destruct r; simpl in Hr.
  - destruct Hr as (_ & Hacc & _). unfold mutator_as in Hacc. simpl in Hacc.
    rewrite Hf in Hacc. discriminate Hacc.
  - reflexivity.
  - destruct Hr as (_ & Hacc & _). unfold mutator_as in Hacc. simpl in Hacc.
    rewrite Hf in Hacc. discriminate Hacc.
  - destruct Hr as (Hv1 & _). apply IH; assumption.
Qed.

(** A functor for [read] that looks at the object only: it returns
    [r] when [h] gives [Some r] and throws when [h] gives [None]. *)
Definition observer {R} (h : T -> option R) : ptr -> M R :=
  fun p =>
    bind (deref p) (fun v =>
    match h v with
    | Some r => ret r
    | None => throw
    end).

(** [read] with such a functor. *)
Lemma read_observer {R} s this v (h : T -> option R) :
  counters_ok s ->
  value_of s this = Some v ->
  read this (observer h) s
  = match h v with
    | Some r => Done r s
    | None => Raised s
    end.
Proof.
  intros Hc Hv. destruct (value_of_cell s this v Hv) as (d & Hd & Hh).
  unfold read, bind at 1, counter_guard_ctor, bind at 1 2, load_right, inc,
    ret. simpl. fold (register (right s) s).
  unfold scope_exit, bind at 1, data_load. simpl. rewrite Hd.
  unfold observer, bind, deref. simpl. rewrite Hh.
  unfold counter_guard_dtor, dec. fold (unregister (right s)).
  destruct (h v) as [r |]; unfold ret, throw;
    fold (unregister (right s) (register (right s) s));
    rewrite (unregister_register s (right s) Hc); reflexivity.
Qed.

(** X3: [read] hands the functor the object that is current and
    returns what the functor returns; the usage counter is back at its
    value, so that the whole state is as before the call, also when the
    functor throws, and the exception reaches the caller. *)
Theorem X3_read_restores {R} s this v (h : T -> option R) :
  counters_ok s ->
  value_of s this = Some v ->
  read this (observer h) s
  = match h v with
    | Some r => Done r s
    | None => Raised s
    end.
Proof. apply read_observer. Qed.

Lemma value_of_ext s s' c :
  cells s' !! c = cells s !! c ->
  (forall b, cells s !! c = Some (Some b) -> heap s' !! b = heap s !! b) ->
  value_of s' c = value_of s c.
Proof.
  intros Hc Hh. unfold value_of. rewrite Hc.
  destruct (cells s !! c) as [[b |] |]; auto.
Qed.

(** X4: the instances share one queue, and still a call of
    [update_weak] on one of them, however it ends, leaves the pointer
    and the value of every other instance as they were. *)
Theorem X4_update_weak_other_instances H s this f v :
  pool H s ->
  value_of s this = Some v ->
  match update_weak this (mutator f) tt s with
  | Done _ s' | Raised s' =>
      forall c, c <> this ->
        cells s' !! c = cells s !! c /\ value_of s' c = value_of s c
  | Undef | Timeout => False
  end.
Proof.
  intros P Hv. destruct (value_of_cell s this v Hv) as (d & Hd & Hh).
  pose (Q := fun (s' : state) =>
    forall c, c <> this ->
      cells s' !! c = cells s !! c /\ value_of s' c = value_of s c).
  assert (W : wp False (update_weak this (mutator f) tt) (fun _ => Q) Q s).
  { apply (wp_update_weak False H this (mutator f) tt s d v); try assumption.
    - intros _ c _. split; reflexivity.
    - intros o _ _ c _. split; reflexivity.
    - intros a Hcan Hs Ha P1.
      destruct (pool_free_head H s a P (proj1 Hcan) Ha) as (_ & _ & Hnc).
      destruct (mutator_started H s a v f P1) as [P2 Hm].
      assert (Hkeep : forall s2 c,
        (c <> this -> cells s2 !! c = cells s !! c) ->
        (forall b, b <> a -> heap s2 !! b = heap s !! b) ->
        c <> this ->
        cells s2 !! c = cells s !! c /\ value_of s2 c = value_of s c).
      { intros s2 c Hc2 Hh2 Hne. split; [auto |].
        apply value_of_ext; [auto |]. intros b Hb. apply Hh2.
        intros ->. apply Hnc. exists c. exact Hb. }
      assert (Hheap : forall b, b <> a ->
        <[a := fst (f v)]> (<[a := v]> (heap s)) !! b = heap s !! b).
      { intros b Hb. rewrite !lookup_insert_ne by congruence. reflexivity. }
      unfold wp. rewrite Hm.
      destruct (snd (f v)); simpl.
      + split; [exact P2 |]. split; [simpl; rewrite Hd; eauto |].
        split; [| split].
        * intros o _ c. apply Hkeep; simpl; auto.
        * intros _ _ c Hne. apply Hkeep; simpl; auto.
          intros _. apply lookup_insert_ne. congruence.
        * intros _ _ c. apply Hkeep; simpl; auto.
      + split; [exact P2 |]. intros c. apply Hkeep; simpl; auto.
      + split; [exact P2 |]. intros c. apply Hkeep; simpl; auto. }
  unfold wp in W.
  destruct (update_weak this (mutator f) tt s); try exact W; contradiction.
Qed.

(** ** Copying and moving *)

(** The copy constructor is the construction of a new instance from
    the value the other one publishes. *)
Lemma copy_construct_eq s r v :
  counters_ok s -> value_of s r = Some v ->
  copy_construct r s = new_cell v s.
Proof.
  intros Hc Hv. destruct (value_of_cell s r v Hv) as (d & Hd & Hh).
  unfold copy_construct, bind at 1, read, bind at 1, counter_guard_ctor,
    bind at 1 2, load_right, inc, ret. simpl. fold (register (right s) s).
  unfold scope_exit, bind at 1, data_load. simpl. rewrite Hd.
  unfold clone, bind at 1, deref. simpl. rewrite Hh.
  unfold new_object, counter_guard_dtor, dec. simpl.
  rewrite counter_upd_inc_dec by exact Hc.
  rewrite new_cell_eq. unfold construct. simpl. destruct s; reflexivity.
Qed.

(** X5: the copy constructor gives a new instance with an object of
    its own that holds the value the source publishes; the source, every
    other instance and the queue are as before. *)
Theorem X5_copy_construct H s r v :
  pool H s ->
  value_of s r = Some v ->
  exists this s',
    copy_construct r s = Done this s'
    /\ cells s !! this = None
    /\ value_of s' this = Some v
    /\ cells s' !! this <> cells s' !! r
    /\ (forall c, c <> this ->
          cells s' !! c = cells s !! c /\ value_of s' c = value_of s c)
    /\ queue s' = queue s /\ left s' = left s /\ right s' = right s
    /\ counters s' = counters s
    /\ pool H s'.
Proof.
  intros P Hv. pose proof (pool_counters _ _ P) as Hc.
  rewrite (copy_construct_eq s r v Hc Hv).
  destruct (new_cell v s) as [this s' | | |] eqn:Hnew;
    try (rewrite new_cell_eq in Hnew; discriminate Hnew).
  destruct (pool_new_cell H s v this s' P Hnew)
    as (P' & Hfresh & Hthis & Hcells & Hheap & Hq & Hl & Hr & Hcnt & _).
  destruct (value_of_cell s r v Hv) as (d & Hd & Hh).
  assert (Hne : r <> this) by (intros ->; congruence).
  exists this, s'. split; [reflexivity |]. split; [exact Hfresh |].
  split; [exact Hthis |]. split.
  { destruct (value_of_cell s' this v Hthis) as (a & Ha & _).
    rewrite Ha, (Hcells r Hne), Hd. intros E. injection E as ->.
    apply Hne. symmetry. apply (pool_cells_inj _ _ P' this r d).
    - exact Ha.
    - rewrite (Hcells r Hne). exact Hd. }
  split.
  { intros c Hcne. split; [apply Hcells, Hcne |].
    apply value_of_ext; [apply Hcells, Hcne |].
    intros b Hb. apply Hheap.
    destruct (pool_cells _ _ P c _ Hb) as (b' & E & Hobj).
    injection E as ->. exact Hobj. }
  auto 10.
Qed.

(** X6: the move constructor hands the object of the source to the new
    instance and leaves [nullptr] in the source, without touching the
    objects.  On the source, the destructor then deletes nothing, a
    [read] whose functor looks at the object is undefined, and so is
    every [update_weak] that gets an element from the queue. *)
Theorem X6_move_construct s r p :
  cells s !! r = Some p ->
  exists this s',
    move_construct r s = Done this s'
    /\ cells s !! this = None
    /\ cells s' !! this = Some p
    /\ cells s' !! r = Some None
    /\ heap s' = heap s
    /\ value_of s' this = value_of s r
    /\ destroy r s' = Done tt s'
    /\ (forall R (h : T -> option R), read r (observer h) s' = Undef)
    /\ (forall L (fn : ptr -> L -> M (bool * L)) l,
          counters_ok s -> can_allocate s -> cas_strong s ->
          is_Some (queue s !! Z.to_nat (left s mod array_size)) ->
          update_weak r fn l s' = Undef).
Proof.
  intros Hr. set (this := fresh (dom (cells s))).
  assert (Hfresh : cells s !! this = None) by apply not_elem_of_dom, is_fresh.
  assert (Hne : r <> this) by (intros E; rewrite E in Hr; congruence).
  set (s' := set_cells (<[r := None]> (<[this := p]> (cells s))) s).
  assert (Hrun : move_construct r s = Done this s').
  { unfold move_construct, bind at 1, data_load. rewrite Hr.
    unfold bind at 1, construct. fold this.
    unfold bind, data_store. simpl.
    rewrite lookup_insert_ne by congruence. rewrite Hr. reflexivity. }
  assert (Hr' : cells s' !! r = Some None) by (simpl; apply lookup_insert_eq).
  exists this, s'. split; [exact Hrun |]. split; [exact Hfresh |].
  split.
  { simpl. rewrite lookup_insert_ne by congruence. apply lookup_insert_eq. }
  split; [exact Hr' |]. split; [reflexivity |]. split.
  { unfold value_of. simpl. rewrite lookup_insert_ne by congruence.
    rewrite lookup_insert_eq, Hr. reflexivity. }
  split.
  { unfold destroy, bind, data_load. rewrite Hr'. reflexivity. }
  split.
  { intros R h. unfold read, bind at 1, counter_guard_ctor, bind at 1 2,
      load_right, inc, ret. simpl.
    unfold scope_exit, bind at 1, data_load. simpl.
    rewrite lookup_insert_eq. reflexivity. }
  intros L fn l Hc Hcan Hs [q Hq].
  unfold update_weak, bind at 1.
  rewrite (try_allocate_taken s' q Hc Hcan Hs Hq).
  unfold bind at 1, data_load. simpl. rewrite lookup_insert_eq.
  unfold bind at 1, deallocate_guard_ctor, bind at 1, counter_guard_ctor,
    bind at 1 2, load_right, inc, ret. simpl.
  reflexivity.
Qed.

(** The copy read from [r], as the body of the copy assignment gets
    it. *)
Lemma read_clone_eq s r v :
  counters_ok s -> value_of s r = Some v ->
  read r clone s
  = Done (Some (fresh (dom (heap s))))
      (set_heap (<[fresh (dom (heap s)) := v]> (heap s)) s).
Proof.
  intros Hc Hv. destruct (value_of_cell s r v Hv) as (d & Hd & Hh).
  unfold read, bind at 1, counter_guard_ctor,
    bind at 1 2, load_right, inc, ret. simpl. fold (register (right s) s).
  unfold scope_exit, bind at 1, data_load. simpl. rewrite Hd.
  unfold clone, bind at 1, deref. simpl. rewrite Hh.
  unfold new_object, counter_guard_dtor, dec. simpl.
  rewrite counter_upd_inc_dec by exact Hc.
  destruct s; reflexivity.
Qed.

(** X7: the copy assignment deletes the object the instance held and
    gives it a new object with the value the source publishes; this also
    holds for [a = a].  Every other instance and the queue are as
    before. *)
Theorem X7_copy_assign H s this r d v :
  pool H s ->
  cells s !! this = Some (Some d) ->
  value_of s r = Some v ->
  exists s',
    copy_assign this r s = Done tt s'
    /\ value_of s' this = Some v
    /\ heap s' !! d = None
    /\ cells s' !! this <> Some (Some d)
    /\ (forall c, c <> this ->
          cells s' !! c = cells s !! c /\ value_of s' c = value_of s c)
    /\ queue s' = queue s /\ left s' = left s /\ right s' = right s
    /\ counters s' = counters s
    /\ pool H s'.
Proof.
  intros P Hd Hv. pose proof (pool_counters _ _ P) as Hc.
  set (a := fresh (dom (heap s))).
  assert (Ha : heap s !! a = None) by apply not_elem_of_dom, is_fresh.
  destruct (pool_cells _ _ P this _ Hd) as (d' & E & [w Hw]).
  injection E as <-.
  assert (Had : a <> d) by (intros E; rewrite E in Ha; congruence).
  set (s' := set_cells (<[this := Some a]> (cells s))
               (set_heap (delete d (<[a := v]> (heap s))) s)).
  assert (Hrun : copy_assign this r s = Done tt s').
  { unfold copy_assign, bind at 1. rewrite (read_clone_eq s r v Hc Hv).
    fold a. unfold bind at 1, destroy, bind at 1, data_load. simpl.
    rewrite Hd. unfold delete_object. simpl.
    rewrite lookup_insert_ne by exact Had. rewrite Hw.
    unfold data_store. simpl. rewrite Hd. reflexivity. }
  assert (Hother : forall c b, c <> this -> cells s !! c = Some (Some b) ->
            b <> a /\ b <> d /\ heap s' !! b = heap s !! b).
  { intros c b Hne Hb.
    destruct (pool_cells _ _ P c _ Hb) as (b' & E & [m Hm]).
    injection E as <-.
    assert (b <> a) by (intros E; rewrite E in Hm; congruence).
    assert (b <> d).
    { intros ->. apply Hne. apply (pool_cells_inj _ _ P c this d Hb Hd). }
    split; [assumption |]. split; [assumption |]. simpl.
    rewrite lookup_delete_ne by congruence.
    apply lookup_insert_ne. congruence. }
  assert (Hkeep : forall b, is_Some (heap s !! b) -> ~ current s b ->
            is_Some (heap s' !! b) /\ ~ current s' b).
  { intros b [m Hm] Hnc.
    assert (b <> a) by (intros E; rewrite E in Hm; congruence).
    assert (b <> d) by (intros ->; apply Hnc; exists this; exact Hd).
    split.
    - simpl. rewrite lookup_delete_ne by congruence.
      rewrite lookup_insert_ne by congruence. eauto.
    - intros [c Hcb]. simpl in Hcb.
      destruct (decide (c = this)) as [-> | Hne].
      + rewrite lookup_insert_eq in Hcb. congruence.
      + rewrite lookup_insert_ne in Hcb by congruence.
        apply Hnc. exists c. exact Hcb. }
  exists s'. split; [exact Hrun |]. split.
  { unfold value_of. simpl. rewrite lookup_insert_eq.
    rewrite lookup_delete_ne by congruence. apply lookup_insert_eq. }
  split; [simpl; apply lookup_delete_eq |]. split.
  { simpl. rewrite lookup_insert_eq. congruence. }
  split.
  { intros c Hne.
    assert (Hcc : cells s' !! c = cells s !! c)
      by (simpl; apply lookup_insert_ne; congruence).
    split; [exact Hcc |]. apply value_of_ext; [exact Hcc |].
    intros b Hb. apply (Hother c b Hne Hb). }
  split; [reflexivity |]. split; [reflexivity |]. split; [reflexivity |].
  split; [reflexivity |].
  constructor; simpl; try apply P.
  - intros k b Hk Hb.
    destruct (pool_free_obj _ _ P k b Hk Hb) as (Hobj & HnH & Hncur).
    destruct (Hkeep b Hobj Hncur) as [Hobj' Hncur'].
    split; [exact Hobj' |]. split; [exact HnH | exact Hncur'].
  - intros b Hb. destruct (pool_held_obj _ _ P b Hb) as (Hobj & Hncur).
    apply Hkeep; assumption.
  - intros c q Hq. destruct (decide (c = this)) as [-> | Hne].
    + rewrite lookup_insert_eq in Hq. injection Hq as <-. exists a.
      split; [reflexivity |]. rewrite lookup_delete_ne by congruence.
      rewrite lookup_insert_eq. eauto.
    + rewrite lookup_insert_ne in Hq by congruence.
      destruct (pool_cells _ _ P c _ Hq) as (b & -> & Hobj).
      exists b. split; [reflexivity |].
      destruct (Hother c b Hne Hq) as (_ & _ & Hsame).
      simpl in Hsame. rewrite Hsame. exact Hobj.
  - intros c1 c2 b H1 H2.
    destruct (decide (c1 = this)) as [-> | Hne1];
      destruct (decide (c2 = this)) as [-> | Hne2]; [reflexivity | | |].
    + rewrite lookup_insert_eq in H1. injection H1 as <-.
      rewrite lookup_insert_ne in H2 by congruence.
      destruct (Hother c2 a Hne2 H2) as (Hx & _). contradiction.
    + rewrite lookup_insert_eq in H2. injection H2 as <-.
      rewrite lookup_insert_ne in H1 by congruence.
      destruct (Hother c1 a Hne1 H1) as (Hx & _). contradiction.
    + rewrite lookup_insert_ne in H1 by congruence.
      rewrite lookup_insert_ne in H2 by congruence.
      apply (pool_cells_inj _ _ P c1 c2 b H1 H2).
Qed.

(** X8: the move assignment takes the pointer of the source and leaves
    [nullptr] in it; no object is deleted.  The object the instance held
    stays allocated, and afterwards no instance and no free element of
    the queue refers to it.  After [a = std::move( a )] the instance
    itself holds [nullptr]. *)
Theorem X8_move_assign H s this r d p :
  pool H s ->
  cells s !! this = Some (Some d) ->
  cells s !! r = Some p ->
  exists s',
    move_assign this r s = Done tt s'
    /\ cells s' !! r = Some None
    /\ (this <> r -> cells s' !! this = Some p)
    /\ heap s' = heap s
    /\ is_Some (heap s' !! d)
    /\ ~ current s' d
    /\ (forall k, 0 <= k < N0 - Z.of_nat (length H) -> ~ free_at s' k d).
Proof.
  intros P Hd Hr.
  set (s' := set_cells (<[r := None]> (<[this := p]> (cells s))) s).
  exists s'. split.
  { unfold move_assign, bind at 1, data_load. rewrite Hr.
    unfold bind, data_store. rewrite Hd. simpl.
    destruct (decide (r = this)) as [-> | Hne].
    - rewrite lookup_insert_eq. reflexivity.
    - rewrite lookup_insert_ne by congruence. rewrite Hr. reflexivity. }
  split; [simpl; apply lookup_insert_eq |]. split.
  { intros Hne. simpl. rewrite lookup_insert_ne by congruence.
    apply lookup_insert_eq. }
  split; [reflexivity |]. split.
  { destruct (pool_cells _ _ P this _ Hd) as (d' & E & Hobj).
    injection E as <-. exact Hobj. }
  split.
  { intros [c Hc]. simpl in Hc.
    destruct (decide (c = r)) as [-> | Hcr].
    { rewrite lookup_insert_eq in Hc. discriminate Hc. }
    rewrite lookup_insert_ne in Hc by congruence.
    destruct (decide (c = this)) as [-> | Hct].
    - rewrite lookup_insert_eq in Hc. injection Hc as ->.
      apply Hcr. apply (pool_cells_inj _ _ P this r d Hd Hr).
    - rewrite lookup_insert_ne in Hc by congruence.
      apply Hct. apply (pool_cells_inj _ _ P c this d Hc Hd). }
  intros k Hk Hfree.
  destruct (pool_free_obj _ _ P k d Hk Hfree) as (_ & _ & Hnc).
  apply Hnc. exists this. exact Hd.
Qed.

(** ** The end of the program *)

(** The elements of the queue that the first [k] rounds of
    [~init_static] meet. *)
Definition met (s0 : state) (k : Z) (b : addr) : Prop :=
  exists j, 0 <= j < k /\ free_at s0 j b.

Lemma delete_queue_spec H s0 :
  pool H s0 ->
  forall (n fuel : nat) s,
    (n <= fuel)%nat ->
    queue s = queue s0 -> cells s = cells s0 ->
    Z.of_nat n <= N0 - Z.of_nat (length H) ->
    right s0 - Z.of_nat n = left s0 + (N0 - Z.of_nat (length H) - Z.of_nat n) ->
    (forall b, met s0 (N0 - Z.of_nat (length H) - Z.of_nat n) b ->
               heap s !! b = None) ->
    (forall b, ~ met s0 (N0 - Z.of_nat (length H) - Z.of_nat n) b ->
               heap s !! b = heap s0 !! b) ->
    exists s',
      delete_queue fuel (right s0 - Z.of_nat n) (right s0) s = Done tt s'
      /\ cells s' = cells s0
      /\ (forall b, met s0 (N0 - Z.of_nat (length H)) b -> heap s' !! b = None)
      /\ (forall b, ~ met s0 (N0 - Z.of_nat (length H)) b ->
                    heap s' !! b = heap s0 !! b).
Proof.
  intros P. pose proof (pool_right _ _ P) as HR.
  pose proof (pool_left _ _ P) as HL.
  induction n as [| n IH]; intros fuel s Hfuel Hq Hc Hn Hpos Hgone Hkept.
  - exists s. replace (right s0 - Z.of_nat 0) with (right s0) by lia.
    replace (N0 - Z.of_nat (length H) - Z.of_nat 0)
      with (N0 - Z.of_nat (length H)) in * by lia.
    split; [| auto].
    destruct fuel; simpl; rewrite Z.ltb_irrefl; reflexivity.
  - destruct fuel as [| fuel]; [lia |].
    set (k0 := N0 - Z.of_nat (length H) - Z.of_nat (S n)) in *.
    assert (Hk0 : 0 <= k0 < N0 - Z.of_nat (length H)) by lia.
    assert (Hk1 : N0 - Z.of_nat (length H) - Z.of_nat n = k0 + 1) by lia.
    destruct (pool_free _ _ P k0 Hk0) as [a Ha].
    destruct (pool_free_obj _ _ P k0 a Hk0 Ha) as ([w Hw] & _ & _).
    simpl delete_queue.
    destruct (Z.ltb_spec (right s0 - Z.of_nat (S n)) (right s0)); [| lia].
    unfold bind at 1, queue_get. rewrite Hq, Hpos.
    pose proof Ha as Ha'. unfold free_at in Ha'. rewrite Ha'.
    assert (Hlive : heap s !! a = Some w).
    { rewrite Hkept; [exact Hw |].
      intros (k & Hk & Hfk).
      pose proof (pool_free_inj _ _ P k k0 a ltac:(lia) Hk0 Hfk Ha). lia. }
    unfold bind at 1, delete_object. rewrite Hlive.
    replace (wrap (left s0 + k0 + 1)) with (right s0 - Z.of_nat n).
    2: { rewrite wrap_small by lia. lia. }
    apply IH; simpl; try assumption; try lia.
    + intros b (k & Hk & Hfk). rewrite Hk1 in Hk.
      destruct (Z.eq_dec k k0) as [-> | Hkk].
      * assert (b = a) by (unfold free_at in Hfk, Ha; congruence).
        subst b. apply lookup_delete_eq.
      * apply lookup_delete_None. right. apply Hgone.
        exists k. split; [lia | exact Hfk].
    + intros b Hb. rewrite Hk1 in Hb.
      assert (b <> a).
      { intros ->. apply Hb. exists k0. split; [lia | exact Ha]. }
      rewrite lookup_delete_ne by congruence. apply Hkept.
      intros (k & Hk & Hfk). apply Hb. exists k. split; [lia | exact Hfk].
Qed.

(** X9: [~init_static] walks from [left] to [right].  When [left] is
    not above [right], it deletes every element that is free in the
    queue, each one once, and no object an instance holds; it needs as
    many rounds as there are free elements.  When [right] has wrapped
    round and [left] has not, the loop is not entered and nothing is
    deleted. *)
Theorem X9_init_static_dtor (fuel : nat) H s :
  pool H s ->
  (left s <= right s ->
   (Z.to_nat (N0 - Z.of_nat (length H)) <= fuel)%nat ->
   exists s',
     init_static_dtor fuel s = Done tt s'
     /\ cells s' = cells s
     /\ (forall k a, 0 <= k < N0 - Z.of_nat (length H) -> free_at s k a ->
                     heap s' !! a = None)
     /\ (forall b, current s b -> heap s' !! b = heap s !! b))
  /\ (right s < left s -> init_static_dtor fuel s = Done tt s).
Proof.
  intros P. pose proof (pool_right _ _ P) as HR.
  pose proof (pool_left _ _ P) as HL. pose proof (pool_size _ _ P) as Hsz.
  pose proof (pool_bound _ _ P) as Hb.
  split.
  - intros Hle Hfuel.
    rewrite wrap_small in Hsz by lia.
    destruct (delete_queue_spec H s P
                (Z.to_nat (N0 - Z.of_nat (length H))) fuel s Hfuel
                eq_refl eq_refl ltac:(lia) ltac:(lia))
      as (s' & Hrun & Hc & Hgone & Hkept).
    { intros b (j & Hj & _). lia. }
    { reflexivity. }
    exists s'. split.
    { unfold init_static_dtor, bind, load_left, load_right.
      replace (left s)
        with (right s - Z.of_nat (Z.to_nat (N0 - Z.of_nat (length H))))
        at 1 by lia.
      exact Hrun. }
    split; [exact Hc |]. split.
    + intros k a Hk Ha. apply Hgone. exists k. auto.
    + intros b Hcur. apply Hkept. intros (k & Hk & Hfk).
      destruct (pool_free_obj _ _ P k b Hk Hfk) as (_ & _ & Hnc).
      contradiction.
  - intros Hlt. unfold init_static_dtor, bind, load_left, load_right.
    destruct fuel; simpl;
      (destruct (Z.ltb_spec (left s) (right s)); [lia | reflexivity]).
Qed.

(** ** [update] inside a functor *)

(** A functor that calls [update] on the instance [other]. *)
Definition calls_update (fuel : nat) (other : cell) (f : T -> T * verdict)
  : ptr -> unit -> M (bool * unit) :=
  fun _ _ =>
    bind (update fuel other (mutator f) tt) (fun _ => ret (true, tt)).

Lemma update_closed {L} (fn : ptr -> L -> M (bool * L)) this s :
  counters_ok s -> ~ can_allocate s ->
  forall (fuel : nat) l, update fuel this fn l s = Timeout.
Proof.
  intros Hc Hcl.
  assert (Hw : forall l, update_weak this fn l s = Done (false, l) s).
  { intros l. unfold update_weak, bind.
    rewrite (try_allocate_closed s Hc Hcl). reflexivity. }
  induction fuel as [| fuel IH]; intros l; simpl; unfold bind; rewrite Hw.
  - reflexivity.
  - apply IH.
Qed.

(** X21: [update] is not reentrant.  When the call of [update_weak]
    that runs the functor has taken the last element of the queue, or
    the next allocation is one at the synchronization barrier, an
    [update] inside the functor never returns: each of its attempts
    fails, since the element the outer call holds is not back in the
    queue. *)
Theorem X21_update_not_reentrant (fuel : nat) H s this other f v :
  pool H s ->
  value_of s this = Some v ->
  can_allocate s -> cas_strong s ->
  wrap (left s + 1) = right s \/ wrap (left s + 1) mod N0 = 0 ->
  update_weak this (calls_update fuel other f) tt s = Timeout.
Proof.
  intros P Hv Hcan Hs Hnest.
  destruct (value_of_cell s this v Hv) as (d & Hd & Hh).
  destruct (pool_nonempty H s P (proj1 Hcan)) as [a Ha].
  pose proof (pool_started H s a v P (proj1 Hcan) Ha) as P1.
  rewrite (update_weak_taken H this _ tt s a d v P Hcan Hs Ha Hd Hh).
  unfold with_deallocate_guard, bind at 1, calls_update, bind at 1.
  rewrite update_closed; [reflexivity | apply (pool_counters _ _ P1) |].
  intros [Hne Hb]. simpl in Hne.
  destruct Hnest as [E | E]; [contradiction |].
  destruct Hb as [Hb | [Hb _]]; [simpl in Hb; contradiction |].
  simpl in Hb. unfold queue_size in Hb.
  pose proof (pool_size _ _ P) as Hsz. pose proof (pool_bound _ _ P) as Hbd.
  pose proof N0_pos as HN. pose proof array_size_lt as HA.
  rewrite wrap_sub_r in Hb.
  replace (right s - (left s + 1)) with (right s - left s - 1) in Hb by lia.
  rewrite <- wrap_sub_l, Hsz in Hb.
  assert (Hpos : 1 <= N0 - Z.of_nat (length H)).
  { destruct (Z.eq_dec (N0 - Z.of_nat (length H)) 0) as [E0 | E0]; [| lia].
    exfalso. apply (proj1 Hcan). apply wrap_diff_zero.
    - apply (pool_left _ _ P).
    - apply (pool_right _ _ P).
    - rewrite Hsz. exact E0. }
  rewrite wrap_small in Hb by (unfold array_size in HA; lia). lia.
Qed.

(** ** Which readers the barrier waits for *)

Lemma counter_index_at j r :
  0 <= r < array_size ->
  counter_index (r + j * array_size) = if r <? queue_size then 1 else 0.
Proof.
  intros Hr. unfold counter_index.
  rewrite Z.mod_add by (unfold array_size; pose proof N0_pos; lia).
  rewrite Z.mod_small by exact Hr. reflexivity.
Qed.

Lemma counter_halves (queue_right k : Z) :
  queue_right mod N0 = 0 ->
  0 <= k < N0 ->
  counter_index (wrap (queue_right + k)) = counter_index queue_right
  /\ counter_index (wrap (queue_right - 1 - k))
     = 1 - counter_index queue_right.
Proof.
  intros Hlap Hk. pose proof N0_pos as HN.
  assert (Hidx : forall x, counter_index (wrap x) = counter_index x).
  { intros x. unfold counter_index. rewrite wrap_mod_array. reflexivity. }
  rewrite !Hidx.
  apply Z.mod_divide in Hlap as [q Hq]; [| lia].
  destruct (Z.Even_or_Odd q) as [[j Hj] | [j Hj]]; subst q queue_right.
  - replace (2 * j * N0) with (0 + j * array_size)
      by (unfold array_size; lia).
    replace (0 + j * array_size + k) with (k + j * array_size) by lia.
    replace (0 + j * array_size - 1 - k)
      with ((array_size - 1 - k) + (j - 1) * array_size) by lia.
    rewrite !counter_index_at by (unfold array_size; lia).
    unfold queue_size, array_size.
    destruct (Z.ltb_spec k N0); [| lia].
    destruct (Z.ltb_spec 0 N0); [| lia].
    destruct (Z.ltb_spec (2 * N0 - 1 - k) N0); [lia |].
    split; reflexivity.
  - replace ((2 * j + 1) * N0) with (N0 + j * array_size)
      by (unfold array_size; lia).
    replace (N0 + j * array_size + k) with ((N0 + k) + j * array_size)
      by lia.
    replace (N0 + j * array_size - 1 - k)
      with ((N0 - 1 - k) + j * array_size) by lia.
    rewrite !counter_index_at by (unfold array_size; lia).
    unfold queue_size.
    destruct (Z.ltb_spec (N0 + k) N0); [lia |].
    destruct (Z.ltb_spec N0 N0); [lia |].
    destruct (Z.ltb_spec (N0 - 1 - k) N0); [| lia].
    split; reflexivity.
Qed.

Lemma wrap_mod_size x : wrap x mod N0 = x mod N0.
Proof.
  unfold wrap. apply Z.mod_mod_divide.
  destruct HN0 as (k & Hk & ->). exists (2 ^ (32 - k)).
  unfold uint_mod. rewrite <- Z.pow_add_r by lia. f_equal. lia.
Qed.

(** X25: when an allocation at the barrier goes through, no call holds
    an element and [right] is a multiple of [N0].  The counter
    [is_used] has read as zero is the one that the guards constructed
    during the [N0] values of [right] before this one have incremented;
    the guards constructed during the [N0] values from this one on
    increment the other counter.  The barrier waits for the calls of
    the lap before, and for no later one. *)
Theorem X25_counter_halves H s (k : Z) :
  pool H s ->
  left s mod queue_size = 0 ->
  barrier_open s ->
  0 <= k < N0 ->
  H = []
  /\ right s mod N0 = 0
  /\ counter_at (1 - counter_index (right s)) (counters s) = 0
  /\ counter_index (wrap (right s - 1 - k)) = 1 - counter_index (right s)
  /\ counter_index (wrap (right s + k)) = counter_index (right s).
Proof.
  intros P Hleft [Hfull Hzero] Hk. pose proof N0_pos as HN.
  pose proof (pool_size _ _ P) as Hsz. unfold queue_size in *.
  assert (HH : H = []).
  { destruct H; [reflexivity |]. rewrite Hsz in Hfull. simpl in Hfull. lia. }
  subst H. simpl in Hsz. rewrite Z.sub_0_r in Hsz.
  assert (Hright : right s mod N0 = 0).
  { replace (right s) with ((right s - left s) + left s) by lia.
    rewrite Z.add_mod by lia.
    rewrite Hleft, <- (wrap_mod_size (right s - left s)), Hsz.
    rewrite Z.mod_same by lia. reflexivity. }
  destruct (counter_halves (right s) k Hright Hk) as [Hnew Hold].
  auto.
Qed.

End Verified.

End Cell.

Arguments Done {T A} a s.
Arguments Raised {T A} s.
Arguments Undef {T A}.
Arguments Timeout {T A}.
Arguments RCall {R}.
Arguments RRegistered {R} queue_right.
Arguments RLoaded {R} queue_right p.
Arguments RApplied {R} queue_right r.
Arguments RReturn {R} r.
Arguments RUndef {R}.

(** ** A cell of [unsigned] *)

(** The functor of the tests: increment the copy and return [true]. *)
Definition increment : Z -> Z * verdict := fun x => (wrap (x + 1), Accept).

Lemma N0_ok_1 : N0_ok 1.
Proof. exists 0. split; [lia | reflexivity]. Qed.

Lemma N0_ok_2 : N0_ok 2.
Proof. exists 1. split; [lia | reflexivity]. Qed.

Definition state_of {T A} (N0 : Z) (o : outcome (T:=T) A) : state (T:=T) :=
  match o with
  | Done _ s => s
  | Raised s => s
  | _ => zero_state N0 []
  end.

(** One instance holding [0], queue size 2. *)
Definition booted2 : state := state_of 2 (boot 2 0 [] 0).

Lemma booted2_pool : pool 2 [] booted2.
Proof.
  destruct (boot_pool 2 N0_ok_2 0 [] 0) as (c & s & Hb & P & _).
  unfold booted2. rewrite Hb. exact P.
Qed.

(** One instance holding [0], queue size 1, and the state in which its
    first [update_weak] runs the functor. *)
Definition booted1 : state := state_of 1 (boot 1 0 [] 0).

Definition updating1 : list frame * state :=
  ([Updating 1%positive 1%positive 2%positive 1],
   started 1 1%positive 0 booted1).

Lemma updating1_reachable : reachable 1 0 [] updating1.
Proof.
  exists (state_of 1 (init_static 1 0 (zero_state 1 []))).
  split; [vm_compute; reflexivity |].
  eapply rtc_l.
  { apply (step_construct 1 [] _ 0 1%positive booted1).
    vm_compute. reflexivity. }
  apply rtc_once.
  apply (step_taken 1 [] booted1 1%positive 1%positive 2%positive 0).
  - split; [vm_compute; discriminate |]. right. split.
    + vm_compute. discriminate.
    + vm_compute. reflexivity.
  - exact I.
  - vm_compute. reflexivity.
  - vm_compute. reflexivity.
  - vm_compute. reflexivity.
Qed.

(** C6 as stated fails: with [N0 = 1], while the first [update_weak]
    holds the only element, [left = right = 1]. *)
Lemma C6_counterexample :
  reachable 1 0 [] updating1
  /\ left (snd updating1) = 1 /\ right (snd updating1) = 1
  /\ ~ (1 <= wrap (right (snd updating1) - left (snd updating1))
        <= array_size 1).
Proof.
  split; [exact updating1_reachable |].
  split; [reflexivity |]. split; [reflexivity |].
  vm_compute. intros [H _]. apply H. reflexivity.
Qed.

Lemma C6_witness :
  wrap (right (snd updating1) - left (snd updating1))
  = 1 - Z.of_nat (length (held (fst updating1)))
  /\ 0 <= wrap (right (snd updating1) - left (snd updating1)) <= 1
  /\ 1 <= array_size 1
  /\ (held (fst updating1) = [] ->
      wrap (right (snd updating1) - left (snd updating1)) = 1).
Proof.
  exact (C6_queue_indices 1 N0_ok_1 0 [] (fst updating1) (snd updating1)
           updating1_reachable).
Defined.

(** The first update of that instance. *)
Definition updated2 : state :=
  state_of 2 (update_weak 2 1%positive (mutator increment) tt booted2).

Lemma C1_witness :
  pool 2 [] booted2
  /\ update_weak 2 1%positive (mutator increment) tt booted2
     = Done (true, tt) updated2
  /\ value_of updated2 1%positive = Some 1
  /\ queue updated2 !! Z.to_nat (right booted2 mod array_size 2)
     = Some (Some 3%positive)
  /\ heap updated2 !! 3%positive = Some 0.
Proof.
  assert (Hrun : update_weak 2 1%positive (mutator increment) tt booted2
                 = Done (true, tt) updated2) by (vm_compute; reflexivity).
  split; [exact booted2_pool |]. split; [exact Hrun |].
  destruct (C1_update_weak_publishes 2 N0_ok_2 [] booted2 1%positive
              increment 3%positive 0 updated2 booted2_pool
              ltac:(vm_compute; reflexivity) ltac:(vm_compute; reflexivity)
              Hrun)
    as (a & _ & _ & _ & _ & Hv & Hold & Hq & _).
  split; [exact Hv |]. split; [exact Hq | exact Hold].
Defined.

(** A functor that changes its copy and then throws. *)
Definition thrower : Z -> Z * verdict := fun x => (wrap (x + 1), Throws).

Lemma C2_witness :
  ((exists s', update_weak 2 1%positive (mutator thrower) tt booted2
               = Done (true, tt) s')
   \/ (exists s', update_weak 2 1%positive (mutator thrower) tt booted2
                  = Done (false, tt) s'
                  /\ rolled_back 2 booted2 s' /\ pool 2 [] s')
   \/ (exists s', update_weak 2 1%positive (mutator thrower) tt booted2
                  = Raised s'
                  /\ snd (thrower 0) = Throws
                  /\ rolled_back 2 booted2 s' /\ pool 2 [] s'))
  /\ (can_allocate 2 booted2 -> cas_strong booted2 ->
      snd (thrower 0) = Throws ->
      exists s', update_weak 2 1%positive (mutator thrower) tt booted2
                 = Raised s').
Proof.
  apply (C2_update_weak_rolls_back 2 N0_ok_2 [] booted2 1%positive thrower
           3%positive 0 booted2_pool).
  - vm_compute. reflexivity.
  - vm_compute. reflexivity.
Defined.

Lemma C4_witness :
  check_barrier 2 (left booted2) (right booted2) booted2
  = Done (bool_decide (left booted2 mod queue_size 2 <> 0
                       \/ barrier_open 2 booted2)) booted2
  /\ barrier_open 2 booted2.
Proof.
  destruct (C4_barrier_check 2 booted2) as (Hcheck & _ & _).
  - lia.
  - vm_compute. repeat split; intros Hx; discriminate Hx.
  - vm_compute. reflexivity.
  - split; [exact Hcheck |]. split.
    + vm_compute. intros Hx; discriminate Hx.
    + vm_compute. reflexivity.
Defined.

(** A reader of the value, while another thread moves [right] between
    its steps. *)
Definition peek : ptr -> state (T:=Z) -> option Z :=
  fun p s => match p with Some a => heap s !! a | None => None end.

Definition mover : nat -> state (T:=Z) -> state (T:=Z) :=
  fun _ s => set_right (wrap (right s + 1)) s.

Lemma C5_witness :
  instance_alive 1%positive booted2
  /\ exists r s',
       run (read_own 2 1%positive peek) mover 4 RCall booted2
       = (RReturn r, s').
Proof.
  assert (Halive : instance_alive 1%positive booted2).
  { vm_compute. eauto. }
  split; [exact Halive |].
  apply (proj2 (C5_read_wait_free 2 1%positive peek)).
  - intros i s' Hs. exact Hs.
  - exact Halive.
Defined.

(** ** A vector of cells of [unsigned]: the loop of a thread and the
    final sum of the vector test *)
Section Vector.

Variable N0 : Z.
Hypothesis HN0 : N0_ok N0.

(** [vector0[ index ]] *)
Definition at_index (vector0 : list cell) (index : nat) : M (T:=Z) cell :=
  match vector0 !! index with
  | Some c => ret c
  | None => undef
  end.

(** The body of a thread, [indices] being the draws of its random
    engine: [vector0[ index ].update( ... )] with the increment for
    each of them. *)
Fixpoint fn_thread (fuel : nat) (vector0 : list cell) (indices : list nat)
  : M (T:=Z) unit :=
  match indices with
  | [] => ret tt
  | index :: rest =>
      bind (at_index vector0 index) (fun c =>
      bind (update N0 fuel c (mutator increment) tt) (fun _ =>
      fn_thread fuel vector0 rest))
  end.

(** [for( auto &i : vector0 ) sum += i.read( ... )], the functor
    returning the value. *)
Fixpoint sum_all (vector0 : list cell) (sum : Z) : M (T:=Z) Z :=
  match vector0 with
  | [] => ret sum
  | c :: rest =>
      bind (read N0 c (observer Some)) (fun x =>
      sum_all rest (wrap (sum + x)))
  end.

(** The sum of the values the instances publish. *)
Fixpoint total (s : state (T:=Z)) (vector0 : list cell) : Z :=
  match vector0 with
  | [] => 0
  | c :: rest => default 0 (value_of s c) + total s rest
  end.

Lemma wrap_add_wrap_l a b : wrap (wrap a + b) = wrap (a + b).
Proof. unfold wrap. apply Z.add_mod_idemp_l. unfold uint_mod. lia. Qed.

Lemma wrap_id a : 0 <= a < uint_mod -> wrap a = a.
Proof. intros Ha. unfold wrap. apply Z.mod_small. exact Ha. Qed.

Lemma wrap_bounds a : 0 <= wrap a < uint_mod.
Proof. unfold wrap. apply Z.mod_pos_bound. unfold uint_mod. lia. Qed.

Lemma sum_all_eq (s : state (T:=Z)) vector0 :
  counters_ok s ->
  (forall c, c ∈ vector0 -> is_Some (value_of s c)) ->
  forall sum, 0 <= sum < uint_mod ->
    sum_all vector0 sum s = Done (wrap (sum + total s vector0)) s.
Proof.
  intros Hc. induction vector0 as [| c rest IH]; intros Hv sum Hsum.
  - simpl. rewrite Z.add_0_r, wrap_id by exact Hsum. reflexivity.
  - destruct (Hv c ltac:(left)) as [v Hcv].
    simpl. unfold bind. rewrite (read_observer N0 s c v Some Hc Hcv).
    rewrite IH.
    + rewrite Hcv. simpl. rewrite wrap_add_wrap_l. f_equal. f_equal. lia.
    + intros c' Hc'. apply Hv. right. exact Hc'.
    + apply wrap_bounds.
Qed.

Lemma total_other (s s' : state (T:=Z)) vector0 c :
  c ∉ vector0 ->
  (forall c', c' <> c -> value_of s' c' = value_of s c') ->
  total s' vector0 = total s vector0.
Proof.
  intros Hnin Hsame. induction vector0 as [| c' rest IH]; [reflexivity |].
  simpl. rewrite Hsame, IH; [reflexivity | |].
  - intros Hin. apply Hnin. right. exact Hin.
  - intros ->. apply Hnin. left.
Qed.

Lemma total_update (s s' : state (T:=Z)) vector0 c v w :
  NoDup vector0 -> c ∈ vector0 ->
  value_of s c = Some v -> value_of s' c = Some w ->
  (forall c', c' <> c -> value_of s' c' = value_of s c') ->
  total s' vector0 = total s vector0 - v + w.
Proof.
  intros Hnd Hin Hv Hw Hsame.
  induction vector0 as [| c' rest IH]; [inversion Hin |].
  apply NoDup_cons in Hnd as [Hnin Hnd]. simpl.
  destruct (decide (c' = c)) as [-> | Hne].
  - rewrite Hv, Hw, (total_other s s' rest c Hnin Hsame). simpl. lia.
  - rewrite (Hsame c' Hne), IH; [lia | exact Hnd |].
    apply elem_of_cons in Hin as [-> | Hin]; [contradiction | exact Hin].
Qed.

Lemma fn_thread_spec (fuel : nat) vector0 :
  NoDup vector0 ->
  forall indices (s : state (T:=Z)),
    quiescent N0 s ->
    (forall c, c ∈ vector0 -> is_Some (value_of s c)) ->
    Forall (fun index => (index < length vector0)%nat) indices ->
    (length (weak_cas s) <= fuel)%nat ->
    exists s',
      fn_thread fuel vector0 indices s = Done tt s'
      /\ quiescent N0 s'
      /\ (forall c, c ∈ vector0 -> is_Some (value_of s' c))
      /\ wrap (total s' vector0)
         = wrap (total s vector0 + Z.of_nat (length indices)).
Proof.
  intros Hnd. induction indices as [| index rest IH];
    intros s Hq Hv Hidx Hfuel.
  - exists s. simpl. rewrite Z.add_0_r. auto.
  - apply Forall_cons in Hidx as [Hi Hidx].
    destruct (lookup_lt_is_Some_2 vector0 index Hi) as [c Hc].
    assert (Hin : c ∈ vector0) by (eapply list_elem_of_lookup_2; exact Hc).
    destruct (Hv c Hin) as [v Hcv].
    destruct (update_accepting N0 HN0 fuel s c increment v Hq Hcv
                ltac:(reflexivity) Hfuel)
      as (s1 & Hrun & Hthis & Hother & _ & Hlen & Hq1).
    destruct (IH s1 Hq1) as (s' & Hrest & Hq' & Hv' & Htot).
    { intros c' Hc'. destruct (decide (c' = c)) as [-> | Hne].
      - rewrite Hthis. eauto.
      - rewrite (Hother c' Hne). apply Hv, Hc'. }
    { exact Hidx. }
    { lia. }
    exists s'. split.
    { simpl. unfold bind at 1, at_index. rewrite Hc. unfold ret.
      unfold bind. rewrite Hrun. exact Hrest. }
    split; [exact Hq' |]. split; [exact Hv' |].
    rewrite Htot.
    rewrite (total_update s s1 vector0 c v (fst (increment v))
               Hnd Hin Hcv Hthis Hother).
    simpl fst. simpl length.
    replace (total s vector0 - v + wrap (v + 1) + Z.of_nat (length rest))
      with (wrap (v + 1) + (total s vector0 - v + Z.of_nat (length rest)))
      by lia.
    rewrite wrap_add_wrap_l. f_equal. lia.
Qed.

(** X10: one thread of the vector test, whatever its random engine
    draws inside the vector.  It ends after one [update] per draw, each
    of them returning (the barrier is passed lap after lap), and the
    sum the test then reads from the vector is the sum before plus the
    number of draws, modulo [2^32]: no increment is lost. *)
Theorem X10_thread_conserves (fuel : nat) vector0 indices
    (s : state (T:=Z)) :
  quiescent N0 s ->
  NoDup vector0 ->
  (forall c, c ∈ vector0 -> is_Some (value_of s c)) ->
  Forall (fun index => (index < length vector0)%nat) indices ->
  (length (weak_cas s) <= fuel)%nat ->
  exists sum s',
    sum_all vector0 0 s = Done sum s
    /\ fn_thread fuel vector0 indices s = Done tt s'
    /\ sum_all vector0 0 s'
       = Done (wrap (sum + Z.of_nat (length indices))) s'.
Proof.
  intros Hq Hnd Hv Hidx Hfuel.
  destruct (fn_thread_spec fuel vector0 Hnd indices s Hq Hv Hidx Hfuel)
    as (s' & Hrun & Hq' & Hv' & Htot).
  assert (H0 : 0 <= 0 < uint_mod) by (unfold uint_mod; lia).
  exists (wrap (total s vector0)), s'. split.
  { rewrite (sum_all_eq s vector0 (pool_counters _ _ _ (proj1 Hq)) Hv 0 H0).
    reflexivity. }
  split; [exact Hrun |].
  rewrite (sum_all_eq s' vector0 (pool_counters _ _ _ (proj1 Hq')) Hv' 0 H0).
  rewrite Z.add_0_l, Htot, wrap_add_wrap_l. reflexivity.
Qed.

End Vector.

(** ** A cell of [std::map<uint, uint>]: the threads of the map test *)
Section MapTest.

Variable N0 : Z.
Hypothesis HN0 : N0_ok N0.

(** The functor of the update thread [thread_id]: increment the entry
    of the thread, or create it with [1]. *)
Definition fn_update (thread_id : Z) (data : gmap Z Z) : gmap Z Z * verdict :=
  match data !! thread_id with
  | Some x => (<[thread_id := wrap (x + 1)]> data, Accept)
  | None => (<[thread_id := 1]> data, Accept)
  end.

(** The functor of the read thread: the entry of the thread, or [0u]. *)
Definition fn_read (thread_id : Z) : ptr -> M (T:=gmap Z Z) Z :=
  observer (fun data => Some (default 0 (data !! thread_id))).

(** [map0->clear(); return true;] *)
Definition fn_clear (map0 : gmap Z Z) : gmap Z Z * verdict := (∅, Accept).

(** The loop of the update thread: [cycles] times
    [atomic_map.update( fn )]. *)
Fixpoint update_thread (fuel cycles : nat) (atomic_map : cell)
    (thread_id : Z) : M (T:=gmap Z Z) unit :=
  match cycles with
  | O => ret tt
  | S cycles' =>
      bind (update N0 fuel atomic_map (mutator (fn_update thread_id)) tt)
        (fun _ => update_thread fuel cycles' atomic_map thread_id)
  end.

(** The entries of the map after [k] increments of [thread_id] on the
    cleared map. *)
Definition counted (thread_id : Z) (k : nat) (data : gmap Z Z) : Prop :=
  forall id, default 0 (data !! id)
             = if decide (id = thread_id) then wrap (Z.of_nat k) else 0.

Lemma counted_step thread_id k data :
  counted thread_id k data ->
  counted thread_id (S k) (fst (fn_update thread_id data)).
Proof.
  intros Hk id. pose proof (Hk thread_id) as Hid.
  rewrite decide_True in Hid by reflexivity.
  assert (Hnext : wrap (Z.of_nat (S k)) = wrap (wrap (Z.of_nat k) + 1)).
  { rewrite wrap_add_wrap_l. f_equal. lia. }
  unfold fn_update.
  destruct (data !! thread_id) as [x |] eqn:E; simpl in Hid |- *.
  - destruct (decide (id = thread_id)) as [-> | Hne].
    + rewrite lookup_insert_eq. simpl. rewrite Hnext, Hid. reflexivity.
    + rewrite lookup_insert_ne by congruence.
      rewrite (Hk id), decide_False by exact Hne. reflexivity.
  - destruct (decide (id = thread_id)) as [-> | Hne].
    + rewrite lookup_insert_eq. simpl. rewrite Hnext, <- Hid. reflexivity.
    + rewrite lookup_insert_ne by congruence.
      rewrite (Hk id), decide_False by exact Hne. reflexivity.
Qed.

Lemma update_thread_spec (fuel : nat) atomic_map thread_id (cycles : nat) :
  forall (k : nat) (s : state (T:=gmap Z Z)) data,
    quiescent N0 s ->
    value_of s atomic_map = Some data ->
    counted thread_id k data ->
    (length (weak_cas s) <= fuel)%nat ->
    exists s' data',
      update_thread fuel cycles atomic_map thread_id s = Done tt s'
      /\ quiescent N0 s'
      /\ value_of s' atomic_map = Some data'
      /\ counted thread_id (k + cycles) data'.
Proof.
  induction cycles as [| cycles IH]; intros k s data Hq Hv Hk Hfuel.
  - exists s, data. rewrite Nat.add_0_r. auto.
  - destruct (update_accepting N0 HN0 fuel s atomic_map
                (fn_update thread_id) data Hq Hv) as
      (s1 & Hrun & Hv1 & _ & _ & Hlen & Hq1); [| exact Hfuel |].
    { intros m. unfold fn_update. destruct (m !! thread_id); reflexivity. }
    destruct (IH (S k) s1 _ Hq1 Hv1 (counted_step thread_id k data Hk)
                ltac:(lia)) as (s' & data' & Hrest & Hq' & Hv' & Hk').
    exists s', data'. split.
    { simpl. unfold bind. rewrite Hrun. exact Hrest. }
    split; [exact Hq' |]. split; [exact Hv' |].
    replace (k + S cycles)%nat with (S k + cycles)%nat by lia. exact Hk'.
Qed.

(** X23: the map test with one update thread.  After the map has been
    cleared and the thread has run its [cycles] updates, each of which
    returns, a read with the functor of the read thread gives [cycles]
    (modulo [2^32]) for the id of the thread and [0] for every other
    id. *)
Theorem X23_map_thread_counts (fuel cycles : nat) atomic_map thread_id
    (s : state (T:=gmap Z Z)) data :
  quiescent N0 s ->
  value_of s atomic_map = Some data ->
  (length (weak_cas s) <= fuel)%nat ->
  exists s1 s2,
    update N0 fuel atomic_map (mutator fn_clear) tt s = Done tt s1
    /\ update_thread fuel cycles atomic_map thread_id s1 = Done tt s2
    /\ read N0 atomic_map (fn_read thread_id) s2
       = Done (wrap (Z.of_nat cycles)) s2
    /\ (forall id, id <> thread_id ->
                   read N0 atomic_map (fn_read id) s2 = Done 0 s2).
Proof.
  intros Hq Hv Hfuel.
  destruct (update_accepting N0 HN0 fuel s atomic_map fn_clear data Hq Hv
              ltac:(reflexivity) Hfuel)
    as (s1 & Hclear & Hv1 & _ & _ & Hlen & Hq1).
  assert (Hk0 : counted thread_id 0 (∅ : gmap Z Z)).
  { intros id. rewrite lookup_empty. simpl.
    destruct (decide (id = thread_id)); reflexivity. }
  destruct (update_thread_spec fuel atomic_map thread_id cycles 0 s1 _
              Hq1 Hv1 Hk0) as (s2 & data' & Hrun & Hq2 & Hv2 & Hk).
  { lia. }
  pose proof (pool_counters _ _ _ (proj1 Hq2)) as Hc2.
  exists s1, s2. split; [exact Hclear |]. split; [exact Hrun |].
  split.
  - unfold fn_read. rewrite (read_observer N0 s2 atomic_map data' _ Hc2 Hv2).
    rewrite (Hk thread_id), decide_True by reflexivity. reflexivity.
  - intros id Hne. unfold fn_read.
    rewrite (read_observer N0 s2 atomic_map data' _ Hc2 Hv2).
    rewrite (Hk id), decide_False by exact Hne. reflexivity.
Qed.

End MapTest.

(** ** The further properties on the cell of [unsigned] *)

Lemma booted2_quiescent : quiescent 2 booted2.
Proof. split; [exact booted2_pool | reflexivity]. Qed.

Lemma booted1_pool : pool 1 [] booted1.
Proof.
  destruct (boot_pool 1 N0_ok_1 0 [] 0) as (c & s & Hb & P & _).
  unfold booted1. rewrite Hb. exact P.
Qed.

Lemma X1_witness :
  exists s',
    update 2 0 1%positive (mutator increment) tt booted2 = Done tt s'
    /\ value_of s' 1%positive = Some 1.
Proof.
  destruct (X1_update_publishes 2 N0_ok_2 0 booted2 1%positive increment 0
              booted2_quiescent ltac:(vm_compute; reflexivity)
              ltac:(intros m; reflexivity) ltac:(vm_compute; lia))
    as (s' & Hrun & Hv & _).
  exists s'. split; [exact Hrun | exact Hv].
Defined.

(** A functor that changes its copy and returns [false]. *)
Definition vetoer : Z -> Z * verdict := fun x => (wrap (x + 1), Veto).

Lemma X2_witness :
  update 2 5 1%positive (mutator vetoer) tt booted2 = Timeout.
Proof.
  apply (X2_update_veto_spins 2 N0_ok_2 5 [] booted2 1%positive vetoer 0
           booted2_pool).
  - vm_compute. reflexivity.
  - intros m. reflexivity.
Defined.

Lemma X3_witness :
  read 2 1%positive (observer Some) booted2 = Done 0 booted2
  /\ read 2 1%positive (observer (fun _ : Z => @None Z)) booted2
     = Raised booted2.
Proof.
  split.
  - apply (X3_read_restores 2 booted2 1%positive 0 Some).
    + apply (pool_counters _ _ _ booted2_pool).
    + vm_compute. reflexivity.
  - apply (X3_read_restores 2 booted2 1%positive 0 (fun _ : Z => @None Z)).
    + apply (pool_counters _ _ _ booted2_pool).
    + vm_compute. reflexivity.
Defined.

(** Two instances holding [0], queue size 2. *)
Definition two_cells : state :=
  state_of 2 (bind (init_static 2 0)
                (fun _ => bind (new_cell 0) (fun _ => new_cell 0))
                (zero_state 2 [])).

Lemma two_cells_quiescent : quiescent 2 two_cells.
Proof.
  destruct (init_static_pool 2 N0_ok_2 0 [])
    as (s0 & Hinit & P0 & _ & _ & Hc0 & _).
  destruct (new_cell 0 s0) as [c1 s1 | | |] eqn:H1;
    try (rewrite new_cell_eq in H1; discriminate H1).
  destruct (pool_new_cell 2 [] s0 0 c1 s1 P0 H1)
    as (P1 & _ & _ & _ & _ & _ & _ & _ & Hc1 & _).
  destruct (new_cell 0 s1) as [c2 s2 | | |] eqn:H2;
    try (rewrite new_cell_eq in H2; discriminate H2).
  destruct (pool_new_cell 2 [] s1 0 c2 s2 P1 H2)
    as (P2 & _ & _ & _ & _ & _ & _ & _ & Hc2 & _).
  unfold two_cells, bind. rewrite Hinit, H1, H2. simpl.
  split; [exact P2 | congruence].
Qed.

Lemma X4_witness :
  match update_weak 2 1%positive (mutator increment) tt two_cells with
  | Done _ s' | Raised s' =>
      forall c, c <> 1%positive ->
        cells s' !! c = cells two_cells !! c
        /\ value_of s' c = value_of two_cells c
  | Undef | Timeout => False
  end.
Proof.
  apply (X4_update_weak_other_instances 2 N0_ok_2 [] two_cells 1%positive
           increment 0 (proj1 two_cells_quiescent)).
  vm_compute. reflexivity.
Defined.

Lemma X5_witness :
  exists this s',
    copy_construct 2 1%positive booted2 = Done this s'
    /\ value_of s' this = Some 0
    /\ cells s' !! this <> cells s' !! 1%positive.
Proof.
  destruct (X5_copy_construct 2 [] booted2 1%positive 0 booted2_pool
              ltac:(vm_compute; reflexivity))
    as (this & s' & Hrun & _ & Hv & Hown & _).
  exists this, s'. auto.
Defined.

Lemma X6_witness :
  exists this s',
    move_construct 1%positive booted2 = Done this s'
    /\ cells s' !! this = Some (Some 3%positive)
    /\ cells s' !! 1%positive = Some None.
Proof.
  destruct (X6_move_construct 2 booted2 1%positive (Some 3%positive)
              ltac:(vm_compute; reflexivity))
    as (this & s' & Hrun & _ & Hthis & Hr & _).
  exists this, s'. auto.
Defined.

Lemma X7_witness :
  exists s',
    copy_assign 2 1%positive 1%positive booted2 = Done tt s'
    /\ value_of s' 1%positive = Some 0
    /\ heap s' !! 3%positive = None.
Proof.
  destruct (X7_copy_assign 2 [] booted2 1%positive 1%positive 3%positive 0
              booted2_pool ltac:(vm_compute; reflexivity)
              ltac:(vm_compute; reflexivity))
    as (s' & Hrun & Hv & Hd & _).
  exists s'. auto.
Defined.

Lemma X8_witness :
  exists s',
    move_assign 1%positive 1%positive booted2 = Done tt s'
    /\ cells s' !! 1%positive = Some None
    /\ is_Some (heap s' !! 3%positive).
Proof.
  destruct (X8_move_assign 2 [] booted2 1%positive 1%positive 3%positive
              (Some 3%positive) booted2_pool ltac:(vm_compute; reflexivity)
              ltac:(vm_compute; reflexivity))
    as (s' & Hrun & Hr & _ & _ & Hd & _).
  exists s'. auto.
Defined.

Lemma X9_witness :
  exists s',
    init_static_dtor 2 2 booted2 = Done tt s'
    /\ cells s' = cells booted2
    /\ heap s' !! 1%positive = None /\ heap s' !! 2%positive = None.
Proof.
  destruct (X9_init_static_dtor 2 2 [] booted2 booted2_pool) as [Hdel _].
  destruct Hdel as (s' & Hrun & Hc & Hgone & _).
  - vm_compute. intros Hx. discriminate Hx.
  - vm_compute. lia.
  - exists s'. split; [exact Hrun |]. split; [exact Hc |]. split.
    + apply (Hgone 0 1%positive); [simpl; lia | vm_compute; reflexivity].
    + apply (Hgone 1 2%positive); [simpl; lia | vm_compute; reflexivity].
Defined.

Lemma X10_witness :
  exists sum s',
    sum_all 2 [1%positive; 2%positive] 0 two_cells = Done sum two_cells
    /\ fn_thread 2 0 [1%positive; 2%positive] [0; 1; 1; 0; 1]%nat two_cells
       = Done tt s'
    /\ sum_all 2 [1%positive; 2%positive] 0 s' = Done (wrap (sum + 5)) s'.
Proof.
  apply (X10_thread_conserves 2 N0_ok_2 0 [1%positive; 2%positive]
           [0; 1; 1; 0; 1]%nat two_cells two_cells_quiescent).
  - apply NoDup_cons. split; [| apply NoDup_singleton].
    intros Hin. apply list_elem_of_singleton in Hin. discriminate Hin.
  - intros c Hc. apply elem_of_cons in Hc as [-> | Hc].
    + vm_compute. eauto.
    + apply list_elem_of_singleton in Hc. subst c. vm_compute. eauto.
  - repeat constructor.
  - vm_compute. lia.
Defined.

Lemma X21_witness :
  update_weak 1 1%positive (calls_update 1 3 1%positive increment) tt booted1
  = Timeout.
Proof.
  apply (X21_update_not_reentrant 1 N0_ok_1 3 [] booted1 1%positive
           1%positive increment 0 booted1_pool).
  - vm_compute. reflexivity.
  - split; [vm_compute; discriminate |]. right. split.
    + vm_compute. discriminate.
    + vm_compute. reflexivity.
  - exact I.
  - left. vm_compute. reflexivity.
Defined.

(** A cell holding an empty map, queue size 2. *)
Definition map_cell : state (T:=gmap Z Z) := state_of 2 (boot 2 ∅ [] ∅).

Lemma map_cell_quiescent : quiescent 2 map_cell.
Proof.
  destruct (boot_pool 2 N0_ok_2 (∅ : gmap Z Z) [] ∅)
    as (c & s & Hb & P & _ & _ & _ & Hc & _).
  unfold map_cell. rewrite Hb. split; [exact P | exact Hc].
Qed.

Lemma X23_witness :
  exists s1 s2,
    update 2 0 1%positive (mutator fn_clear) tt map_cell = Done tt s1
    /\ update_thread 2 0 5 1%positive 3 s1 = Done tt s2
    /\ read 2 1%positive (fn_read 3) s2 = Done (wrap 5) s2
    /\ (forall id, id <> 3 ->
                   read 2 1%positive (fn_read id) s2 = Done 0 s2).
Proof.
  apply (X23_map_thread_counts 2 N0_ok_2 0 5 1%positive 3 map_cell ∅
           map_cell_quiescent).
  - vm_compute. reflexivity.
  - vm_compute. lia.
Defined.

Lemma X25_witness :
  counter_at (1 - counter_index 2 (right booted2)) (counters booted2) = 0
  /\ counter_index 2 (wrap (right booted2 - 1 - 1))
     = 1 - counter_index 2 (right booted2)
  /\ counter_index 2 (wrap (right booted2 + 1))
     = counter_index 2 (right booted2).
Proof.
  destruct (X25_counter_halves 2 N0_ok_2 [] booted2 1 booted2_pool)
    as (_ & _ & Hzero & Hold & Hnew).
  - vm_compute. reflexivity.
  - split; [vm_compute; discriminate | vm_compute; reflexivity].
  - lia.
  - auto.
Defined.

End AtomicData.

(** * The test of the array: increment the minimum *)
Module ArrayTest.

(** [uint data[ array_size ]] of [array_test]. *)
Abbreviation array_test := (list Z) (only parsing).

(** The loop of [update]: [min] and [min_index] after the elements
    from position [i] on. *)
Fixpoint scan (data : array_test) (i : nat) (min : Z) (min_index : nat)
  : Z * nat :=
  match data with
  | [] => (min, min_index)
  | x :: rest =>
      if x <? min then scan rest (S i) x i
      else scan rest (S i) min min_index
  end.

(** [update( array_test* )] with the global [flag_throw]: the array as
    it leaves it, how it ends, and the flag.  [min] starts as
    [uint( -1 )]; the array is not empty, so that [min_index] is in
    it. *)
Definition update (flag_throw : bool) (array_new : array_test)
  : array_test * AtomicData.verdict * bool :=
  let min_index := snd (scan array_new 0 (uint_mod - 1) 0) in
  let x := default 0 (array_new !! min_index) in
  if flag_throw && (x =? 10) then (array_new, AtomicData.Throws, false)
  else (<[min_index := wrap (x + 1)]> array_new, AtomicData.Accept,
        flag_throw).

(** [k] calls in a row, [flag_throw] being [false] as the file leaves
    it. *)
Fixpoint updates (k : nat) (array_new : array_test) : array_test :=
  match k with
  | O => array_new
  | S k' => updates k' (fst (fst (update false array_new)))
  end.

(** The check at the end of the test. *)
Definition all_equal (value_check : Z) (data : array_test) : bool :=
  forallb (fun x => x =? value_check) data.

(** The first [j] elements are [q + 1], the others [q]. *)
Definition level (n j : nat) (q : Z) : array_test :=
  replicate j (q + 1) ++ replicate (n - j) q.

Lemma scan_app l1 l2 i m mi :
  scan (l1 ++ l2) i m mi
  = scan l2 (i + length l1) (fst (scan l1 i m mi)) (snd (scan l1 i m mi)).
Proof.
  revert i m mi. induction l1 as [| x l1 IH]; intros i m mi; simpl.
  - rewrite Nat.add_0_r. reflexivity.
  - replace (i + S (length l1))%nat with (S i + length l1)%nat by lia.
    destruct (x <? m); apply IH.
Qed.

Lemma scan_replicate_ge k x i m mi :
  m <= x -> scan (replicate k x) i m mi = (m, mi).
Proof.
  intros Hx. revert i. induction k as [| k IH]; intros i; simpl.
  - reflexivity.
  - destruct (Z.ltb_spec x m); [lia | apply IH].
Qed.

Lemma scan_replicate_lt k x i m mi :
  x < m -> scan (replicate (S k) x) i m mi = (x, i).
Proof.
  intros Hx. simpl. destruct (Z.ltb_spec x m); [| lia].
  apply scan_replicate_ge. lia.
Qed.

Lemma scan_level n j q :
  (j < n)%nat -> q + 1 < uint_mod ->
  snd (scan (level n j q) 0 (uint_mod - 1) 0) = j.
Proof.
  intros Hj Hq. unfold level. rewrite scan_app, length_replicate.
  destruct (n - j)%nat as [| k] eqn:E; [lia |].
  rewrite scan_replicate_lt; [reflexivity |].
  destruct j as [| j].
  - simpl. lia.
  - destruct (Z.lt_ge_cases (q + 1) (uint_mod - 1)).
    + rewrite scan_replicate_lt by assumption. simpl. lia.
    + rewrite scan_replicate_ge by lia. simpl. lia.
Qed.

Lemma update_level n j q :
  (j < n)%nat -> 0 <= q -> q + 1 < uint_mod ->
  update false (level n j q) = (level n (S j) q, AtomicData.Accept, false).
Proof.
  intros Hj Hq0 Hq. unfold update. rewrite (scan_level n j q Hj Hq).
  simpl andb. cbv iota. f_equal. f_equal.
  unfold level.
  assert (Hlook : (replicate j (q + 1) ++ replicate (n - j) q) !! j = Some q).
  { rewrite lookup_app_r by (rewrite length_replicate; lia).
    rewrite length_replicate, Nat.sub_diag.
    destruct (n - j)%nat eqn:E; [lia | reflexivity]. }
  rewrite Hlook. simpl default.
  rewrite insert_app_r_alt by (rewrite length_replicate; lia).
  rewrite length_replicate, Nat.sub_diag.
  replace (n - j)%nat with (S (n - S j)) by lia. simpl.
  unfold wrap. rewrite Z.mod_small by lia.
  generalize (replicate (n - S j) q). intros rest.
  clear. induction j as [| j IH]; simpl; [reflexivity |].
  f_equal. exact IH.
Qed.

Lemma level_full n q : level n n q = level n 0 (q + 1).
Proof.
  unfold level. rewrite Nat.sub_diag, Nat.sub_0_r. simpl.
  apply app_nil_r.
Qed.

Lemma updates_add a b x : updates (a + b) x = updates b (updates a x).
Proof.
  revert x. induction a as [| a IH]; intros x; simpl; [reflexivity |].
  apply IH.
Qed.

Lemma updates_level n q k :
  forall j, (j + k <= n)%nat -> 0 <= q -> q + 1 < uint_mod ->
  updates k (level n j q) = level n (j + k) q.
Proof.
  induction k as [| k IH]; intros j Hjk Hq0 Hq.
  - rewrite Nat.add_0_r. reflexivity.
  - cbn [updates]. rewrite (update_level n j q) by (try lia; assumption).
    cbn [fst]. rewrite IH by (try lia; assumption). f_equal. lia.
Qed.

Lemma updates_laps n q :
  (0 < n)%nat -> Z.of_nat q < uint_mod ->
  updates (q * n) (replicate n 0) = level n 0 (Z.of_nat q).
Proof.
  intros Hn. induction q as [| q IH]; intros Hq.
  - simpl. unfold level. rewrite Nat.sub_0_r. reflexivity.
  - replace (S q * n)%nat with (q * n + n)%nat by lia.
    rewrite updates_add, IH by lia.
    rewrite (updates_level n (Z.of_nat q) n 0) by lia.
    simpl. rewrite level_full. f_equal. lia.
Qed.

(** X22: the functor of the array test increments the first minimum
    of the array.  Started on the array of [n] zeros and called
    [q * n + j] times in a row, with [j < n] and no element reaching
    [2^32], it leaves [q + 1] in the first [j] elements and [q] in the
    others, accepting each time; after [q * n] calls every element is
    [q], which is what the test checks at its end. *)
Theorem X22_update_min_levels (n q j : nat) :
  (j < n)%nat ->
  Z.of_nat q + 1 < uint_mod ->
  updates (q * n + j) (replicate n 0)
  = replicate j (Z.of_nat q + 1) ++ replicate (n - j) (Z.of_nat q)
  /\ snd (fst (update false (updates (q * n + j) (replicate n 0))))
     = AtomicData.Accept
  /\ all_equal (Z.of_nat q) (updates (q * n) (replicate n 0)) = true.
Proof.
  intros Hj Hq.
  assert (Hlaps : updates (q * n) (replicate n 0) = level n 0 (Z.of_nat q))
    by (apply updates_laps; lia).
  assert (Hall : updates (q * n + j) (replicate n 0)
                 = level n j (Z.of_nat q)).
  { rewrite updates_add, Hlaps.
    apply (updates_level n (Z.of_nat q) j 0); lia. }
  split; [exact Hall |]. split.
  - rewrite Hall, (update_level n j (Z.of_nat q)) by lia. reflexivity.
  - rewrite Hlaps. unfold level, all_equal. rewrite Nat.sub_0_r. simpl.
    apply forallb_forall. intros x Hx. apply list_elem_of_In in Hx.
    apply elem_of_replicate in Hx as [-> _]. apply Z.eqb_refl.
Qed.

Lemma X22_witness :
  updates (2 * 3 + 1) (replicate 3 0) = [3; 2; 2]
  /\ snd (fst (update false (updates (2 * 3 + 1) (replicate 3 0))))
     = AtomicData.Accept
  /\ all_equal 2 (updates (2 * 3) (replicate 3 0)) = true.
Proof.
  apply (X22_update_min_levels 3 2 1).
  - lia.
  - vm_compute. reflexivity.
Defined.

End ArrayTest.

(** * atomic_list: a singly linked list of cells *)
Module AtomicList.

Import AtomicData.

Section List.

(** The element type [T0], its value [T0{}], and the queue size. *)
Context {A : Type}.
Variable A0 : A.
Variable N0 : Z.

(** [node_ptr] is a [shared_ptr] to the cell of a node; [None] is the
    empty pointer.  The cells are never freed in the embedding: an
    iterator or a stale copy may keep referring to a node. *)
Abbreviation node_ptr := (option positive) (only parsing).

Record node : Type := mkNode {
  locked : bool;
  deleted : bool;
  data : A;
  next : node_ptr
}.

Definition set_locked (b : bool) (n : node) : node :=
  mkNode b (deleted n) (data n) (next n).
Definition set_deleted (b : bool) (n : node) : node :=
  mkNode (locked n) b (data n) (next n).
Definition set_data (x : A) (n : node) : node :=
  mkNode (locked n) (deleted n) x (next n).
Definition set_next (p : node_ptr) (n : node) : node :=
  mkNode (locked n) (deleted n) (data n) p.

Abbreviation M := (AtomicData.M (T:=node)) (only parsing).
Abbreviation state := (AtomicData.state (T:=node)) (only parsing).

(** [p->] on a [node_ptr]. *)
Definition arrow (p : node_ptr) : M cell :=
  match p with
  | Some c => ret c
  | None => undef
  end.

(** [node0->field = x] *)
Definition modify (node0 : ptr) (g : node -> node) : M unit :=
  bind (deref node0) (fun n => assign node0 (g n)).

(** [value->read( []( node* node0 ){ return node0->field; } )] *)
Definition read_field {R} (c : cell) (field : node -> R) : M R :=
  read N0 c (fun node0 => bind (deref node0) (fun n => ret (field n))).

(** ** Iterators *)
Record iterator : Type := mkIterator { value : node_ptr }.

Definition empty_iterator : iterator := mkIterator None.

(** [operator bool] *)
Definition to_bool (it : iterator) : bool :=
  match value it with
  | Some _ => true
  | None => false
  end.

(** [operator++] *)
Definition advance (it : iterator) : M iterator :=
  bind (arrow (value it)) (fun c =>
  bind (read_field c next) (fun nx => ret (mkIterator nx))).

(** [operator*] *)
Definition get (it : iterator) : M A :=
  bind (arrow (value it)) (fun c => read_field c data).

Definition is_locked (it : iterator) : M bool :=
  match value it with
  | Some c => read_field c locked
  | None => ret false
  end.

Definition is_deleted (it : iterator) : M bool :=
  match value it with
  | Some c => read_field c deleted
  | None => ret false
  end.

(** The functor of [iterator::update_weak]. *)
Definition store_data (x : A) (node0 : ptr) (_ : unit) : M (bool * unit) :=
  bind (deref node0) (fun n =>
  if locked n then ret (false, tt)
  else bind (modify node0 (set_data x)) (fun _ => ret (true, tt))).

Definition iterator_update_weak (it : iterator) (x : A) : M bool :=
  bind (arrow (value it)) (fun c =>
  bind (update_weak N0 c (store_data x) tt) (fun '(r, _) => ret r)).

(** [iterator::update]: the fuel bounds how often the loop goes round
    again. *)
Fixpoint iterator_update (fuel : nat) (it : iterator) (x : A) : M bool :=
  bind (is_deleted it) (fun del =>
  if del then ret false
  else
    bind (iterator_update_weak it x) (fun r =>
    if r then ret true
    else
      match fuel with
      | O => timeout
      | S fuel' => iterator_update fuel' it x
      end)).

(** ** The list *)

(** The member [list]: the head node. *)
Record atomic_list : Type := mkList { list_head : node_ptr }.

(** [atomic_list() : list{ new atomic_node{} }] *)
Definition new_list : M atomic_list :=
  bind (new_cell (mkNode false false A0 None)) (fun c =>
  ret (mkList (Some c))).

(** The functor of [insert_after_weak]; it captures [node_new]. *)
Definition link_new (x : A) (node0 : ptr) (node_new : node_ptr)
  : M (bool * node_ptr) :=
  bind (deref node0) (fun n =>
  if locked n then ret (false, node_new)
  else
    bind (new_cell (mkNode false false x (next n))) (fun c =>
    bind (modify node0 (set_next (Some c))) (fun _ =>
    ret (true, Some c)))).

Definition insert_after_weak (pos : iterator) (x : A) : M iterator :=
  bind (arrow (value pos)) (fun c =>
  bind (update_weak N0 c (link_new x) None) (fun '(r, node_new) =>
  ret (if r then mkIterator node_new else empty_iterator))).

Definition push_front (l : atomic_list) (x : A) : M iterator :=
  insert_after_weak (mkIterator (list_head l)) x.

(** The inner functor of [erase_after_weak]: try to lock the node to be
    deleted; it captures [node_after]. *)
Definition lock_node (node0 : ptr) (node_after : node_ptr)
  : M (bool * node_ptr) :=
  bind (deref node0) (fun n =>
  if locked n then ret (false, node_after)
  else
    bind (modify node0 (set_locked true)) (fun _ =>
    bind (deref node0) (fun n' => ret (true, next n')))).

(** The outer functor, on the node before; it captures [node_next]. *)
Definition unlink_next (node0 : ptr) (node_next : node_ptr)
  : M (bool * node_ptr) :=
  bind (deref node0) (fun n =>
  if locked n then ret (false, node_next)
  else
    match next n with
    | None => ret (false, None)
    | Some victim =>
        bind (update_weak N0 victim lock_node None) (fun '(r, node_after) =>
        if negb r then ret (false, None)
        else
          bind (modify node0 (set_next node_after)) (fun _ =>
          ret (true, Some victim)))
    end).

(** The functors of the two strong updates. *)
Definition unlock_node (node0 : ptr) (_ : unit) : M (bool * unit) :=
  bind (modify node0 (set_locked false)) (fun _ => ret (true, tt)).

Definition mark_deleted (node0 : ptr) (_ : unit) : M (bool * unit) :=
  bind (modify node0 (set_deleted true)) (fun _ => ret (true, tt)).

(** The call of [update_weak] on the node before, with what it leaves
    in [node_next]. *)
Definition erase_outer (pos : iterator) : M (bool * node_ptr) :=
  bind (arrow (value pos)) (fun c =>
  update_weak N0 c unlink_next None).

Definition erase_after_weak (fuel : nat) (pos : iterator) : M iterator :=
  bind (erase_outer pos) (fun '(r, node_next) =>
  if negb r then
    match node_next with
    | Some victim =>
        bind (update N0 fuel victim unlock_node tt) (fun _ =>
        ret empty_iterator)
    | None => ret empty_iterator
    end
  else
    bind (arrow node_next) (fun victim =>
    bind (update N0 fuel victim mark_deleted tt) (fun _ =>
    ret (mkIterator node_next)))).

Definition empty (l : atomic_list) : M bool :=
  bind (arrow (list_head l)) (fun c =>
  bind (read_field c (fun n => bool_decide (is_Some (next n)))) (fun r =>
  ret (negb r))).

(** [pop_front]: [fuel] bounds how often the loop goes round again
    after a failed [erase_after_weak]; every strong update inside gets
    the same fuel. *)
Fixpoint pop_front_loop (fuel inner : nat) (l : atomic_list) (pos it : iterator)
  : M iterator :=
  bind (empty l) (fun e =>
  if e then ret it
  else
    bind (erase_after_weak inner pos) (fun it' =>
    if to_bool it' then ret it'
    else
      match fuel with
      | O => timeout
      | S fuel' => pop_front_loop fuel' inner l pos it'
      end)).

Definition pop_front (fuel inner : nat) (l : atomic_list) : M iterator :=
  pop_front_loop fuel inner l (mkIterator (list_head l)) empty_iterator.

Definition begin (l : atomic_list) : M iterator :=
  advance (mkIterator (list_head l)).

Definition end_ : iterator := empty_iterator.

(** [size]: the walk, [fuel] nodes long at most. *)
Fixpoint size_loop (fuel : nat) (it : iterator) (count : Z) : M Z :=
  if to_bool it then
    match fuel with
    | O => timeout
    | S fuel' =>
        bind (advance it) (fun it' => size_loop fuel' it' (wrap (count + 1)))
    end
  else ret count.

Definition size (fuel : nat) (l : atomic_list) : M Z :=
  bind (begin l) (fun it => size_loop fuel it 0).

(** [clear]: [while( pop_front() );] *)
Fixpoint clear (fuel inner : nat) (l : atomic_list) : M unit :=
  bind (pop_front fuel inner l) (fun it =>
  if to_bool it then
    match fuel with
    | O => timeout
    | S fuel' => clear fuel' inner l
    end
  else ret tt).

(** ** What the operations do *)
Section Verified.

Hypothesis HN0 : N0_ok N0.

Lemma read_field_eq {R} (c : cell) (field : node -> R) (s : state) n :
  counters_ok s -> value_of s c = Some n ->
  read_field c field s = Done (field n) s.
Proof.
  intros Hc Hn. destruct (value_of_cell s c n Hn) as (d & Hd & Hv).
  unfold read_field, read, bind at 1, counter_guard_ctor, bind at 1 2,
    load_right, inc, ret. simpl.
  unfold scope_exit, bind at 1, data_load. simpl. rewrite Hd.
  unfold bind, deref. simpl. rewrite Hv.
  unfold counter_guard_dtor, dec. simpl.
  f_equal. apply (unregister_register N0 s (right s) Hc).
Qed.

(** C9: [iterator::update] on a node whose [deleted] flag is set
    returns [false] at once and changes nothing, the [data] of the
    node included. *)
Theorem C9_update_deleted (fuel : nat) (c : cell) (x : A) (s : state) n :
  counters_ok s ->
  value_of s c = Some n ->
  deleted n = true ->
  iterator_update fuel (mkIterator (Some c)) x s = Done false s.
Proof.
  intros Hc Hn Hdel.
  destruct fuel; simpl; unfold bind at 1, is_deleted; simpl;
    rewrite (read_field_eq c deleted s n Hc Hn), Hdel; reflexivity.
Qed.

(** C10: [pop_front] on a list whose head has no successor returns
    the empty iterator, which converts to [false], without going into
    the loop (no fuel is needed) and changes nothing. *)
Theorem C10_pop_front_empty (fuel inner : nat) (l : atomic_list) (h : cell)
    (s : state) n :
  counters_ok s ->
  list_head l = Some h ->
  value_of s h = Some n ->
  next n = None ->
  empty l s = Done true s
  /\ pop_front fuel inner l s = Done empty_iterator s
  /\ to_bool empty_iterator = false.
Proof.
  intros Hc Hh Hn Hnext.
  assert (He : empty l s = Done true s).
  { unfold empty, bind at 1. rewrite Hh. simpl. unfold bind at 1.
    rewrite (read_field_eq h _ s n Hc Hn), Hnext. reflexivity. }
  split; [exact He |]. split; [| reflexivity].
  unfold pop_front. destruct fuel; simpl; unfold bind at 1; rewrite He;
    reflexivity.
Qed.

(** ** The invariants of the nodes

    Every [next] in an object refers to a cell; a published node that
    is [deleted] is [locked]; and from one state to a later one a
    published node that was [deleted] stays [deleted] and [locked]. *)
Definition links_ok (s : state) : Prop :=
  forall b m c,
    heap s !! b = Some m -> next m = Some c -> is_Some (cells s !! c).

Definition flags_ok (s : state) : Prop :=
  forall c n, value_of s c = Some n -> deleted n = true -> locked n = true.

Definition sticky (s s' : state) : Prop :=
  forall c n,
    value_of s c = Some n -> deleted n = true ->
    exists n', value_of s' c = Some n'
               /\ deleted n' = true /\ locked n' = true.

Definition list_inv (H : list addr) (s : state) : Prop :=
  pool N0 H s /\ links_ok s /\ flags_ok s.

(** [n'] may replace [n] in a cell. *)
Definition safe (n n' : node) : Prop :=
  next n' = next n
  /\ (deleted n' = true -> locked n' = true)
  /\ (deleted n = true -> deleted n' = true).

Lemma sticky_refl s : flags_ok s -> sticky s s.
Proof.
  intros Hf c n Hn Hd. exists n.
  split; [exact Hn |]. split; [exact Hd | apply (Hf c n Hn Hd)].
Qed.

Lemma sticky_trans s1 s2 s3 : sticky s1 s2 -> sticky s2 s3 -> sticky s1 s3.
Proof.
  intros H12 H23 c n Hn Hd.
  destruct (H12 c n Hn Hd) as (n2 & Hn2 & Hd2 & _).
  apply (H23 c n2 Hn2 Hd2).
Qed.

Lemma sticky_same s s' :
  flags_ok s -> (forall c, value_of s' c = value_of s c) -> sticky s s'.
Proof.
  intros Hf Hv c n Hn Hd. exists n. rewrite Hv.
  split; [exact Hn |]. split; [exact Hd | apply (Hf c n Hn Hd)].
Qed.

Lemma flags_ok_same s s' :
  flags_ok s -> (forall c, value_of s' c = value_of s c) -> flags_ok s'.
Proof. intros Hf Hv c n Hn. rewrite Hv in Hn. apply (Hf c n Hn). Qed.

Lemma value_in_heap (s : state) c n :
  value_of s c = Some n -> exists d, heap s !! d = Some n.
Proof.
  intros Hn. destruct (value_of_cell s c n Hn) as (d & _ & Hd). eauto.
Qed.

Lemma linked_value H s b m c :
  list_inv H s -> heap s !! b = Some m -> next m = Some c ->
  exists n, value_of s c = Some n.
Proof.
  intros (P & Hl & _) Hm Hc. destruct (Hl b m c Hm Hc) as [p Hp].
  destruct (pool_cells _ _ _ P c p Hp) as (d & -> & [n Hn]).
  exists n. unfold value_of. rewrite Hp. exact Hn.
Qed.

(** The functors that only work on their copy. *)
Definition lock_node_as (n : node) (node_after : node_ptr)
  : node * bool * node_ptr :=
  if locked n then (n, false, node_after)
  else (set_locked true n, true, next n).

Definition unlock_node_as (n : node) (_ : unit) : node * bool * unit :=
  (set_locked false n, true, tt).

Definition mark_deleted_as (n : node) (_ : unit) : node * bool * unit :=
  (set_deleted true n, true, tt).

Definition store_data_as (x : A) (n : node) (_ : unit) : node * bool * unit :=
  if locked n then (n, false, tt) else (set_data x n, true, tt).

Lemma lock_node_behaves : behaves lock_node lock_node_as.
Proof.
  intros a l s n Hn. unfold lock_node, lock_node_as, bind at 1, deref.
  rewrite Hn. destruct (locked n) eqn:El; simpl.
  - unfold ret. rewrite (set_heap_id s a n Hn). reflexivity.
  - unfold bind at 1, modify, bind at 1, deref. rewrite Hn.
    unfold assign. rewrite Hn. unfold bind, deref. simpl.
    rewrite lookup_insert_eq. reflexivity.
Qed.

Lemma unlock_node_behaves : behaves unlock_node unlock_node_as.
Proof.
  intros a [] s n Hn. unfold unlock_node, unlock_node_as, bind at 1, modify,
    bind at 1, deref. rewrite Hn. unfold assign. rewrite Hn. reflexivity.
Qed.

Lemma mark_deleted_behaves : behaves mark_deleted mark_deleted_as.
Proof.
  intros a [] s n Hn. unfold mark_deleted, mark_deleted_as, bind at 1, modify,
    bind at 1, deref. rewrite Hn. unfold assign. rewrite Hn. reflexivity.
Qed.

Lemma store_data_behaves x : behaves (store_data x) (store_data_as x).
Proof.
  intros a [] s n Hn. unfold store_data, store_data_as, bind at 1, deref.
  rewrite Hn. destruct (locked n) eqn:El; simpl.
  - unfold ret. rewrite (set_heap_id s a n Hn). reflexivity.
  - unfold bind at 1, modify, bind at 1, deref. rewrite Hn.
    unfold assign. rewrite Hn. reflexivity.
Qed.

(** A call of [update_weak] with such a functor keeps the invariants
    when what it may publish is safe. *)
Lemma local_post_inv {L} H this (g : node -> L -> node * bool * L) l n
    (s : state) rl s' :
  list_inv H s -> value_of s this = Some n ->
  local_post N0 H this g l n s rl s' ->
  next (fst (fst (g n l))) = next n ->
  (fst rl = true -> safe n (fst (fst (g n l)))) ->
  list_inv H s' /\ sticky s s'.
Proof.
  intros (P & Hl & Hf) Hn
         (P' & Hc' & Hv' & Hn' & Hh' & Hm' & Hlen & Hcs & Hr) Hnext Hsafe.
  assert (Hthis : exists n', value_of s' this = Some n'
                             /\ (n' = n \/ (fst rl = true /\ safe n n'))).
  { destruct (fst rl).
    - destruct Hr as (Hv & _). eexists. split; [exact Hv |]. auto.
    - destruct Hr as (Hv & _). eexists. split; [exact Hv |]. auto. }
  destruct Hthis as (n' & Hthis & Hn'cases).
  split; [split; [exact P' |]; split |].
  - intros b m c Hm Hc.
    assert (Hold : is_Some (cells s !! c)).
    { destruct (value_in_heap s this n Hn) as (d & Hd).
      destruct (Hm' b m Hm) as [Hm0 | [-> | ->]].
      - apply (Hl b m c Hm0 Hc).
      - apply (Hl d n c Hd Hc).
      - apply (Hl d n c Hd). congruence. }
    destruct Hold as [p Hp]. destruct (cells s' !! c) eqn:E; [eauto |].
    apply Hn' in E. congruence.
  - intros c n1 Hn1 Hd1. destruct (decide (c = this)) as [-> | Hne].
    + assert (n1 = n') by congruence. subst n1.
      destruct Hn'cases as [-> | [_ (_ & Hs & _)]]; [| auto].
      apply (Hf this n Hn Hd1).
    + rewrite Hv' in Hn1 by exact Hne. apply (Hf c n1 Hn1 Hd1).
  - intros c n1 Hn1 Hd1. destruct (decide (c = this)) as [-> | Hne].
    + assert (n1 = n) by congruence. subst n1. exists n'.
      split; [exact Hthis |].
      destruct Hn'cases as [-> | [_ (_ & Hs & Hk)]]; [| auto].
      split; [exact Hd1 | apply (Hf this n Hn Hd1)].
    + exists n1. rewrite Hv' by exact Hne.
      split; [exact Hn1 |]. split; [exact Hd1 | apply (Hf c n1 Hn1 Hd1)].
Qed.

(** The invariants along a call of [update_weak]. *)
Lemma inv_started H (s : state) c n0 a :
  list_inv H s -> value_of s c = Some n0 ->
  left s <> right s -> free_at N0 s 0 a ->
  list_inv (a :: H) (started N0 a n0 s)
  /\ (forall c', value_of (started N0 a n0 s) c' = value_of s c')
  /\ heap (started N0 a n0 s) !! a = Some n0.
Proof.
  intros (P & Hl & Hf) Hn Hne Ha.
  assert (Hv : forall c', value_of (started N0 a n0 s) c' = value_of s c').
  { intros c'. eapply value_of_started; eassumption. }
  split; [| split; [exact Hv | simpl; apply lookup_insert_eq]].
  split; [apply pool_started; assumption |]. split.
  - intros b m c' Hm Hc'. simpl in Hm |- *.
    destruct (decide (a = b)) as [-> | Hab].
    + rewrite lookup_insert_eq in Hm. injection Hm as <-.
      destruct (value_in_heap s c n0 Hn) as (d & Hd).
      apply (Hl d n0 c' Hd Hc').
    + rewrite lookup_insert_ne in Hm by exact Hab. apply (Hl b m c' Hm Hc').
  - apply (flags_ok_same s); assumption.
Qed.

Lemma inv_assign_held H (s : state) a m :
  list_inv (a :: H) s ->
  (forall c, next m = Some c -> is_Some (cells s !! c)) ->
  let s' := set_heap (<[a := m]> (heap s)) s in
  list_inv (a :: H) s'
  /\ (forall c, value_of s' c = value_of s c)
  /\ heap s' !! a = Some m.
Proof.
  intros (P & Hl & Hf) Hm s'.
  assert (Hv : forall c, value_of s' c = value_of s c).
  { intros c. eapply value_of_held. exact P. }
  split; [| split; [exact Hv | simpl; apply lookup_insert_eq]].
  split; [| split].
  - apply pool_assign; [| exact P]. apply (pool_held_obj _ _ _ P). left.
  - intros b m' c Hb Hc. simpl in Hb |- *.
    destruct (decide (a = b)) as [-> | Hab].
    + rewrite lookup_insert_eq in Hb. injection Hb as <-. apply Hm, Hc.
    + rewrite lookup_insert_ne in Hb by exact Hab. apply (Hl b m' c Hb Hc).
  - apply (flags_ok_same s); assumption.
Qed.

Lemma inv_finished H (s3 s3' : state) a qr :
  list_inv (a :: H) s3 ->
  cells s3' = cells s3 -> heap s3' = heap s3 -> pool N0 (a :: H) s3' ->
  list_inv H (finished N0 qr (Some a) s3')
  /\ (forall c, value_of (finished N0 qr (Some a) s3') c = value_of s3 c).
Proof.
  intros (P & Hl & Hf) Ec Eh P'.
  assert (Hv : forall c,
            value_of (finished N0 qr (Some a) s3') c = value_of s3 c).
  { intros c. unfold value_of. simpl. rewrite Ec, Eh. reflexivity. }
  split; [| exact Hv]. split; [apply pool_finished; assumption |]. split.
  - intros b m c. simpl. rewrite Ec, Eh. apply Hl.
  - apply (flags_ok_same s3); assumption.
Qed.

Lemma inv_published H (s3 : state) a d c qr m :
  list_inv (a :: H) s3 ->
  cells s3 !! c = Some (Some d) -> heap s3 !! a = Some m ->
  (deleted m = true -> locked m = true) ->
  let s' := finished N0 qr (Some d) (published c a (tail_cas s3)) in
  list_inv H s'
  /\ value_of s' c = Some m
  /\ (forall c', c' <> c -> value_of s' c' = value_of s3 c')
  /\ (forall c', cells s' !! c' = None <-> cells s3 !! c' = None).
Proof.
  intros (P & Hl & Hf) Hd Hm Hflag s'.
  assert (Hvc : value_of s' c = Some m).
  { unfold value_of. simpl. rewrite lookup_insert_eq. exact Hm. }
  assert (Hvo : forall c', c' <> c -> value_of s' c' = value_of s3 c').
  { intros c' Hne. unfold value_of. simpl.
    rewrite lookup_insert_ne by congruence. reflexivity. }
  assert (Hnone : forall c', cells s' !! c' = None <-> cells s3 !! c' = None).
  { intros c'. simpl. destruct (decide (c' = c)) as [-> | Hne].
    - rewrite lookup_insert_eq, Hd. split; discriminate.
    - rewrite lookup_insert_ne by congruence. tauto. }
  split; [| auto]. split; [| split].
  - apply pool_finished; [exact HN0 |].
    apply pool_publish; [apply pool_weak_cas, P | exact Hd].
  - intros b m' c' Hb Hc'. simpl in Hb.
    destruct (Hl b m' c' Hb Hc') as [p Hp].
    destruct (cells s' !! c') eqn:E; [eauto |].
    apply Hnone in E. congruence.
  - intros c' n1 Hn1 Hd1. destruct (decide (c' = c)) as [-> | Hne].
    + assert (n1 = m) by congruence. subst n1. auto.
    + rewrite Hvo in Hn1 by exact Hne. apply (Hf c' n1 Hn1 Hd1).
Qed.

Lemma counters_finished (s s3 : state) a v qr p :
  counters_ok s -> counters s3 = counters (started N0 a v s) ->
  qr = right s ->
  counters (finished N0 qr p s3) = counters s.
Proof.
  intros Hc E ->. unfold finished, unregister. simpl. rewrite E. simpl.
  apply counter_upd_inc_dec, Hc.
Qed.

(** ** [erase_after_weak] *)

(** What the call of [update_weak] on the node before leaves: nothing
    changed, or the victim locked and, when the call succeeded, the
    node before linked to the successor of the victim. *)
Definition outer_post (H : list addr) (c : cell) (n0 : node) (s : state)
    (rl : bool * node_ptr) (s' : state) : Prop :=
  list_inv H s'
  /\ counters s' = counters s
  /\ sticky s s'
  /\ (forall c', cells s' !! c' = None <-> cells s !! c' = None)
  /\ (length (weak_cas s') <= length (weak_cas s))%nat
  /\ match snd rl with
     | None => fst rl = false /\ forall c', value_of s' c' = value_of s c'
     | Some v =>
         locked n0 = false /\ next n0 = Some v
         /\ exists nv,
              value_of s v = Some nv /\ locked nv = false
              /\ value_of s' v = Some (set_locked true nv)
              /\ (forall c', c' <> v -> c' <> c ->
                             value_of s' c' = value_of s c')
              /\ if fst rl
                 then c <> v
                      /\ value_of s' c = Some (set_next (next nv) n0)
                 else c <> v -> value_of s' c = Some n0
     end.

Lemma erase_outer_eq c (s : state) :
  erase_outer (mkIterator (Some c)) s = update_weak N0 c unlink_next None s.
Proof. reflexivity. Qed.

(** The call gave up before it changed a node. *)
Lemma outer_post_none H c n0 (s s3 s3' : state) a :
  list_inv H s -> free_at N0 s 0 a -> left s <> right s ->
  list_inv (a :: H) s3 ->
  cells s3' = cells s3 -> heap s3' = heap s3 -> pool N0 (a :: H) s3' ->
  counters s3' = counters (started N0 a n0 s) ->
  (length (weak_cas s3') <= length (weak_cas s))%nat ->
  (forall c', value_of s3 c' = value_of s c') ->
  (forall c', cells s3 !! c' = None <-> cells s !! c' = None) ->
  outer_post H c n0 s (false, None) (finished N0 (right s) (Some a) s3').
Proof.
  intros Inv Ha Hne Inv3 Ec Eh P3' Ecnt Hlen Hv Hnone.
  destruct (inv_finished H s3 s3' a (right s) Inv3 Ec Eh P3') as [Inv' Hv'].
  assert (Hvs : forall c',
            value_of (finished N0 (right s) (Some a) s3') c' = value_of s c').
  { intros c'. rewrite Hv'. apply Hv. }
  split; [exact Inv' |].
  split; [eapply counters_finished;
          [apply (pool_counters _ _ _ (proj1 Inv)) | exact Ecnt | reflexivity] |].
  split; [apply sticky_same; [apply Inv | exact Hvs] |].
  split; [intros c'; simpl; rewrite Ec; apply Hnone |].
  split; [exact Hlen |]. simpl. auto.
Qed.

Lemma lock_node_as_next nv (l : node_ptr) :
  next (fst (fst (lock_node_as nv l))) = next nv.
Proof. unfold lock_node_as. destruct (locked nv); reflexivity. Qed.

Lemma lock_node_as_safe nv (l : node_ptr) :
  (deleted nv = true -> locked nv = true) ->
  safe nv (fst (fst (lock_node_as nv l))).
Proof.
  intros Hf. unfold lock_node_as, safe.
  destruct (locked nv) eqn:El; simpl; auto.
Qed.

Lemma lock_node_as_accepts nv (l : node_ptr) :
  snd (fst (lock_node_as nv l)) = true ->
  locked nv = false
  /\ lock_node_as nv l = (set_locked true nv, true, next nv).
Proof.
  unfold lock_node_as. destruct (locked nv); simpl; [discriminate | auto].
Qed.

Lemma erase_outer_spec tm H c (s : state) n0 :
  list_inv H s -> value_of s c = Some n0 ->
  wp tm (erase_outer (mkIterator (Some c))) (outer_post H c n0 s)
    (fun _ => False) s.
Proof.
  intros Inv Hn. pose proof Inv as (P & Hl & Hf).
  destruct (value_of_cell s c n0 Hn) as (d & Hd & Hv).
  assert (W : wp tm (update_weak N0 c unlink_next None) (outer_post H c n0 s)
                (fun _ => False) s); [| exact W].
  apply (wp_update_weak N0 HN0 tm H c unlink_next None s d n0);
    try assumption.
  - intros _. split; [exact Inv |]. split; [reflexivity |].
    split; [apply sticky_refl, Hf |]. split; [tauto |]. split; [lia |].
    simpl. auto.
  - intros o _ Ho. split; [| split; [reflexivity |]; split; [| split]].
    + split; [apply pool_weak_cas, P | split; assumption].
    + apply sticky_same; [exact Hf | reflexivity].
    + tauto.
    + split; [simpl; rewrite Ho; simpl; lia |]. simpl. auto.
  - intros a Hcan Hs Ha P1.
    destruct (inv_started H s c n0 a Inv Hn (proj1 Hcan) Ha)
      as (Inv1 & Hv1 & Ha1).
    assert (Hlen1 : (length (weak_cas (started N0 a n0 s))
                     <= length (weak_cas s))%nat) by apply length_tail_cas.
    assert (Hnone1 : forall c', cells (started N0 a n0 s) !! c' = None
                                <-> cells s !! c' = None) by (intros; tauto).
    (* the functor vetoes without a call of its own *)
    assert (Hveto : wp tm (ret (false, None))
      (fun rl s2 =>
         pool N0 (a :: H) s2
         /\ (if fst rl
             then
               is_Some (cells s2 !! c)
               /\ (forall o, weak_cas s2 = true :: o ->
                     outer_post H c n0 s (false, snd rl)
                       (finished N0 (right s) (Some a) (set_weak_cas o s2)))
               /\ (cas_strong s2 -> cells s2 !! c = Some (Some d) ->
                     outer_post H c n0 s (true, snd rl)
                       (finished N0 (right s) (Some d)
                          (published c a (tail_cas s2))))
               /\ (cas_strong s2 -> cells s2 !! c <> Some (Some d) ->
                     outer_post H c n0 s (false, snd rl)
                       (finished N0 (right s) (Some a) (tail_cas s2)))
             else outer_post H c n0 s (false, snd rl)
                    (finished N0 (right s) (Some a) s2)))
      (fun s2 => pool N0 (a :: H) s2 /\ False) (started N0 a n0 s)).
    { apply wp_ret. split; [exact P1 |]. simpl.
      apply (outer_post_none H c n0 s (started N0 a n0 s)); auto.
      apply (proj1 Hcan). }
    unfold wp at 1, unlink_next, bind at 1, deref. rewrite Ha1.
    destruct (locked n0) eqn:El0; [exact Hveto |].
    destruct (next n0) as [v |] eqn:Enx; [| exact Hveto].
    clear Hveto.
    destruct (linked_value H s d n0 v Inv Hv Enx) as [nv Hnv].
    assert (Hnv1 : value_of (started N0 a n0 s) v = Some nv)
      by (rewrite Hv1; exact Hnv).
    pose proof (update_weak_local N0 HN0 tm (a :: H) v lock_node lock_node_as
                  None (started N0 a n0 s) nv lock_node_behaves
                  (proj1 Inv1) Hnv1) as Winner.
    unfold wp in Winner. unfold bind at 1.
    destruct (update_weak N0 v lock_node None (started N0 a n0 s))
      as [[r node_after] s2 | s2 | |]; [| contradiction | contradiction
                                        | exact Winner].
    destruct (local_post_inv (a :: H) v lock_node_as None nv
                (started N0 a n0 s) (r, node_after) s2 Inv1 Hnv1 Winner)
      as [Inv2 Hst2].
    { apply lock_node_as_next. }
    { intros _. apply lock_node_as_safe. apply (proj2 (proj2 Inv1) v nv Hnv1). }
    destruct Winner as (P2 & Hc2 & Hv2 & Hn2 & Hh2 & Hm2 & Hl2 & Hcs2 & Hr).
    assert (Hnone2 : forall c', cells s2 !! c' = None <-> cells s !! c' = None).
    { intros c'. rewrite Hn2. tauto. }
    destruct r; simpl in Hr |- *.
    2: { (* the victim could not be locked *)
         destruct Hr as (Hvv & _ & _ & Ecs).
         split; [exact P2 |]. simpl.
         apply (outer_post_none H c n0 s s2); auto.
         - apply (proj1 Hcan).
         - lia.
         - intros c'. destruct (decide (c' = v)) as [-> | Hne].
           + rewrite Hvv. symmetry. exact Hnv.
           + rewrite Hv2 by exact Hne. apply Hv1. }
    destruct Hr as (Hvv & Hacc & Hafter & Hmoved).
    destruct (lock_node_as_accepts nv None Hacc) as [Elv Elock].
    rewrite Elock in Hvv, Hafter. simpl in Hvv, Hafter. subst node_after.
    assert (Ha2 : heap s2 !! a = Some n0).
    { rewrite Hh2 by left. exact Ha1. }
    unfold bind at 1, modify, bind at 1, deref. rewrite Ha2.
    unfold assign. rewrite Ha2. unfold ret.
    set (s3 := set_heap (<[a := set_next (next nv) n0]> (heap s2)) s2).
    destruct (inv_assign_held H s2 a (set_next (next nv) n0) Inv2)
      as (Inv3 & Hv3 & Ha3).
    { intros c' Hc'. simpl in Hc'.
      destruct (value_in_heap s v nv Hnv) as (dv & Hdv).
      destruct (Hl dv nv c' Hdv Hc') as [p Hp].
      destruct (cells s2 !! c') eqn:E; [eauto |].
      apply Hnone2 in E. congruence. }
    fold s3 in Inv3, Hv3, Ha3.
    (* the views of the nodes in [s3] *)
    assert (Hvv3 : value_of s3 v = Some (set_locked true nv))
      by (rewrite Hv3; exact Hvv).
    assert (Hvo3 : forall c', c' <> v -> value_of s3 c' = value_of s c').
    { intros c' Hne. rewrite Hv3, Hv2 by exact Hne. apply Hv1. }
    assert (Hcnt3 : counters s3 = counters (started N0 a n0 s)) by exact Hc2.
    assert (Hlen3 : (length (weak_cas s3) <= length (weak_cas s))%nat)
      by (simpl; lia).
    (* the call failed with the victim locked *)
    assert (Hlocked : forall s3' : state,
      cells s3' = cells s3 -> heap s3' = heap s3 ->
      pool N0 (a :: H) s3' -> counters s3' = counters s3 ->
      (length (weak_cas s3') <= length (weak_cas s3))%nat ->
      outer_post H c n0 s (false, Some v)
        (finished N0 (right s) (Some a) s3')).
    { intros s3' Ec Eh P3' Ecnt Hlen.
      destruct (inv_finished H s3 s3' a (right s) Inv3 Ec Eh P3')
        as [Inv' Hv'].
      split; [exact Inv' |].
      split; [eapply counters_finished;
              [apply (pool_counters _ _ _ P) | rewrite Ecnt; exact Hcnt3
              | reflexivity] |].
      split.
      { intros c' n1 Hn1 Hd1. destruct (decide (c' = v)) as [-> | Hne].
        - assert (n1 = nv) by congruence. subst n1.
          pose proof (Hf v nv Hnv Hd1). congruence.
        - exists n1. rewrite Hv', Hvo3 by exact Hne.
          split; [exact Hn1 |]. split; [exact Hd1 | apply (Hf c' n1 Hn1 Hd1)]. }
      split; [intros c'; simpl; rewrite Ec; apply Hnone2 |].
      split; [change (weak_cas (finished N0 (right s) (Some a) s3'))
                with (weak_cas s3'); lia |].
      simpl.
      split; [exact El0 |]. split; [exact Enx |].
      exists nv. split; [exact Hnv |]. split; [exact Elv |].
      split; [rewrite Hv'; exact Hvv3 |].
      split; [intros c' Hne _; rewrite Hv'; apply Hvo3, Hne |].
      intros Hne. rewrite Hv', Hvo3 by exact Hne. exact Hn. }
    split; [apply (proj1 Inv3) |]. simpl.
    split.
    { destruct (cells s2 !! c) eqn:E; [eauto |].
      apply Hnone2 in E. congruence. }
    split; [| split].
    + intros o Ho. apply Hlocked; auto.
      * apply pool_weak_cas, Inv3.
      * simpl. simpl in Ho. rewrite Ho. simpl. lia.
    + intros Hs3 Hd3.
      assert (Hcv : c <> v).
      { intros ->. apply Hmoved. simpl in Hd3. rewrite Hd3.
        symmetry. exact Hd. }
      destruct (inv_published H s3 a d c (right s) (set_next (next nv) n0)
                  Inv3 Hd3 Ha3) as (Inv' & Hvc' & Hvo' & Hnone').
      { simpl. intros Hdel. rewrite El0. exfalso.
        pose proof (Hf c n0 Hn Hdel). congruence. }
      split; [exact Inv' |].
      split; [eapply counters_finished;
              [apply (pool_counters _ _ _ P) | exact Hcnt3 | reflexivity] |].
      split.
      { intros c' n1 Hn1 Hd1. destruct (decide (c' = c)) as [-> | Hnc].
        - assert (n1 = n0) by congruence. subst n1.
          pose proof (Hf c n0 Hn Hd1). congruence.
        - destruct (decide (c' = v)) as [-> | Hnv'].
          + assert (n1 = nv) by congruence. subst n1.
            pose proof (Hf v nv Hnv Hd1). congruence.
          + exists n1. rewrite Hvo', Hvo3 by assumption.
            split; [exact Hn1 |].
            split; [exact Hd1 | apply (Hf c' n1 Hn1 Hd1)]. }
      split; [intros c'; rewrite Hnone'; apply Hnone2 |].
      split; [pose proof (length_tail_cas s3); simpl in *; lia |]. simpl.
      split; [exact El0 |]. split; [exact Enx |].
      exists nv. split; [exact Hnv |]. split; [exact Elv |].
      split; [rewrite Hvo' by congruence; exact Hvv3 |].
      split; [intros c' Hne Hne'; rewrite Hvo' by exact Hne';
              apply Hvo3, Hne |].
      split; [exact Hcv | exact Hvc'].
    + intros Hs3 Hd3. apply Hlocked; auto.
      * apply pool_weak_cas, Inv3.
      * apply (length_tail_cas s3).
Qed.

Lemma strong_post_inv H this n n' (s s' : state) :
  list_inv H s -> value_of s this = Some n ->
  strong_post N0 H this n n' s s' -> safe n n' ->
  list_inv H s' /\ sticky s s'.
Proof.
  intros (P & Hl & Hf) Hn
         (P' & Hc' & Hv' & Hn' & Hh' & Hm' & Hlen & Hthis)
         (Hnext & Hflag & Hkeep).
  split; [split; [exact P' |]; split |].
  - intros b m c Hm Hc.
    assert (Hold : is_Some (cells s !! c)).
    { destruct (value_in_heap s this n Hn) as (d & Hd).
      destruct (Hm' b m Hm) as [Hm0 | [-> | ->]].
      - apply (Hl b m c Hm0 Hc).
      - apply (Hl d n c Hd Hc).
      - apply (Hl d n c Hd). congruence. }
    destruct Hold as [p Hp]. destruct (cells s' !! c) eqn:E; [eauto |].
    apply Hn' in E. congruence.
  - intros c n1 Hn1 Hd1. destruct (decide (c = this)) as [-> | Hne].
    + assert (n1 = n') by congruence. subst n1. auto.
    + rewrite Hv' in Hn1 by exact Hne. apply (Hf c n1 Hn1 Hd1).
  - intros c n1 Hn1 Hd1. destruct (decide (c = this)) as [-> | Hne].
    + assert (n1 = n) by congruence. subst n1. exists n'. auto.
    + exists n1. rewrite Hv' by exact Hne.
      split; [exact Hn1 |]. split; [exact Hd1 | apply (Hf c n1 Hn1 Hd1)].
Qed.

Lemma unlock_locked nv :
  locked nv = false -> set_locked false (set_locked true nv) = nv.
Proof. destruct nv as [l d x nx]. simpl. intros ->. reflexivity. Qed.

(** What [erase_after_weak] leaves: on success the victim unlinked,
    locked and deleted; otherwise every published node as before. *)
Definition erase_post (H : list addr) (c : cell) (n0 : node) (s : state)
    (it : iterator) (s' : state) : Prop :=
  list_inv H s'
  /\ counters s' = counters s
  /\ sticky s s'
  /\ (forall c', cells s' !! c' = None <-> cells s !! c' = None)
  /\ (length (weak_cas s') <= length (weak_cas s))%nat
  /\ match value it with
     | Some v =>
         locked n0 = false /\ next n0 = Some v /\ c <> v
         /\ exists nv,
              value_of s v = Some nv /\ locked nv = false
              /\ value_of s' v = Some (set_deleted true (set_locked true nv))
              /\ value_of s' c = Some (set_next (next nv) n0)
              /\ (forall c', c' <> v -> c' <> c ->
                             value_of s' c' = value_of s c')
     | None => forall c', value_of s' c' = value_of s c'
     end.

Lemma erase_after_weak_spec tm fuel H c (s : state) n0 :
  list_inv H s -> value_of s c = Some n0 ->
  tm \/ (H = [] /\ counters s = (0, 0)
         /\ (length (weak_cas s) <= fuel)%nat) ->
  wp tm (erase_after_weak fuel (mkIterator (Some c))) (erase_post H c n0 s)
    (fun _ => False) s.
Proof.
  intros Inv Hn Htm. pose proof Inv as (P & Hl & Hf).
  unfold erase_after_weak. apply wp_bind.
  eapply wp_mono; [| | apply (erase_outer_spec tm H c s n0 Inv Hn)];
    [| intros ? []].
  intros [r node_next] s1 (Inv1 & Hc1 & Hst1 & Hnone1 & Hlen1 & Hcase).
  simpl in Hcase.
  assert (Htm1 : tm \/ (H = [] /\ counters s1 = (0, 0)
                        /\ (length (weak_cas s1) <= fuel)%nat)).
  { destruct Htm as [? | (? & ? & ?)]; [left; assumption | right].
    split; [assumption |]. split; [congruence | lia]. }
  destruct node_next as [v |].
  2: { destruct Hcase as [-> Hv]. simpl. apply wp_ret.
       split; [exact Inv1 |]. split; [exact Hc1 |]. split; [exact Hst1 |].
       split; [exact Hnone1 |]. split; [exact Hlen1 |]. exact Hv. }
  destruct Hcase as (El0 & Enx & nv & Hnv & Elv & Hv1 & Hvo1 & Hcase).
  destruct r; simpl.
  - (* unlinked: mark the victim as deleted *)
    destruct Hcase as [Hcv Hc1'].
    apply wp_bind. apply wp_ret. apply wp_bind.
    eapply wp_mono;
      [| | apply (update_local N0 HN0 tm fuel H v mark_deleted
                    mark_deleted_as mark_deleted_behaves
                    (fun _ => eq_refl) s1 (set_locked true nv)
                    (proj1 Inv1) Hv1 Htm1)];
      [| intros ? []].
    intros [] s2 Hpost. apply wp_ret.
    destruct (strong_post_inv H v _ _ s1 s2 Inv1 Hv1 Hpost) as [Inv2 Hst2].
    { split; [reflexivity |]. split; [reflexivity |]. reflexivity. }
    destruct Hpost as (P2 & Hc2 & Hv2 & Hn2 & _ & _ & Hl2 & Hthis).
    split; [exact Inv2 |]. split; [congruence |].
    split; [eapply sticky_trans; eassumption |].
    split; [intros c'; rewrite Hn2; apply Hnone1 |].
    split; [lia |]. simpl.
    split; [exact El0 |]. split; [exact Enx |]. split; [exact Hcv |].
    exists nv. split; [exact Hnv |]. split; [exact Elv |].
    split; [exact Hthis |].
    split; [rewrite Hv2 by exact Hcv; exact Hc1' |].
    intros c' Hne Hne'. rewrite Hv2 by exact Hne. apply Hvo1; assumption.
  - (* not unlinked: unlock the victim *)
    apply wp_bind.
    eapply wp_mono;
      [| | apply (update_local N0 HN0 tm fuel H v unlock_node
                    unlock_node_as unlock_node_behaves
                    (fun _ => eq_refl) s1 (set_locked true nv)
                    (proj1 Inv1) Hv1 Htm1)];
      [| intros ? []].
    intros [] s2 Hpost. apply wp_ret.
    assert (Hndel : deleted nv = false).
    { destruct (deleted nv) eqn:E; [| reflexivity].
      pose proof (Hf v nv Hnv E). congruence. }
    destruct (strong_post_inv H v _ _ s1 s2 Inv1 Hv1 Hpost) as [Inv2 Hst2].
    { split; [reflexivity |].
      split; simpl; intros E; rewrite Hndel in E; discriminate E. }
    destruct Hpost as (P2 & Hc2 & Hv2 & Hn2 & _ & _ & Hl2 & Hthis).
    simpl in Hthis. rewrite (unlock_locked nv Elv) in Hthis.
    split; [exact Inv2 |]. split; [congruence |].
    split; [eapply sticky_trans; eassumption |].
    split; [intros c'; rewrite Hn2; apply Hnone1 |].
    split; [lia |]. simpl.
    intros c'. destruct (decide (c' = v)) as [-> | Hne].
    + rewrite Hthis. symmetry. exact Hnv.
    + rewrite Hv2 by exact Hne.
      destruct (decide (c' = c)) as [-> | Hne'].
      * rewrite Hcase by congruence. symmetry. exact Hn.
      * apply Hvo1; assumption.
Qed.

(** C7: after the call of [update_weak] on the node before [pos]
    - when it failed with [node_next] set, the victim, the successor
      of [pos], is locked; [erase_after_weak] then runs the strong
      update that resets [locked] and returns the empty iterator: the
      node then reads [locked = false], its other fields as they were;
    - when it succeeded, [erase_after_weak] runs the strong update
      that sets [deleted] on the victim and returns an iterator to it:
      the node then reads [deleted = true] and [locked = true], its
      data and its link as they were;
    - when it failed with [node_next] empty, [erase_after_weak] returns
      the empty iterator at once.
    The fuel has to cover the spurious failures left in the oracle. *)
Theorem C7_erase_after_weak (fuel : nat) (c : cell) (s : state) n0
    (r : bool) (node_next : node_ptr) (s1 : state) :
  quiescent N0 s -> links_ok s -> flags_ok s ->
  value_of s c = Some n0 ->
  erase_outer (mkIterator (Some c)) s = Done (r, node_next) s1 ->
  (length (weak_cas s1) <= fuel)%nat ->
  match node_next with
  | Some v =>
      next n0 = Some v
      /\ exists nv s2,
           value_of s1 v = Some nv /\ locked nv = true
           /\ erase_after_weak fuel (mkIterator (Some c)) s
              = Done (if r then mkIterator (Some v) else empty_iterator) s2
           /\ value_of s2 v
              = Some (if r then set_deleted true nv else set_locked false nv)
           /\ (exists n',
                 value_of s2 v = Some n'
                 /\ deleted n' = (if r then true else deleted nv)
                 /\ locked n' = (if r then true else false)
                 /\ data n' = data nv /\ next n' = next nv)
           /\ (forall c', c' <> v -> value_of s2 c' = value_of s1 c')
  | None =>
      r = false
      /\ erase_after_weak fuel (mkIterator (Some c)) s
         = Done empty_iterator s1
  end.
Proof.
  intros [P Hc0] Hl Hf Hn Hrun Hfuel.
  assert (Inv : list_inv [] s) by (split; [exact P | split; assumption]).
  pose proof (wp_done _ _ _ _ _ _ _
                (erase_outer_spec False [] c s n0 Inv Hn) Hrun)
    as (Inv1 & Hc1 & _ & _ & _ & Hcase).
  simpl in Hcase.
  assert (Hq1 : False \/ ([] = @nil positive /\ counters s1 = (0, 0)
                          /\ (length (weak_cas s1) <= fuel)%nat)).
  { right. split; [reflexivity |]. split; [congruence | exact Hfuel]. }
  assert (Heq : forall k : bool * node_ptr -> M iterator,
            bind (erase_outer (mkIterator (Some c))) k s
            = k (r, node_next) s1).
  { intros k. unfold bind. rewrite Hrun. reflexivity. }
  unfold erase_after_weak. rewrite Heq. clear Heq.
  destruct node_next as [v |].
  2: { destruct Hcase as [-> _]. split; reflexivity. }
  destruct Hcase as (_ & Enx & nv & Hnv & Elv & Hv1 & _ & _).
  split; [exact Enx |]. exists (set_locked true nv).
  destruct r; simpl.
  - destruct (wp_total _ _ _ _
                (update_local N0 HN0 False fuel [] v mark_deleted
                   mark_deleted_as mark_deleted_behaves (fun _ => eq_refl)
                   s1 (set_locked true nv) (proj1 Inv1) Hv1 Hq1))
      as [([] & s2 & Hup & Hpost) | (? & _ & [])].
    exists s2. split; [exact Hv1 |]. split; [reflexivity |].
    unfold bind, ret. rewrite Hup.
    destruct Hpost as (_ & _ & Hv2 & _ & _ & _ & _ & Hthis).
    split; [reflexivity |]. split; [exact Hthis |].
    split; [| exact Hv2].
    eexists. split; [exact Hthis |]. simpl.
    split; [reflexivity |]. split; [reflexivity |]. split; reflexivity.
  - destruct (wp_total _ _ _ _
                (update_local N0 HN0 False fuel [] v unlock_node
                   unlock_node_as unlock_node_behaves (fun _ => eq_refl)
                   s1 (set_locked true nv) (proj1 Inv1) Hv1 Hq1))
      as [([] & s2 & Hup & Hpost) | (? & _ & [])].
    exists s2. split; [exact Hv1 |]. split; [reflexivity |].
    unfold bind, ret. rewrite Hup.
    destruct Hpost as (_ & _ & Hv2 & _ & _ & _ & _ & Hthis).
    split; [reflexivity |]. split; [exact Hthis |].
    split; [| exact Hv2].
    eexists. split; [exact Hthis |]. simpl.
    split; [reflexivity |]. split; [reflexivity |]. split; reflexivity.
Qed.

(** ** The other operations *)

(** What an operation leaves, beyond what it returns: the invariants,
    the counters as before, deleted nodes still deleted and locked,
    and no cell gone. *)
Definition op_post (H : list addr) (s s' : state) : Prop :=
  list_inv H s'
  /\ counters s' = counters s
  /\ sticky s s'
  /\ (forall c, cells s' !! c = None -> cells s !! c = None)
  /\ (length (weak_cas s') <= length (weak_cas s))%nat.

Lemma op_post_refl H (s : state) : list_inv H s -> op_post H s s.
Proof.
  intros Inv. split; [exact Inv |]. split; [reflexivity |].
  split; [apply sticky_refl, Inv |]. split; [auto | lia].
Qed.

Lemma op_post_trans H (s1 s2 s3 : state) :
  op_post H s1 s2 -> op_post H s2 s3 -> op_post H s1 s3.
Proof.
  intros (_ & Hc12 & Hs12 & Hn12 & Hl12) (Inv3 & Hc23 & Hs23 & Hn23 & Hl23).
  split; [exact Inv3 |]. split; [congruence |].
  split; [eapply sticky_trans; eassumption |]. split; [auto | lia].
Qed.

Lemma op_post_value H (s s' : state) c :
  list_inv H s -> op_post H s s' ->
  is_Some (value_of s c) -> is_Some (value_of s' c).
Proof.
  intros _ ((P' & _ & _) & _ & _ & Hnone & _) [n Hn].
  destruct (value_of_cell s c n Hn) as (d & Hd & _).
  destruct (cells s' !! c) as [p |] eqn:E.
  - destruct (pool_cells _ _ _ P' c p E) as (d' & -> & [n' Hn']).
    exists n'. unfold value_of. rewrite E. exact Hn'.
  - apply Hnone in E. congruence.
Qed.

Lemma erase_post_op H c n0 (s : state) it s' :
  erase_post H c n0 s it s' -> op_post H s s'.
Proof.
  intros (Inv & Hc & Hs & Hn & Hl & _).
  split; [exact Inv |]. split; [exact Hc |]. split; [exact Hs |].
  split; [intros c'; apply Hn | exact Hl].
Qed.

(** A new cell for a node that is neither locked nor deleted. *)
Lemma inv_new_cell H (s : state) x nx c s' :
  list_inv H s ->
  (forall c', nx = Some c' -> is_Some (cells s !! c')) ->
  new_cell (mkNode false false x nx) s = Done c s' ->
  list_inv H s'
  /\ cells s !! c = None
  /\ is_Some (cells s' !! c)
  /\ (forall c', c' <> c -> value_of s' c' = value_of s c')
  /\ (forall c', c' <> c -> cells s' !! c' = cells s !! c')
  /\ (forall b, is_Some (heap s !! b) -> heap s' !! b = heap s !! b)
  /\ counters s' = counters s /\ weak_cas s' = weak_cas s.
Proof.
  intros (P & Hl & Hf) Hnx Hnew.
  destruct (pool_new_cell N0 H s _ c s' P Hnew)
    as (P' & Hc & Hv & Hcs & Hh & _ & _ & _ & Hcnt & Ho).
  assert (Hvo : forall c', c' <> c -> value_of s' c' = value_of s c').
  { intros c' Hne. unfold value_of. rewrite Hcs by exact Hne.
    destruct (cells s !! c') as [[d |] |] eqn:E; try reflexivity.
    apply Hh. destruct (pool_cells _ _ _ P c' _ E) as (d' & Ed & Hd).
    injection Ed as <-. exact Hd. }
  assert (Hsome : is_Some (cells s' !! c)).
  { destruct (value_of_cell s' c _ Hv) as (d & Hd & _). eauto. }
  assert (Hkeep : forall c', is_Some (cells s !! c') ->
                             is_Some (cells s' !! c')).
  { intros c' Hc'. destruct (decide (c' = c)) as [-> | Hne];
      [exact Hsome | rewrite Hcs by exact Hne; exact Hc']. }
  split; [| auto 10]. split; [exact P' |]. split.
  - intros b m c' Hm Hc'. rewrite new_cell_eq in Hnew.
    injection Hnew as <- <-. simpl in Hm.
    destruct (decide (fresh (dom (heap s)) = b)) as [<- | Hne].
    + rewrite lookup_insert_eq in Hm. injection Hm as <-. simpl in Hc'.
      apply Hkeep, Hnx, Hc'.
    + rewrite lookup_insert_ne in Hm by exact Hne.
      apply Hkeep. apply (Hl b m c' Hm Hc').
  - intros c' n Hn Hd. destruct (decide (c' = c)) as [-> | Hne].
    + rewrite Hv in Hn. injection Hn as <-. discriminate Hd.
    + rewrite Hvo in Hn by exact Hne. apply (Hf c' n Hn Hd).
Qed.

Lemma sticky_old (s s' : state) :
  flags_ok s ->
  (forall c n, value_of s c = Some n -> value_of s' c = Some n) ->
  sticky s s'.
Proof.
  intros Hf Hv c n Hn Hd. exists n.
  split; [apply Hv, Hn |]. split; [exact Hd | apply (Hf c n Hn Hd)].
Qed.

(** The call of [update_weak] gave its element back and published
    nothing. *)
Lemma op_post_finished H (s s3 s3' : state) a n0 :
  list_inv H s ->
  list_inv (a :: H) s3 ->
  cells s3' = cells s3 -> heap s3' = heap s3 -> pool N0 (a :: H) s3' ->
  counters s3' = counters (started N0 a n0 s) ->
  (length (weak_cas s3') <= length (weak_cas s))%nat ->
  (forall c n, value_of s c = Some n -> value_of s3 c = Some n) ->
  (forall c, cells s3 !! c = None -> cells s !! c = None) ->
  op_post H s (finished N0 (right s) (Some a) s3').
Proof.
  intros Inv Inv3 Ec Eh P3' Ecnt Hlen Hv Hnone.
  destruct (inv_finished H s3 s3' a (right s) Inv3 Ec Eh P3') as [Inv' Hv'].
  split; [exact Inv' |].
  split; [eapply counters_finished;
          [apply (pool_counters _ _ _ (proj1 Inv)) | exact Ecnt
          | reflexivity] |].
  split; [apply sticky_old; [apply Inv |];
          intros c n Hn; rewrite Hv'; apply Hv, Hn |].
  split; [intros c; simpl; rewrite Ec; apply Hnone | exact Hlen].
Qed.

Lemma insert_after_weak_spec tm H c (s : state) n0 x :
  list_inv H s -> value_of s c = Some n0 ->
  wp tm (insert_after_weak (mkIterator (Some c)) x)
    (fun _ s' => op_post H s s') (fun _ => False) s.
Proof.
  intros Inv Hn. pose proof Inv as (P & Hl & Hf).
  destruct (value_of_cell s c n0 Hn) as (d & Hd & Hv).
  unfold insert_after_weak. apply wp_bind. apply wp_ret. apply wp_bind.
  assert (W : wp tm (update_weak N0 c (link_new x) None)
                (fun _ s' => op_post H s s') (fun _ => False) s).
  2: { eapply wp_mono; [| | exact W]; [| intros ? []].
       intros [r nn] s' Hpost. apply wp_ret. exact Hpost. }
  apply (wp_update_weak N0 HN0 tm H c (link_new x) None s d n0);
    try assumption.
  - intros _. apply op_post_refl, Inv.
  - intros o _ Ho. split; [| split; [reflexivity |]; split; [| split]].
    + split; [apply pool_weak_cas, P | split; assumption].
    + apply sticky_old; [exact Hf | auto].
    + auto.
    + simpl. rewrite Ho. simpl. lia.
  - intros a Hcan Hs Ha P1.
    destruct (inv_started H s c n0 a Inv Hn (proj1 Hcan) Ha)
      as (Inv1 & Hv1 & Ha1).
    assert (Hlen1 : (length (weak_cas (started N0 a n0 s))
                     <= length (weak_cas s))%nat) by apply length_tail_cas.
    unfold wp at 1, link_new, bind at 1, deref. rewrite Ha1.
    destruct (locked n0) eqn:El0.
    { unfold ret. split; [exact P1 |]. simpl.
      apply (op_post_finished H s (started N0 a n0 s) _ a n0); auto.
      intros c' n Hc'. rewrite Hv1. exact Hc'. }
    unfold bind at 1.
    destruct (new_cell (mkNode false false x (next n0)) (started N0 a n0 s))
      as [cn s2 | | |] eqn:Hnew;
      try (rewrite new_cell_eq in Hnew; discriminate Hnew).
    destruct (inv_new_cell (a :: H) (started N0 a n0 s) x (next n0) cn s2
                Inv1) as (Inv2 & Hcn & Hcn2 & Hv2 & Hcs2 & Hh2 & Hc2 & Ho2);
      [| exact Hnew |].
    { intros c' Hc'. apply (proj1 (proj2 Inv1) a n0 c' Ha1 Hc'). }
    assert (Ha2 : heap s2 !! a = Some n0).
    { rewrite Hh2; [exact Ha1 | rewrite Ha1; eauto]. }
    unfold bind at 1, modify, bind at 1, deref. rewrite Ha2.
    unfold assign. rewrite Ha2. unfold bind, ret.
    set (s3 := set_heap (<[a := set_next (Some cn) n0]> (heap s2)) s2).
    destruct (inv_assign_held H s2 a (set_next (Some cn) n0) Inv2)
      as (Inv3 & Hv3 & Ha3).
    { intros c' Hc'. simpl in Hc'. injection Hc' as <-. exact Hcn2. }
    fold s3 in Inv3, Hv3, Ha3.
    assert (Hold : forall c' n, value_of s c' = Some n -> c' <> cn).
    { intros c' n Hc' ->. destruct (value_of_cell s cn n Hc') as (? & E & _).
      simpl in Hcn. congruence. }
    assert (Hvo3 : forall c' n, value_of s c' = Some n ->
                                value_of s3 c' = Some n).
    { intros c' n Hc'. rewrite Hv3, Hv2, Hv1 by apply (Hold c' n Hc').
      exact Hc'. }
    assert (Hnone3 : forall c', cells s3 !! c' = None -> cells s !! c' = None).
    { intros c' E. simpl in E. destruct (decide (c' = cn)) as [-> | Hne].
      - exact Hcn.
      - rewrite Hcs2 in E by exact Hne. exact E. }
    assert (Hlen3 : (length (weak_cas s3) <= length (weak_cas s))%nat).
    { simpl. rewrite Ho2. exact Hlen1. }
    split; [apply (proj1 Inv3) |]. simpl.
    split.
    { destruct (cells s2 !! c) eqn:E; [eauto |].
      apply Hnone3 in E. congruence. }
    split; [| split].
    + intros o Ho.
      apply (op_post_finished H s s3 _ a n0); auto.
      * apply pool_weak_cas, Inv3.
      * pose proof (f_equal (@length bool) Ho) as Hlo.
        unfold s3 in Hlen3, Hlo. simpl in Hlen3, Hlo |- *. lia.
    + intros Hs3 Hd3.
      destruct (inv_published H s3 a d c (right s) (set_next (Some cn) n0)
                  Inv3 Hd3 Ha3) as (Inv' & Hvc' & Hvo' & Hnone').
      { simpl. apply (Hf c n0 Hn). }
      split; [exact Inv' |].
      split; [eapply counters_finished;
              [apply (pool_counters _ _ _ P) | exact Hc2 | reflexivity] |].
      split.
      { intros c' n1 Hn1 Hd1. destruct (decide (c' = c)) as [-> | Hnc].
        - assert (n1 = n0) by congruence. subst n1.
          exists (set_next (Some cn) n0). split; [exact Hvc' |].
          split; [exact Hd1 | apply (Hf c n0 Hn Hd1)].
        - exists n1. rewrite Hvo' by exact Hnc.
          split; [apply Hvo3, Hn1 |].
          split; [exact Hd1 | apply (Hf c' n1 Hn1 Hd1)]. }
      split; [intros c' E; apply Hnone' in E; apply Hnone3, E |].
      pose proof (length_tail_cas s3). simpl in *. lia.
    + intros Hs3 Hd3.
      apply (op_post_finished H s s3 _ a n0); auto.
      * apply pool_weak_cas, Inv3.
      * pose proof (length_tail_cas s3). simpl in *. lia.
Qed.

Lemma local_post_op {L} H this (g : node -> L -> node * bool * L) l n
    (s : state) rl s' :
  list_inv H s -> value_of s this = Some n ->
  local_post N0 H this g l n s rl s' ->
  next (fst (fst (g n l))) = next n ->
  (fst rl = true -> safe n (fst (fst (g n l)))) ->
  op_post H s s'.
Proof.
  intros Inv Hn Hpost Hnext Hsafe.
  destruct (local_post_inv H this g l n s rl s' Inv Hn Hpost Hnext Hsafe)
    as [Inv' Hst].
  destruct Hpost as (_ & Hc & _ & Hnone & _ & _ & Hlen & _).
  split; [exact Inv' |]. split; [exact Hc |]. split; [exact Hst |].
  split; [intros c; apply Hnone | exact Hlen].
Qed.

Lemma store_data_as_safe x n :
  (deleted n = true -> locked n = true) ->
  next (fst (fst (store_data_as x n tt))) = next n
  /\ safe n (fst (fst (store_data_as x n tt))).
Proof.
  intros Hf. unfold store_data_as, safe.
  destruct (locked n) eqn:El; simpl; rewrite ?El; auto 10.
Qed.

Lemma iterator_update_weak_spec tm H c (s : state) n x :
  list_inv H s -> value_of s c = Some n ->
  wp tm (iterator_update_weak (mkIterator (Some c)) x)
    (fun _ s' => op_post H s s') (fun _ => False) s.
Proof.
  intros Inv Hn. unfold iterator_update_weak.
  apply wp_bind. apply wp_ret. apply wp_bind.
  eapply wp_mono;
    [| | apply (update_weak_local N0 HN0 tm H c (store_data x)
                  (store_data_as x) tt s n (store_data_behaves x)
                  (proj1 Inv) Hn)];
    [| intros ? []].
  intros [r []] s' Hpost. apply wp_ret.
  destruct (store_data_as_safe x n (proj2 (proj2 Inv) c n Hn)) as [Hnx Hsafe].
  eapply local_post_op; eauto.
Qed.

Lemma wp_read_field tm {R} c (field : node -> R) (s : state) n
    (Q : R -> state -> Prop) (E : state -> Prop) :
  counters_ok s -> value_of s c = Some n -> Q (field n) s ->
  wp tm (read_field c field) Q E s.
Proof.
  intros Hc Hn HQ. unfold wp. rewrite (read_field_eq c field s n Hc Hn).
  exact HQ.
Qed.

Lemma iterator_update_spec fuel H c x :
  forall (s : state) n,
    list_inv H s -> value_of s c = Some n ->
    wp True (iterator_update fuel (mkIterator (Some c)) x)
      (fun _ s' => op_post H s s') (fun _ => False) s.
Proof.
  induction fuel as [| fuel IH]; intros s n Inv Hn.
  all: simpl iterator_update; apply wp_bind; unfold is_deleted; simpl.
  all: apply (wp_read_field True c deleted s n);
         [apply (pool_counters _ _ _ (proj1 Inv)) | exact Hn |].
  all: destruct (deleted n); [apply wp_ret, op_post_refl, Inv |].
  all: apply wp_bind.
  all: eapply wp_mono;
         [| | apply (iterator_update_weak_spec True H c s n x Inv Hn)];
         [| intros ? []].
  all: intros r s1 Hpost; destruct r; [apply wp_ret; exact Hpost |].
  - exact I.
  - destruct (op_post_value H s s1 c Inv Hpost) as [n1 Hn1]; [eauto |].
    eapply wp_mono; [| | apply (IH s1 n1 (proj1 Hpost) Hn1)];
      [| intros ? []].
    intros r s2 Hpost2. eapply op_post_trans; eassumption.
Qed.

Lemma empty_eq (l : atomic_list) h (s : state) n :
  counters_ok s -> list_head l = Some h -> value_of s h = Some n ->
  empty l s = Done (negb (bool_decide (is_Some (next n)))) s.
Proof.
  intros Hc Hh Hn. unfold empty, bind at 1. rewrite Hh. simpl.
  unfold bind at 1. rewrite (read_field_eq h _ s n Hc Hn). reflexivity.
Qed.

Lemma pop_front_spec fuel inner (l : atomic_list) h it0 :
  list_head l = Some h ->
  forall (s : state),
    list_inv [] s -> is_Some (value_of s h) ->
    wp True (pop_front_loop fuel inner l (mkIterator (Some h)) it0)
      (fun _ s' => op_post [] s s') (fun _ => False) s.
Proof.
  intros Hh. revert it0.
  induction fuel as [| fuel IH]; intros it0 s Inv [n Hn].
  all: simpl pop_front_loop; apply wp_bind.
  all: unfold wp at 1;
       rewrite (empty_eq l h s n (pool_counters _ _ _ (proj1 Inv)) Hh Hn).
  all: destruct (negb (bool_decide (is_Some (next n))));
         [apply wp_ret, op_post_refl, Inv |].
  all: apply wp_bind.
  all: eapply wp_mono;
         [| | apply (erase_after_weak_spec True inner [] h s n Inv Hn
                       (or_introl I))];
         [| intros ? []].
  all: intros it s1 Hpost; apply erase_post_op in Hpost.
  all: destruct (to_bool it); [apply wp_ret; exact Hpost |].
  - exact I.
  - eapply wp_mono;
      [| | apply (IH it s1 (proj1 Hpost)
                    (op_post_value [] s s1 h Inv Hpost (ex_intro _ n Hn)))];
      [| intros ? []].
    intros r s2 Hpost2. eapply op_post_trans; eassumption.
Qed.

(** ** Every operation of the list (C8) *)
Inductive list_op : Type :=
| PushFront (x : A)
| InsertAfterWeak (pos : cell) (x : A)
| EraseAfterWeak (pos : cell)
| PopFront
| IteratorUpdate (it : cell) (x : A)
| IteratorUpdateWeak (it : cell) (x : A).

(** The cell of the node an operation starts from. *)
Definition op_cell (l : atomic_list) (op : list_op) : node_ptr :=
  match op with
  | PushFront _ | PopFront => list_head l
  | InsertAfterWeak pos _ | EraseAfterWeak pos => Some pos
  | IteratorUpdate it _ | IteratorUpdateWeak it _ => Some it
  end.

Definition run_op (fuel inner : nat) (l : atomic_list) (op : list_op)
  : M unit :=
  match op with
  | PushFront x => bind (push_front l x) (fun _ => ret tt)
  | InsertAfterWeak pos x =>
      bind (insert_after_weak (mkIterator (Some pos)) x) (fun _ => ret tt)
  | EraseAfterWeak pos =>
      bind (erase_after_weak inner (mkIterator (Some pos))) (fun _ => ret tt)
  | PopFront => bind (pop_front fuel inner l) (fun _ => ret tt)
  | IteratorUpdate it x =>
      bind (iterator_update fuel (mkIterator (Some it)) x) (fun _ => ret tt)
  | IteratorUpdateWeak it x =>
      bind (iterator_update_weak (mkIterator (Some it)) x) (fun _ => ret tt)
  end.

Lemma run_op_spec fuel inner (l : atomic_list) op (s : state) c n :
  list_inv [] s -> op_cell l op = Some c -> value_of s c = Some n ->
  wp True (run_op fuel inner l op) (fun _ s' => op_post [] s s')
    (fun _ => False) s.
Proof.
  intros Inv Hc Hn.
  assert (Hret : forall {R} (m : M R),
    wp True m (fun _ s' => op_post [] s s') (fun _ => False) s ->
    wp True (bind m (fun _ => ret tt)) (fun _ s' => op_post [] s s')
      (fun _ => False) s).
  { intros R m W. apply wp_bind. eapply wp_mono; [| | exact W]; auto. }
  destruct op; simpl in Hc; simpl run_op; apply Hret.
  - unfold push_front. rewrite Hc.
    apply (insert_after_weak_spec True [] c s n x Inv Hn).
  - injection Hc as ->.
    apply (insert_after_weak_spec True [] c s n x Inv Hn).
  - injection Hc as ->.
    eapply wp_mono;
      [| | apply (erase_after_weak_spec True inner [] c s n Inv Hn
                    (or_introl I))];
      [| intros ? []].
    intros it s'. apply erase_post_op.
  - unfold pop_front. rewrite Hc.
    apply (pop_front_spec fuel inner l c empty_iterator Hc s Inv).
    eauto.
  - injection Hc as ->. apply (iterator_update_spec fuel [] c x s n Inv Hn).
  - injection Hc as ->.
    apply (iterator_update_weak_spec True [] c s n x Inv Hn).
Qed.

(** C8: started when nothing is under way, on a node that exists, an
    operation of the list has no undefined behaviour and throws
    nothing; when it returns, every published node that is [deleted]
    is [locked], every node that was [deleted] before is still
    [deleted] and [locked], and the state is again one to start an
    operation from. *)
Theorem C8_flags_preserved (fuel inner : nat) (l : atomic_list)
    (op : list_op) (s : state) (c : cell) n :
  quiescent N0 s -> links_ok s -> flags_ok s ->
  op_cell l op = Some c -> value_of s c = Some n ->
  match run_op fuel inner l op s with
  | Done _ s' =>
      flags_ok s' /\ sticky s s'
      /\ quiescent N0 s' /\ links_ok s'
      /\ (forall c', is_Some (value_of s c') -> is_Some (value_of s' c'))
  | Raised _ => False
  | Undef => False
  | Timeout => True
  end.
Proof.
  intros [P Hc0] Hl Hf Hc Hn.
  assert (Inv : list_inv [] s) by (split; [exact P | split; assumption]).
  pose proof (run_op_spec fuel inner l op s c n Inv Hc Hn) as W.
  unfold wp in W.
  destruct (run_op fuel inner l op s) as [[] s' | | |]; try exact W.
  pose proof W as ((P' & Hl' & Hf') & Hc' & Hst & _ & _).
  split; [exact Hf' |]. split; [exact Hst |].
  split; [split; [exact P' | congruence] |]. split; [exact Hl' |].
  intros c'. apply (op_post_value [] s s' c' Inv W).
Qed.

(** ** A list to start from *)

(** [new T0] and [new T0{ }] for a node. *)
Definition default_node : node := mkNode false false A0 None.

(** Static initialization, the list, one [push_front]. *)
Definition setup (x : A) : M (atomic_list * iterator) :=
  bind (init_static N0 default_node) (fun _ =>
  bind new_list (fun l =>
  bind (push_front l x) (fun it => ret (l, it)))).

Lemma new_list_spec H (s : state) :
  list_inv H s ->
  exists h s1,
    new_list s = Done (mkList (Some h)) s1
    /\ list_inv H s1 /\ counters s1 = counters s
    /\ value_of s1 h = Some default_node.
Proof.
  intros Inv.
  destruct (new_cell default_node s) as [h s1 | | |] eqn:Hnew;
    try (rewrite new_cell_eq in Hnew; discriminate Hnew).
  destruct (inv_new_cell H s A0 None h s1 Inv) as
    (Inv1 & _ & _ & _ & _ & _ & Hc1 & _);
    [intros ? E; discriminate E | exact Hnew |].
  destruct (pool_new_cell N0 H s _ h s1 (proj1 Inv) Hnew) as (_ & _ & Hv1 & _).
  exists h, s1. unfold new_list, bind. fold default_node. rewrite Hnew.
  auto.
Qed.

Lemma setup_spec oracle x :
  wp False (setup x)
    (fun li s =>
       quiescent N0 s /\ links_ok s /\ flags_ok s
       /\ exists h n, list_head (fst li) = Some h /\ value_of s h = Some n)
    (fun _ => False) (zero_state N0 oracle).
Proof.
  destruct (init_static_pool N0 HN0 default_node oracle)
    as (s0 & Hinit & P0 & _ & _ & Hc0 & Hcells & _).
  assert (Inv0 : list_inv [] s0).
  { split; [exact P0 |]. split.
    - intros b m c Hm Hc.
      rewrite (init_static_heap N0 default_node oracle s0 Hinit b m Hm) in Hc.
      discriminate Hc.
    - intros c n Hn. unfold value_of in Hn. rewrite Hcells in Hn.
      rewrite lookup_empty in Hn. discriminate Hn. }
  destruct (new_list_spec [] s0 Inv0) as (h & s1 & Hnl & Inv1 & Hc1 & Hv1).
  pose proof (insert_after_weak_spec False [] h s1 _ x Inv1 Hv1) as W.
  unfold wp in W |- *. unfold setup, bind at 1. rewrite Hinit.
  unfold bind at 1. rewrite Hnl. unfold bind, push_front. simpl list_head.
  destruct (insert_after_weak (mkIterator (Some h)) x s1)
    as [it s2 | | |]; try contradiction.
  unfold ret. simpl.
  pose proof W as ((P2 & Hl2 & Hf2) & Hc2 & _).
  split; [split; [exact P2 | congruence] |].
  split; [exact Hl2 |]. split; [exact Hf2 |].
  destruct (op_post_value [] s1 s2 h Inv1 W) as [n Hn]; eauto.
Qed.

(** ** What the operations do to the nodes *)

Lemma wp_conj tm {R} (m : M R) (Q1 Q2 : R -> state -> Prop)
    (E : state -> Prop) (s : state) :
  wp tm m Q1 E s -> wp tm m Q2 E s ->
  wp tm m (fun r s' => Q1 r s' /\ Q2 r s') E s.
Proof. unfold wp. destruct (m s); auto. Qed.

(** What [insert_after_weak] leaves in the nodes: on success the new
    node [cn] after [c]; on failure every node as it was. *)
Definition insert_post (c : cell) (n0 : node) (x : A) (s : state)
    (it : iterator) (s' : state) : Prop :=
  match value it with
  | Some cn =>
      locked n0 = false
      /\ cells s !! cn = None
      /\ value_of s' cn = Some (mkNode false false x (next n0))
      /\ value_of s' c = Some (set_next (Some cn) n0)
      /\ (forall c', c' <> c -> c' <> cn -> value_of s' c' = value_of s c')
  | None =>
      (forall c' n, value_of s c' = Some n -> value_of s' c' = Some n)
      /\ (~ can_allocate N0 s
          \/ (length (weak_cas s') < length (weak_cas s))%nat
          \/ locked n0 = true)
  end.

Lemma insert_after_weak_values tm H c (s : state) n0 x :
  list_inv H s -> value_of s c = Some n0 ->
  wp tm (insert_after_weak (mkIterator (Some c)) x)
    (insert_post c n0 x s) (fun _ => False) s.
Proof.
  intros Inv Hn. pose proof Inv as (P & Hl & Hf).
  destruct (value_of_cell s c n0 Hn) as (d & Hd & Hv).
  unfold insert_after_weak. apply wp_bind. apply wp_ret. apply wp_bind.
  pose (Q := fun (rl : bool * node_ptr) (s' : state) =>
    insert_post c n0 x s
      (if fst rl then mkIterator (snd rl) else empty_iterator) s').
  assert (W : wp tm (update_weak N0 c (link_new x) None) Q
                (fun _ => False) s).
  2: { eapply wp_mono; [| | exact W]; [| intros ? []].
       intros [r nn] s' Hpost. apply wp_ret. exact Hpost. }
  apply (wp_update_weak N0 HN0 tm H c (link_new x) None s d n0);
    try assumption.
  - intros Hcl. split; [auto | left; exact Hcl].
  - intros o _ Ho. split; [auto |]. right. left. simpl. rewrite Ho.
    simpl. lia.
  - intros a Hcan Hs Ha P1.
    destruct (inv_started H s c n0 a Inv Hn (proj1 Hcan) Ha)
      as (Inv1 & Hv1 & Ha1).
    assert (Hlen1 : (length (weak_cas (started N0 a n0 s))
                     <= length (weak_cas s))%nat) by apply length_tail_cas.
    unfold wp at 1, link_new, bind at 1, deref. rewrite Ha1.
    destruct (locked n0) eqn:El0.
    { unfold ret. split; [exact P1 |]. simpl. split; [| auto].
      destruct (inv_finished H (started N0 a n0 s) (started N0 a n0 s)
                  a (right s) Inv1 eq_refl eq_refl P1) as (_ & Hvf).
      intros c' n Hc'. rewrite Hvf, Hv1. exact Hc'. }
    unfold bind at 1.
    destruct (new_cell (mkNode false false x (next n0)) (started N0 a n0 s))
      as [cn s2 | | |] eqn:Hnew;
      try (rewrite new_cell_eq in Hnew; discriminate Hnew).
    destruct (inv_new_cell (a :: H) (started N0 a n0 s) x (next n0) cn s2
                Inv1) as (Inv2 & Hcn & Hcn2 & Hv2 & Hcs2 & Hh2 & Hc2 & Ho2);
      [| exact Hnew |].
    { intros c' Hc'. apply (proj1 (proj2 Inv1) a n0 c' Ha1 Hc'). }
    destruct (pool_new_cell N0 (a :: H) (started N0 a n0 s) _ cn s2
                (proj1 Inv1) Hnew) as (_ & _ & Hnewv & _).
    assert (Ha2 : heap s2 !! a = Some n0).
    { rewrite Hh2; [exact Ha1 | rewrite Ha1; eauto]. }
    unfold bind at 1, modify, bind at 1, deref. rewrite Ha2.
    unfold assign. rewrite Ha2. unfold bind, ret.
    set (s3 := set_heap (<[a := set_next (Some cn) n0]> (heap s2)) s2).
    destruct (inv_assign_held H s2 a (set_next (Some cn) n0) Inv2)
      as (Inv3 & Hv3 & Ha3).
    { intros c' Hc'. simpl in Hc'. injection Hc' as <-. exact Hcn2. }
    fold s3 in Inv3, Hv3, Ha3.
    assert (Hcn0 : cells s !! cn = None) by exact Hcn.
    assert (Hold : forall c' n, value_of s c' = Some n -> c' <> cn).
    { intros c' n Hc' ->. destruct (value_of_cell s cn n Hc') as (? & E & _).
      congruence. }
    assert (Hvo3 : forall c', c' <> cn -> value_of s3 c' = value_of s c').
    { intros c' Hc'. rewrite Hv3, Hv2, Hv1 by exact Hc'. reflexivity. }
    assert (Hlen3 : (length (weak_cas s3) <= length (weak_cas s))%nat).
    { simpl. rewrite Ho2. exact Hlen1. }
    assert (Hd3 : cells s3 !! c = Some (Some d)).
    { simpl. rewrite Hcs2 by apply (Hold c n0 Hn). exact Hd. }
    split; [apply (proj1 Inv3) |]. simpl.
    split; [simpl in Hd3; rewrite Hd3; eauto |].
    split; [| split].
    + intros o Ho. split; [| right; left].
      * destruct (inv_finished H s3 (set_weak_cas o s3) a (right s) Inv3
                    eq_refl eq_refl (pool_weak_cas N0 _ _ o (proj1 Inv3)))
          as (_ & Hvf).
        intros c' n Hc'. rewrite Hvf, Hvo3 by apply (Hold c' n Hc').
        exact Hc'.
      * pose proof (f_equal (@length bool) Ho) as Hlo.
        unfold s3 in Hlen3, Hlo. simpl in Hlen3, Hlo |- *. lia.
    + intros Hs3 _.
      destruct (inv_published H s3 a d c (right s) (set_next (Some cn) n0)
                  Inv3 Hd3 Ha3) as (_ & Hvc' & Hvo' & _).
      { simpl. apply (Hf c n0 Hn). }
      split; [exact El0 |]. split; [exact Hcn0 |]. split.
      { rewrite Hvo' by (intros ->; apply (Hold c n0 Hn); reflexivity).
        rewrite Hv3. exact Hnewv. }
      split; [exact Hvc' |].
      intros c' Hc Hcn'. rewrite Hvo' by exact Hc. apply Hvo3, Hcn'.
    + intros _ Hd3'. simpl in Hd3. contradiction.
Qed.

Lemma insert_after_weak_total c (s : state) n0 x :
  quiescent N0 s -> links_ok s -> flags_ok s ->
  value_of s c = Some n0 ->
  exists it s',
    insert_after_weak (mkIterator (Some c)) x s = Done it s'
    /\ insert_post c n0 x s it s'
    /\ quiescent N0 s' /\ links_ok s' /\ flags_ok s'
    /\ (weak_cas s = [] -> locked n0 = false -> to_bool it = true).
Proof.
  intros Hq Hl Hf Hn. pose proof Hq as [P Hc].
  assert (Inv : list_inv [] s) by (split; [exact P | split; assumption]).
  pose proof (wp_conj False _ _ _ _ s
                (insert_after_weak_spec False [] c s n0 x Inv Hn)
                (insert_after_weak_values False [] c s n0 x Inv Hn)) as W.
  destruct (wp_total _ _ _ _ W)
    as [(it & s' & Hrun & Hop & Hpost) | (? & _ & [])].
  destruct Hop as ((P' & Hl' & Hf') & Hc' & _).
  exists it, s'. split; [exact Hrun |]. split; [exact Hpost |].
  split; [split; [exact P' | congruence] |].
  split; [exact Hl' |]. split; [exact Hf' |].
  intros Ho Hunl. unfold insert_post in Hpost. unfold to_bool.
  destruct (value it); [reflexivity |].
  destruct Hpost as (_ & [Hcl | [Hlt | Hlk]]).
  - exfalso. apply Hcl. apply (quiescent_can_allocate N0 HN0 s Hq).
  - rewrite Ho in Hlt. simpl in Hlt. lia.
  - congruence.
Qed.


(** X12: after a [push_front] that returned an iterator, [begin()] is
    that iterator, [*] on it gives the value pushed, and [++] leads to
    the node that was first before. *)
Theorem X12_push_front_first (l : atomic_list) h (s : state) n0 x it s' :
  quiescent N0 s -> links_ok s -> flags_ok s ->
  list_head l = Some h ->
  value_of s h = Some n0 ->
  push_front l x s = Done it s' ->
  to_bool it = true ->
  begin l s = Done (mkIterator (next n0)) s
  /\ begin l s' = Done it s'
  /\ get it s' = Done x s'
  /\ advance it s' = Done (mkIterator (next n0)) s'.
Proof.
  intros Hq Hl Hf Hh Hn Hrun Hit.
  destruct (insert_after_weak_total h s n0 x Hq Hl Hf Hn)
    as (it' & s'' & Hrun' & Hpost & Hq' & _).
  unfold push_front in Hrun. rewrite Hh, Hrun' in Hrun.
  injection Hrun as -> ->.
  pose proof (pool_counters _ _ _ (proj1 Hq)) as Hc.
  pose proof (pool_counters _ _ _ (proj1 Hq')) as Hc'.
  unfold insert_post in Hpost. destruct it as [[cn |]]; [| discriminate Hit].
  simpl in Hpost. destruct Hpost as (_ & _ & Hcn & Hhead & _).
  split.
  { unfold begin, advance. rewrite Hh. simpl. unfold bind, ret.
    rewrite (read_field_eq h next s n0 Hc Hn). reflexivity. }
  split.
  { unfold begin, advance. rewrite Hh. simpl. unfold bind, ret.
    rewrite (read_field_eq h next s' _ Hc' Hhead). reflexivity. }
  split.
  { unfold get. simpl. unfold bind, ret.
    rewrite (read_field_eq cn data s' _ Hc' Hcn). reflexivity. }
  unfold advance. simpl. unfold bind, ret.
  rewrite (read_field_eq cn next s' _ Hc' Hcn). reflexivity.
Qed.

Lemma erase_after_weak_total (fuel : nat) c (s : state) n0 :
  quiescent N0 s -> links_ok s -> flags_ok s ->
  value_of s c = Some n0 ->
  (length (weak_cas s) <= fuel)%nat ->
  exists it s',
    erase_after_weak fuel (mkIterator (Some c)) s = Done it s'
    /\ erase_post [] c n0 s it s'
    /\ quiescent N0 s' /\ links_ok s' /\ flags_ok s'.
Proof.
  intros [P Hc] Hl Hf Hn Hfuel.
  assert (Inv : list_inv [] s) by (split; [exact P | split; assumption]).
  pose proof (erase_after_weak_spec False fuel [] c s n0 Inv Hn
                (or_intror (conj eq_refl (conj Hc Hfuel)))) as W.
  destruct (wp_total _ _ _ _ W) as [(it & s' & Hrun & Hpost) | (? & _ & [])].
  exists it, s'. split; [exact Hrun |]. split; [exact Hpost |].
  destruct Hpost as ((P' & Hl' & Hf') & Hc' & _).
  split; [split; [exact P' | congruence] | auto].
Qed.


Lemma iterator_update_weak_total c (s : state) n x :
  quiescent N0 s -> links_ok s -> flags_ok s ->
  value_of s c = Some n ->
  exists r s',
    iterator_update_weak (mkIterator (Some c)) x s = Done r s'
    /\ local_post N0 [] c (store_data_as x) tt n s (r, tt) s'
    /\ quiescent N0 s' /\ links_ok s' /\ flags_ok s'.
Proof.
  intros [P Hc] Hl Hf Hn.
  assert (Inv : list_inv [] s) by (split; [exact P | split; assumption]).
  pose proof (update_weak_local N0 HN0 False [] c (store_data x)
                (store_data_as x) tt s n (store_data_behaves x) P Hn) as W.
  destruct (wp_total _ _ _ _ W)
    as [([r []] & s' & Hrun & Hpost) | (? & _ & [])].
  exists r, s'. split.
  { unfold iterator_update_weak. simpl. unfold bind, ret. rewrite Hrun.
    reflexivity. }
  split; [exact Hpost |].
  destruct (store_data_as_safe x n (Hf c n Hn)) as [Hnx Hsafe].
  destruct (local_post_inv [] c (store_data_as x) tt n s (r, tt) s'
              Inv Hn Hpost Hnx (fun _ => Hsafe)) as [(P' & Hl' & Hf') _].
  destruct Hpost as (_ & Hc' & _).
  split; [split; [exact P' | congruence] | auto].
Qed.

(** X14: [iterator::update_weak] returns in any case.  When it returns
    [true] the node was not locked and now holds the value, which [*]
    on the iterator gives back, with its flags and its successor as
    before; when it returns [false] the node is as it was.  No other
    node changes.  It returns [true] when the node is not locked and no
    CAS fails spuriously. *)
Theorem X14_iterator_update_weak c (s : state) n x :
  quiescent N0 s -> links_ok s -> flags_ok s ->
  value_of s c = Some n ->
  exists r s',
    iterator_update_weak (mkIterator (Some c)) x s = Done r s'
    /\ (if r then
          locked n = false
          /\ value_of s' c = Some (set_data x n)
          /\ get (mkIterator (Some c)) s' = Done x s'
        else value_of s' c = Some n)
    /\ (forall c', c' <> c -> value_of s' c' = value_of s c')
    /\ quiescent N0 s' /\ links_ok s' /\ flags_ok s'
    /\ (weak_cas s = [] -> locked n = false -> r = true).
Proof.
  intros Hq Hl Hf Hn.
  destruct (iterator_update_weak_total c s n x Hq Hl Hf Hn)
    as (r & s' & Hrun & Hpost & Hq' & Hl' & Hf').
  exists r, s'. split; [exact Hrun |].
  destruct Hpost as (_ & _ & Hother & _ & _ & _ & _ & _ & Hr).
  simpl in Hr. unfold store_data_as in Hr.
  split.
  { destruct r.
    - destruct Hr as (Hv & Hacc & _).
      destruct (locked n); [discriminate Hacc |]. simpl in Hv.
      split; [reflexivity |]. split; [exact Hv |].
      unfold get. simpl. unfold bind, ret.
      rewrite (read_field_eq c data s' _
                 (pool_counters _ _ _ (proj1 Hq')) Hv).
      reflexivity.
    - apply Hr. }
  split; [exact Hother |]. split; [exact Hq' |]. split; [exact Hl' |].
  split; [exact Hf' |].
  intros Ho Hunl. destruct r; [reflexivity |].
  destruct Hr as (_ & _ & [Hcl | [Hlt | Hveto]] & _).
  - exfalso. apply Hcl. apply (quiescent_can_allocate N0 HN0 s Hq).
  - rewrite Ho in Hlt. simpl in Hlt. lia.
  - rewrite Hunl in Hveto. discriminate Hveto.
Qed.


(** X16: a locked node, such as one that was erased, takes part in
    nothing: [insert_after_weak] and [erase_after_weak] at it return
    the empty iterator, [iterator::update_weak] on it returns [false],
    and each of them leaves every node as it was. *)
Theorem X16_locked_node_rejects (fuel : nat) c (s : state) n x :
  quiescent N0 s -> links_ok s -> flags_ok s ->
  value_of s c = Some n ->
  locked n = true ->
  (length (weak_cas s) <= fuel)%nat ->
  (exists s',
     insert_after_weak (mkIterator (Some c)) x s = Done empty_iterator s'
     /\ forall c' m, value_of s c' = Some m -> value_of s' c' = Some m)
  /\ (exists s',
        erase_after_weak fuel (mkIterator (Some c)) s
        = Done empty_iterator s'
        /\ forall c', value_of s' c' = value_of s c')
  /\ (exists s',
        iterator_update_weak (mkIterator (Some c)) x s = Done false s'
        /\ forall c', value_of s' c' = value_of s c').
Proof.
  intros Hq Hl Hf Hn Hlk Hfuel. split; [| split].
  - destruct (insert_after_weak_total c s n x Hq Hl Hf Hn)
      as (it & s' & Hrun & Hpost & _).
    unfold insert_post in Hpost. destruct it as [[cn |]]; simpl in Hpost.
    + destruct Hpost as (Hunl & _). congruence.
    + exists s'. split; [exact Hrun | apply Hpost].
  - destruct (erase_after_weak_total fuel c s n Hq Hl Hf Hn Hfuel)
      as (it & s' & Hrun & Hpost & _).
    destruct Hpost as (_ & _ & _ & _ & _ & Hpost).
    destruct it as [[v |]]; simpl in Hpost.
    + destruct Hpost as (Hunl & _). congruence.
    + exists s'. split; [exact Hrun | exact Hpost].
  - destruct (iterator_update_weak_total c s n x Hq Hl Hf Hn)
      as (r & s' & Hrun & Hpost & _).
    destruct Hpost as (_ & _ & Hother & _ & _ & _ & _ & _ & Hr).
    simpl in Hr. unfold store_data_as in Hr. rewrite Hlk in Hr.
    simpl in Hr. destruct r.
    + destruct Hr as (_ & Hacc & _). discriminate Hacc.
    + exists s'. split; [exact Hrun |]. intros c'.
      destruct (decide (c' = c)) as [-> | Hne].
      * destruct Hr as (Hv & _). congruence.
      * apply Hother, Hne.
Qed.

(** ** Why an attempt to erase fails *)

(** The call of [update_weak] inside the functor finds an element to
    take and is not at the barrier. *)
Definition can_nest (s : state) : Prop :=
  wrap (left s + 1) <> right s /\ wrap (left s + 1) mod N0 <> 0.

Definition outer_why (c : cell) (n0 : node) (s : state)
    (rl : bool * node_ptr) (s' : state) : Prop :=
  fst rl = true
  \/ ~ can_allocate N0 s
  \/ weak_cas s <> []
  \/ locked n0 = true
  \/ next n0 = None
  \/ next n0 = Some c
  \/ (exists v nv,
        next n0 = Some v /\ value_of s v = Some nv /\ locked nv = true)
  \/ (~ can_nest s /\ snd rl = None /\ left s' = wrap (left s + 1)).

Lemma erase_outer_why tm H c (s : state) n0 :
  list_inv H s -> value_of s c = Some n0 ->
  wp tm (erase_outer (mkIterator (Some c))) (outer_why c n0 s)
    (fun _ => False) s.
Proof.
  intros Inv Hn. pose proof Inv as (P & Hl & Hf).
  destruct (value_of_cell s c n0 Hn) as (d & Hd & Hv).
  assert (W : wp tm (update_weak N0 c unlink_next None) (outer_why c n0 s)
                (fun _ => False) s); [| exact W].
  assert (Hshrink : forall s2 : state,
            (length (weak_cas s2) < length (weak_cas s))%nat ->
            weak_cas s <> []).
  { intros s2 Hlt E. rewrite E in Hlt. simpl in Hlt. lia. }
  apply (wp_update_weak N0 HN0 tm H c unlink_next None s d n0);
    try assumption.
  - intros Hcl. right. left. exact Hcl.
  - intros o _ Ho. right. right. left. rewrite Ho. discriminate.
  - intros a Hcan Hs Ha P1.
    destruct (inv_started H s c n0 a Inv Hn (proj1 Hcan) Ha)
      as (Inv1 & Hv1 & Ha1).
    assert (Hlen1 : (length (weak_cas (started N0 a n0 s))
                     <= length (weak_cas s))%nat) by apply length_tail_cas.
    unfold wp at 1, unlink_next, bind at 1, deref. rewrite Ha1.
    destruct (locked n0) eqn:El0.
    { unfold ret. split; [exact P1 |]. simpl. unfold outer_why. auto 10. }
    destruct (next n0) as [v |] eqn:Enx.
    2: { unfold ret. split; [exact P1 |]. simpl. unfold outer_why. auto 10. }
    destruct (linked_value H s d n0 v Inv Hv Enx) as [nv Hnv].
    assert (Hnv1 : value_of (started N0 a n0 s) v = Some nv)
      by (rewrite Hv1; exact Hnv).
    destruct (decide (can_allocate N0 (started N0 a n0 s))) as [Hcan1 | Hcl1].
    2: { unfold bind at 1, update_weak, bind at 1.
         rewrite (try_allocate_closed N0 _ (pool_counters _ _ _ P1) Hcl1).
         unfold ret. split; [exact P1 |]. simpl. unfold outer_why. simpl.
         do 7 right. split; [| split; reflexivity].
         intros [Hne Hlap]. apply Hcl1. split; [exact Hne |].
         left. exact Hlap. }
    pose proof (update_weak_local N0 HN0 tm (a :: H) v lock_node lock_node_as
                  None (started N0 a n0 s) nv lock_node_behaves
                  (proj1 Inv1) Hnv1) as Winner.
    unfold wp in Winner. unfold bind at 1.
    destruct (update_weak N0 v lock_node None (started N0 a n0 s))
      as [[r node_after] s2 | s2 | |]; [| contradiction | contradiction
                                        | exact Winner].
    destruct Winner as (P2 & Hc2 & Hv2 & Hn2 & Hh2 & Hm2 & Hl2 & Hcs2 & Hr).
    destruct r; simpl in Hr |- *.
    2: { destruct Hr as (_ & _ & Hwhy & _).
         split; [exact P2 |]. simpl. unfold outer_why. simpl.
         destruct Hwhy as [Hcl | [Hlt | Hveto]].
         - contradiction.
         - right. right. left. apply (Hshrink s2).
           eapply Nat.lt_le_trans; [exact Hlt | exact Hlen1].
         - do 6 right. left. exists v, nv. split; [exact Enx |].
           split; [exact Hnv |]. unfold lock_node_as in Hveto.
           destruct (locked nv); [reflexivity | discriminate Hveto]. }
    destruct Hr as (Hvv & Hacc & Hafter & Hmoved).
    assert (Ha2 : heap s2 !! a = Some n0).
    { rewrite Hh2 by left. exact Ha1. }
    unfold bind at 1, modify, bind at 1, deref. rewrite Ha2.
    unfold assign. rewrite Ha2. unfold ret.
    set (s3 := set_heap (<[a := set_next node_after n0]> (heap s2)) s2).
    assert (P3 : pool N0 (a :: H) s3).
    { apply pool_assign; [rewrite Ha2; eauto | exact P2]. }
    split; [exact P3 |]. simpl.
    assert (Hc3 : c <> v -> cells s2 !! c = Some (Some d)).
    { intros Hne. rewrite Hcs2 by exact Hne. exact Hd. }
    split.
    { destruct (cells s2 !! c) eqn:E; [eauto |].
      apply Hn2 in E. simpl in E. congruence. }
    split; [| split].
    + intros o Ho. right. right. left. apply (Hshrink (set_weak_cas o s2)).
      eapply Nat.lt_le_trans; [| exact Hlen1].
      eapply Nat.lt_le_trans; [| exact Hl2].
      simpl in Ho. rewrite Ho. simpl. lia.
    + intros _ _. left. reflexivity.
    + intros _ Hd3. do 5 right. left. f_equal.
      destruct (decide (c = v)) as [E | Hne]; [congruence |].
      exfalso. apply Hd3, Hc3, Hne.
Qed.

Lemma erase_after_weak_why (fuel : nat) c (s : state) n0 it s' :
  quiescent N0 s -> links_ok s -> flags_ok s ->
  value_of s c = Some n0 ->
  weak_cas s = [] ->
  erase_after_weak fuel (mkIterator (Some c)) s = Done it s' ->
  to_bool it = true
  \/ locked n0 = true
  \/ next n0 = None
  \/ next n0 = Some c
  \/ (exists v nv,
        next n0 = Some v /\ value_of s v = Some nv /\ locked nv = true)
  \/ (~ can_nest s /\ left s' = wrap (left s + 1)).
Proof.
  intros Hq Hl Hf Hn Ho Hrun. pose proof Hq as [P Hc].
  assert (Inv : list_inv [] s) by (split; [exact P | split; assumption]).
  pose proof (wp_conj False _ _ _ _ s
                (erase_outer_spec False [] c s n0 Inv Hn)
                (erase_outer_why False [] c s n0 Inv Hn)) as W.
  unfold erase_after_weak, bind at 1 in Hrun. unfold wp in W.
  destruct (erase_outer (mkIterator (Some c)) s) as [[r nn] s1 | | |];
    try contradiction.
  destruct W as [Hpost Hwhy].
  destruct r.
  - left. destruct Hpost as (_ & _ & _ & _ & _ & Hcase). simpl in Hcase.
    destruct nn as [v |]; [| destruct Hcase as [E _]; discriminate E].
    simpl in Hrun. unfold bind at 1, ret in Hrun. unfold bind in Hrun.
    destruct (update N0 fuel v mark_deleted () s1); try discriminate Hrun.
    unfold ret in Hrun. injection Hrun as <- _. reflexivity.
  - right. unfold outer_why in Hwhy. simpl in Hwhy.
    destruct Hwhy as [E | [Hcl | [Hne | [Hlk | [Hnx | [Hself | [Hv | Hlap]]]]]]].
    + discriminate E.
    + exfalso. apply Hcl, (quiescent_can_allocate N0 HN0 s Hq).
    + contradiction.
    + auto.
    + auto.
    + auto.
    + auto 10.
    + destruct Hlap as (Hnest & -> & Hleft). simpl in Hrun.
      unfold ret in Hrun. injection Hrun as _ <-. auto 10.
Qed.

Lemma queue_size_divide : (N0 | uint_mod).
Proof.
  destruct HN0 as (k & Hk & ->). exists (2 ^ (32 - k)).
  unfold uint_mod. rewrite <- Z.pow_add_r by lia. f_equal. lia.
Qed.

Lemma wrap_mod_queue x : wrap x mod N0 = x mod N0.
Proof.
  unfold wrap. apply Z.mod_mod_divide. apply queue_size_divide.
Qed.

Lemma quiescent_two (s : state) :
  quiescent N0 s -> 2 <= N0 -> wrap (left s + 1) <> right s.
Proof.
  intros [P _] HN E. pose proof (pool_size _ _ _ P) as Hsz. simpl in Hsz.
  rewrite <- E in Hsz. rewrite wrap_sub_l in Hsz.
  replace (left s + 1 - left s) with 1 in Hsz by lia.
  rewrite wrap_small in Hsz by (unfold uint_mod; lia). lia.
Qed.

Lemma next_lap x : 2 <= N0 -> x mod N0 = 0 -> wrap (x + 1) mod N0 <> 0.
Proof.
  intros HN Hx. rewrite wrap_mod_queue.
  rewrite <- Z.add_mod_idemp_l by lia. rewrite Hx. simpl.
  rewrite Z.mod_small by lia. discriminate.
Qed.

(** The first node [v] has been taken out of the list of head [h]. *)
Definition taken_out (h : cell) (n0 : node) (v : cell) (nv : node)
    (s s' : state) : Prop :=
  value_of s' v = Some (set_deleted true (set_locked true nv))
  /\ value_of s' h = Some (set_next (next nv) n0)
  /\ (forall c', c' <> v -> c' <> h -> value_of s' c' = value_of s c')
  /\ quiescent N0 s' /\ links_ok s' /\ flags_ok s' /\ weak_cas s' = [].

Lemma erase_attempt h (s : state) n0 v nv :
  quiescent N0 s -> links_ok s -> flags_ok s ->
  weak_cas s = [] ->
  value_of s h = Some n0 -> locked n0 = false -> next n0 = Some v ->
  v <> h ->
  value_of s v = Some nv -> locked nv = false ->
  exists it s1,
    erase_after_weak 0 (mkIterator (Some h)) s = Done it s1
    /\ ((it = mkIterator (Some v) /\ taken_out h n0 v nv s s1)
        \/ (it = empty_iterator
            /\ (forall c', value_of s1 c' = value_of s c')
            /\ quiescent N0 s1 /\ links_ok s1 /\ flags_ok s1
            /\ weak_cas s1 = []
            /\ ~ can_nest s /\ left s1 = wrap (left s + 1))).
Proof.
  intros Hq Hl Hf Ho Hn Hunl Hnx Hvh Hnv Hvunl.
  destruct (erase_after_weak_total 0 h s n0 Hq Hl Hf Hn)
    as (it & s1 & Hrun & Hpost & Hq1 & Hl1 & Hf1).
  { rewrite Ho. simpl. lia. }
  exists it, s1. split; [exact Hrun |].
  destruct Hpost as (_ & _ & _ & _ & Hlen & Hcase).
  assert (Ho1 : weak_cas s1 = []).
  { rewrite Ho in Hlen. simpl in Hlen.
    destruct (weak_cas s1); [reflexivity | simpl in Hlen; lia]. }
  destruct it as [[v' |]]; simpl in Hcase.
  - left. destruct Hcase as (_ & Hnx' & _ & nv' & Hnv' & _ & Hv1 & Hh1 & Ho').
    assert (v' = v) by congruence. subst v'.
    assert (nv' = nv) by congruence. subst nv'.
    split; [reflexivity |]. unfold taken_out. auto 10.
  - right. split; [reflexivity |]. split; [exact Hcase |].
    split; [exact Hq1 |]. split; [exact Hl1 |]. split; [exact Hf1 |].
    split; [exact Ho1 |].
    destruct (erase_after_weak_why 0 h s n0 _ s1 Hq Hl Hf Hn Ho Hrun)
      as [E | [E | [E | [E | [(v' & nv' & Hnx' & Hnv' & Hlk) | Hlap]]]]].
    + discriminate E.
    + congruence.
    + congruence.
    + congruence.
    + assert (v' = v) by congruence. subst v'. congruence.
    + exact Hlap.
Qed.

Lemma pop_front_progress (fuel : nat) (l : atomic_list) h (s : state)
    n0 v nv :
  2 <= N0 -> (1 <= fuel)%nat ->
  quiescent N0 s -> links_ok s -> flags_ok s ->
  weak_cas s = [] ->
  list_head l = Some h ->
  value_of s h = Some n0 -> locked n0 = false -> next n0 = Some v ->
  v <> h ->
  value_of s v = Some nv -> locked nv = false ->
  exists s',
    pop_front fuel 0 l s = Done (mkIterator (Some v)) s'
    /\ taken_out h n0 v nv s s'.
Proof.
  intros HN Hfuel Hq Hl Hf Ho Hh Hn Hunl Hnx Hvh Hnv Hvunl.
  destruct fuel as [| fuel]; [lia |].
  assert (Hempty : forall s1 : state,
            quiescent N0 s1 -> value_of s1 h = Some n0 ->
            empty l s1 = Done false s1).
  { intros s1 Hq1 Hn1.
    rewrite (empty_eq l h s1 n0 (pool_counters _ _ _ (proj1 Hq1)) Hh Hn1).
    rewrite Hnx. rewrite bool_decide_eq_true_2 by eauto. reflexivity. }
  destruct (erase_attempt h s n0 v nv Hq Hl Hf Ho Hn Hunl Hnx Hvh Hnv Hvunl)
    as (it & s1 & Hrun & [[-> Hpop] | Hfail]).
  { exists s1. split; [| exact Hpop].
    unfold pop_front. rewrite Hh. simpl pop_front_loop. unfold bind at 1.
    rewrite (Hempty s Hq Hn). unfold bind. rewrite Hrun. reflexivity. }
  destruct Hfail as (-> & Hsame & Hq1 & Hl1 & Hf1 & Ho1 & Hnest & Hleft).
  assert (Hn1 : value_of s1 h = Some n0) by (rewrite Hsame; exact Hn).
  assert (Hnv1 : value_of s1 v = Some nv) by (rewrite Hsame; exact Hnv).
  assert (Hlap : left s1 mod N0 = 0).
  { rewrite Hleft.
    destruct (Z.eq_dec (wrap (left s + 1) mod N0) 0) as [E | E];
      [exact E |].
    exfalso. apply Hnest. split; [| exact E].
    apply quiescent_two; assumption. }
  destruct (erase_attempt h s1 n0 v nv Hq1 Hl1 Hf1 Ho1 Hn1 Hunl Hnx Hvh
              Hnv1 Hvunl)
    as (it & s2 & Hrun2 & [[-> Hpop] | Hfail]).
  2: { exfalso. destruct Hfail as (_ & _ & _ & _ & _ & _ & Hnest2 & _).
       apply Hnest2. split.
       - apply quiescent_two; assumption.
       - apply next_lap; assumption. }
  exists s2. split.
  { unfold pop_front. rewrite Hh. simpl pop_front_loop. unfold bind at 1.
    rewrite (Hempty s Hq Hn). unfold bind at 1. rewrite Hrun.
    change (to_bool empty_iterator) with false. cbv iota.
    destruct fuel; simpl pop_front_loop; unfold bind at 1;
      rewrite (Hempty s1 Hq1 Hn1); unfold bind; rewrite Hrun2; reflexivity. }
  destruct Hpop as (Hv2 & Hh2 & Hother & Hrest).
  unfold taken_out. split; [exact Hv2 |]. split; [exact Hh2 |].
  split; [| exact Hrest].
  intros c' H1 H2. rewrite Hother, Hsame by assumption. reflexivity.
Qed.

(** ** The list as a sequence of nodes *)

(** The cells of the nodes from [p] on, in order. *)
Inductive chain (s : state) : node_ptr -> list cell -> Prop :=
| chain_nil : chain s None []
| chain_cons c n cs :
    value_of s c = Some n -> chain s (next n) cs ->
    chain s (Some c) (c :: cs).

(** The list [l] is, after its head, the nodes [cs], and nothing in it
    is locked. *)
Definition listed (l : atomic_list) (s : state) (cs : list cell) : Prop :=
  exists h n0,
    list_head l = Some h /\ value_of s h = Some n0 /\ locked n0 = false
    /\ chain s (next n0) cs
    /\ NoDup (h :: cs)
    /\ (forall c n, c ∈ cs -> value_of s c = Some n -> locked n = false).

(** The values in the nodes [cs]. *)
Definition datas (s : state) (cs : list cell) : list A :=
  map (fun c => match value_of s c with
                | Some n => data n
                | None => A0
                end) cs.

Lemma chain_frame (s s' : state) p cs :
  chain s p cs ->
  (forall c, c ∈ cs -> value_of s' c = value_of s c) ->
  chain s' p cs.
Proof.
  intros Hch. induction Hch as [| c n cs Hc Hch IH]; intros Hsame.
  - constructor.
  - apply (chain_cons s' c n cs).
    + rewrite Hsame by left. exact Hc.
    + apply IH. intros c' Hc'. apply Hsame. right. exact Hc'.
Qed.

Lemma chain_values (s : state) p cs c :
  chain s p cs -> c ∈ cs -> is_Some (value_of s c).
Proof.
  intros Hch. induction Hch as [| c0 n cs Hc Hch IH]; intros Hin.
  - inversion Hin.
  - apply elem_of_cons in Hin as [-> | Hin]; [eauto | apply IH, Hin].
Qed.

Lemma datas_frame (s s' : state) cs :
  (forall c, c ∈ cs -> value_of s' c = value_of s c) ->
  datas s' cs = datas s cs.
Proof.
  intros Hsame. unfold datas. apply map_ext_in. intros c Hc.
  rewrite Hsame; [reflexivity |]. apply list_elem_of_In. exact Hc.
Qed.

Lemma size_loop_chain (s : state) :
  counters_ok s ->
  forall p cs, chain s p cs ->
  forall (fuel : nat) count,
    (length cs <= fuel)%nat -> 0 <= count < uint_mod ->
    size_loop fuel (mkIterator p) count s
    = Done (wrap (count + Z.of_nat (length cs))) s.
Proof.
  intros Hc p cs Hch.
  induction Hch as [| c n cs Hcn Hch IH]; intros fuel count Hfuel Hcount.
  - destruct fuel; simpl; unfold ret;
      rewrite Z.add_0_r, wrap_small by exact Hcount; reflexivity.
  - destruct fuel as [| fuel]; [simpl in Hfuel; lia |].
    simpl size_loop. unfold bind at 1, advance. simpl.
    unfold bind at 1, ret. unfold bind at 1.
    rewrite (read_field_eq c next s n Hc Hcn).
    rewrite IH.
    + rewrite wrap_add_l. simpl length. f_equal. f_equal. lia.
    + simpl in Hfuel. lia.
    + apply wrap_range.
Qed.

(** X17: [size()] walks the list from [begin()] and returns the number
    of nodes after the head, modulo [2^32], without changing anything;
    it needs one round for each node. *)
Theorem X17_size_counts (fuel : nat) (l : atomic_list) h (s : state) n0 cs :
  counters_ok s ->
  list_head l = Some h ->
  value_of s h = Some n0 ->
  chain s (next n0) cs ->
  (length cs <= fuel)%nat ->
  size fuel l s = Done (wrap (Z.of_nat (length cs))) s.
Proof.
  intros Hc Hh Hn Hch Hfuel.
  unfold size, bind at 1, begin, advance. rewrite Hh. simpl.
  unfold bind at 1, ret. unfold bind at 1.
  rewrite (read_field_eq h next s n0 Hc Hn).
  rewrite (size_loop_chain s Hc (next n0) cs Hch fuel 0 Hfuel).
  - reflexivity.
  - unfold uint_mod. lia.
Qed.

(** X18: on a list of nodes [cs], none of them locked, [push_front]
    returns in any case.  When it returns an iterator, its node is new
    and the list is that node followed by [cs], the values in the nodes
    being the value pushed followed by the former values; when it
    returns the empty iterator, the list is as before.  It returns an
    iterator when no CAS fails spuriously. *)
Theorem X18_push_front_listed (l : atomic_list) (s : state) cs x :
  quiescent N0 s -> links_ok s -> flags_ok s ->
  listed l s cs ->
  exists it s',
    push_front l x s = Done it s'
    /\ quiescent N0 s' /\ links_ok s' /\ flags_ok s'
    /\ match value it with
       | Some cn =>
           listed l s' (cn :: cs)
           /\ datas s' (cn :: cs) = x :: datas s cs
       | None => listed l s' cs /\ datas s' cs = datas s cs
       end
    /\ (weak_cas s = [] -> to_bool it = true).
Proof.
  intros Hq Hl Hf (h & n0 & Hh & Hn & Hunl & Hch & Hnd & Hfree).
  destruct (insert_after_weak_total h s n0 x Hq Hl Hf Hn)
    as (it & s' & Hrun & Hpost & Hq' & Hl' & Hf' & Hprog).
  exists it, s'. split; [unfold push_front; rewrite Hh; exact Hrun |].
  split; [exact Hq' |]. split; [exact Hl' |]. split; [exact Hf' |].
  split; [| intros Ho; apply Hprog; assumption].
  apply NoDup_cons in Hnd as [Hhcs Hndcs].
  unfold insert_post in Hpost. destruct (value it) as [cn |].
  - destruct Hpost as (_ & Hfresh & Hcn & Hhead & Hother).
    assert (Hnew : forall c, is_Some (value_of s c) -> c <> cn).
    { intros c [n Hc] ->. destruct (value_of_cell s cn n Hc) as (? & E & _).
      congruence. }
    assert (Hcncs : cn ∉ cs).
    { intros Hin. apply (Hnew cn); [| reflexivity].
      apply (chain_values s (next n0) cs cn Hch Hin). }
    assert (Hsame : forall c, c ∈ cs -> value_of s' c = value_of s c).
    { intros c Hc. apply Hother.
      - intros ->. contradiction.
      - intros ->. contradiction. }
    split.
    + exists h, (set_next (Some cn) n0). split; [exact Hh |].
      split; [exact Hhead |]. split; [exact Hunl |]. split.
      { simpl. apply (chain_cons s' cn _ cs Hcn). simpl.
        apply (chain_frame s s' _ cs Hch Hsame). }
      split.
      { apply NoDup_cons. split.
        - intros Hin. apply elem_of_cons in Hin as [-> | Hin].
          + apply (Hnew cn); [rewrite Hn; eauto | reflexivity].
          + contradiction.
        - apply NoDup_cons. split; assumption. }
      intros c n Hc Hcv. apply elem_of_cons in Hc as [-> | Hc].
      * rewrite Hcn in Hcv. injection Hcv as <-. reflexivity.
      * rewrite (Hsame c Hc) in Hcv. apply (Hfree c n Hc Hcv).
    + unfold datas at 1. simpl. rewrite Hcn. simpl. f_equal.
      apply (datas_frame s s' cs Hsame).
  - destruct Hpost as (Hold & _).
    assert (Hsame : forall c, c ∈ cs -> value_of s' c = value_of s c).
    { intros c Hc. destruct (chain_values s (next n0) cs c Hch Hc) as [n Hcn].
      rewrite Hcn. apply Hold, Hcn. }
    split; [| apply (datas_frame s s' cs Hsame)].
    exists h, n0. split; [exact Hh |]. split; [apply Hold, Hn |].
    split; [exact Hunl |].
    split; [apply (chain_frame s s' _ cs Hch Hsame) |].
    split; [apply NoDup_cons; split; assumption |].
    intros c n Hc Hcv. rewrite (Hsame c Hc) in Hcv. apply (Hfree c n Hc Hcv).
Qed.

Lemma pop_front_listed (fuel : nat) (l : atomic_list) (s : state) v cs :
  2 <= N0 -> (1 <= fuel)%nat ->
  quiescent N0 s -> links_ok s -> flags_ok s ->
  weak_cas s = [] ->
  listed l s (v :: cs) ->
  exists s' nv,
    pop_front fuel 0 l s = Done (mkIterator (Some v)) s'
    /\ value_of s v = Some nv
    /\ value_of s' v = Some (set_deleted true (set_locked true nv))
    /\ listed l s' cs
    /\ datas s' cs = datas s cs
    /\ (forall c, c <> v -> Some c <> list_head l ->
                  value_of s' c = value_of s c)
    /\ quiescent N0 s' /\ links_ok s' /\ flags_ok s' /\ weak_cas s' = [].
Proof.
  intros HN Hfuel Hq Hl Hf Ho (h & n0 & Hh & Hn & Hunl & Hch & Hnd & Hfree).
  inversion Hch as [| v' nv cs' Hnv Hch' Hnx]; subst v' cs'.
  apply NoDup_cons in Hnd as [Hhcs Hndcs].
  apply NoDup_cons in Hndcs as [Hvcs Hndcs].
  assert (Hvh : v <> h) by (intros ->; apply Hhcs; left).
  assert (Hvunl : locked nv = false) by (apply (Hfree v nv); [left | exact Hnv]).
  destruct (pop_front_progress fuel l h s n0 v nv HN Hfuel Hq Hl Hf Ho Hh Hn
              Hunl (eq_sym Hnx) Hvh Hnv Hvunl)
    as (s' & Hrun & Hv' & Hh' & Hother & Hq' & Hl' & Hf' & Ho').
  assert (Hsame : forall c, c ∈ cs -> value_of s' c = value_of s c).
  { intros c Hc. apply Hother.
    - intros ->. contradiction.
    - intros ->. apply Hhcs. right. exact Hc. }
  exists s', nv. split; [exact Hrun |]. split; [exact Hnv |].
  split; [exact Hv' |]. split.
  { exists h, (set_next (next nv) n0). split; [exact Hh |].
    split; [exact Hh' |]. split; [exact Hunl |].
    split; [simpl; apply (chain_frame s s' _ cs Hch' Hsame) |].
    split.
    { apply NoDup_cons. split; [| exact Hndcs].
      intros Hin. apply Hhcs. right. exact Hin. }
    intros c n Hc Hcv. rewrite (Hsame c Hc) in Hcv.
    apply (Hfree c n); [right; exact Hc | exact Hcv]. }
  split; [apply (datas_frame s s' cs Hsame) |].
  split; [| auto].
  intros c Hcv Hch0. apply Hother; [exact Hcv |].
  intros ->. apply Hch0. symmetry. exact Hh.
Qed.


Lemma pop_front_none (fuel inner : nat) (l : atomic_list) h (s : state) n0 :
  counters_ok s -> list_head l = Some h ->
  value_of s h = Some n0 -> next n0 = None ->
  empty l s = Done true s
  /\ pop_front fuel inner l s = Done empty_iterator s.
Proof.
  intros Hc Hh Hn Hnx.
  assert (He : empty l s = Done true s).
  { rewrite (empty_eq l h s n0 Hc Hh Hn), Hnx. reflexivity. }
  split; [exact He |].
  unfold pop_front. destruct fuel; simpl; unfold bind at 1; rewrite He;
    reflexivity.
Qed.

(** X20: on a list of nodes [cs], none of them locked, with a queue of
    two elements at least and no CAS failing spuriously, [clear]
    returns after one round for each node.  The list is then empty,
    every node that was in it is locked and deleted and holds the value
    it held, and no other node but the head has changed. *)
Theorem X20_clear_empties (fuel : nat) (l : atomic_list) (s : state) cs :
  2 <= N0 ->
  (length cs <= fuel)%nat ->
  quiescent N0 s -> links_ok s -> flags_ok s ->
  weak_cas s = [] ->
  listed l s cs ->
  exists s',
    clear fuel 0 l s = Done tt s'
    /\ listed l s' []
    /\ empty l s' = Done true s'
    /\ (forall c, c ∈ cs ->
          exists n n', value_of s c = Some n
                       /\ value_of s' c = Some n'
                       /\ data n' = data n
                       /\ deleted n' = true /\ locked n' = true)
    /\ (forall c, c ∉ cs -> Some c <> list_head l ->
                  value_of s' c = value_of s c)
    /\ quiescent N0 s' /\ links_ok s' /\ flags_ok s'.
Proof.
  intros HN. revert fuel s.
  induction cs as [| v cs IH]; intros fuel s Hfuel Hq Hl Hf Ho Hls.
  - destruct Hls as (h & n0 & Hh & Hn & Hunl & Hch & Hnd & Hfree).
    inversion Hch as [Hnx |].
    destruct (pop_front_none fuel 0 l h s n0
                (pool_counters _ _ _ (proj1 Hq)) Hh Hn (eq_sym Hnx))
      as [He Hpop].
    exists s. split.
    { destruct fuel; simpl; unfold bind; rewrite Hpop; reflexivity. }
    split; [exists h, n0; auto 10 |]. split; [exact He |].
    split; [intros c Hc; inversion Hc |]. auto.
  - destruct fuel as [| fuel]; [simpl in Hfuel; lia |].
    destruct (pop_front_listed (S fuel) l s v cs HN ltac:(lia) Hq Hl Hf Ho Hls)
      as (s1 & nv & Hpop & Hnv & Hv1 & Hls1 & _ & Hother1 & Hq1 & Hl1 & Hf1
          & Ho1).
    destruct (IH fuel s1 ltac:(simpl in Hfuel; lia) Hq1 Hl1 Hf1 Ho1 Hls1)
      as (s' & Hrun & Hls' & He & Hdel & Hother & Hrest).
    destruct Hls as (h & n0 & Hh & _ & _ & _ & Hnd & _).
    apply NoDup_cons in Hnd as [Hhcs Hndcs].
    apply NoDup_cons in Hndcs as [Hvcs Hndcs].
    assert (Hvh : Some v <> list_head l).
    { rewrite Hh. intros E. injection E as ->. apply Hhcs. left. }
    assert (Hcsh : forall c, c ∈ cs -> c <> v /\ Some c <> list_head l).
    { intros c Hc. split; [intros ->; contradiction |].
      rewrite Hh. intros E. injection E as ->. apply Hhcs. right. exact Hc. }
    exists s'. split.
    { simpl clear. unfold bind. rewrite Hpop. exact Hrun. }
    split; [exact Hls' |]. split; [exact He |]. split.
    { intros c Hc. apply elem_of_cons in Hc as [-> | Hc].
      - exists nv, (set_deleted true (set_locked true nv)).
        split; [exact Hnv |].
        split; [rewrite (Hother v Hvcs Hvh); exact Hv1 |]. auto.
      - destruct (Hdel c Hc) as (n & n' & Hn1 & Hn' & Hrest').
        destruct (Hcsh c Hc) as [Hcv Hch].
        exists n, n'. split; [rewrite <- (Hother1 c Hcv Hch); exact Hn1 |].
        auto. }
    split; [| exact Hrest].
    intros c Hc Hch.
    assert (c <> v) by (intros ->; apply Hc; left).
    assert (c ∉ cs) by (intros Hin; apply Hc; right; exact Hin).
    rewrite Hother, Hother1 by assumption. reflexivity.
Qed.

(** X24: the iterator that [erase_after_weak] returns stays valid:
    [is_deleted()] and [is_locked()] on it return [true], [*] still
    gives the value the node held, and [update] on it returns [false]
    at once. *)
Theorem X24_erased_iterator (fuel : nat) c (s : state) n0 it s' v :
  quiescent N0 s -> links_ok s -> flags_ok s ->
  value_of s c = Some n0 ->
  (length (weak_cas s) <= fuel)%nat ->
  erase_after_weak fuel (mkIterator (Some c)) s = Done it s' ->
  value it = Some v ->
  exists nv,
    value_of s v = Some nv
    /\ is_deleted it s' = Done true s'
    /\ is_locked it s' = Done true s'
    /\ get it s' = Done (data nv) s'
    /\ (forall (fuel' : nat) x, iterator_update fuel' it x s' = Done false s').
Proof.
  intros Hq Hl Hf Hn Hfuel Hrun Hv.
  destruct (erase_after_weak_total fuel c s n0 Hq Hl Hf Hn Hfuel)
    as (it' & s'' & Hrun' & Hpost & Hq' & _).
  rewrite Hrun in Hrun'. injection Hrun' as <- <-.
  destruct Hpost as (_ & _ & _ & _ & _ & Hcase). rewrite Hv in Hcase.
  destruct Hcase as (_ & _ & _ & nv & Hnv & _ & Hv' & _).
  pose proof (pool_counters _ _ _ (proj1 Hq')) as Hc'.
  destruct it as [p]. simpl in Hv. subst p.
  exists nv. split; [exact Hnv |].
  assert (Hdel : is_deleted (mkIterator (Some v)) s' = Done true s').
  { unfold is_deleted. simpl.
    rewrite (read_field_eq v deleted s' _ Hc' Hv'). reflexivity. }
  split; [exact Hdel |]. split.
  { unfold is_locked. simpl.
    rewrite (read_field_eq v locked s' _ Hc' Hv'). reflexivity. }
  split.
  { unfold get. simpl. unfold bind, ret.
    rewrite (read_field_eq v data s' _ Hc' Hv'). reflexivity. }
  intros fuel' x. destruct fuel'; simpl; unfold bind at 1; rewrite Hdel;
    reflexivity.
Qed.

(** ** Insertion and removal at any point *)

Lemma chain_suffix (s : state) xs :
  forall p ys, chain s p (xs ++ ys) -> exists q, chain s q ys.
Proof.
  induction xs as [| x xs IH]; intros p ys Hch.
  - exists p. exact Hch.
  - inversion Hch as [| c n cs Hc Hch' E1]; subst.
    apply (IH _ _ Hch').
Qed.

Lemma chain_splice (s s' : state) xs c ys ys' :
  forall p,
    chain s p (xs ++ c :: ys) ->
    (forall x, x ∈ xs -> value_of s' x = value_of s x) ->
    chain s' (Some c) (c :: ys') ->
    chain s' p (xs ++ c :: ys').
Proof.
  induction xs as [| x xs IH]; intros p Hch Hsame Hnew.
  - inversion Hch; subst. exact Hnew.
  - inversion Hch as [| c0 n cs Hc Hch' E1]; subst. simpl.
    apply (chain_cons s' x n).
    + rewrite Hsame by left. exact Hc.
    + apply IH; [exact Hch' | | exact Hnew].
      intros y Hy. apply Hsame. right. exact Hy.
Qed.

(** The list with its head: the cells [all], the head first. *)
Definition whole (l : atomic_list) (s : state) (all : list cell) : Prop :=
  head all = list_head l /\ listed l s (tail all).

Lemma whole_chain (l : atomic_list) (s : state) all :
  whole l s all <->
  (exists h, list_head l = Some h /\ head all = Some h
             /\ chain s (Some h) all)
  /\ NoDup all
  /\ (forall c n, c ∈ all -> value_of s c = Some n -> locked n = false).
Proof.
  split.
  - intros [Hhd (h & n0 & Hh & Hn & Hunl & Hch & Hnd & Hfree)].
    destruct all as [| h' cs]; [simpl in Hhd; congruence |].
    simpl in Hhd, Hch, Hfree. assert (h' = h) by congruence. subst h'.
    split; [| split].
    + exists h. split; [exact Hh |]. split; [reflexivity |].
      apply (chain_cons s h n0 cs Hn Hch).
    + exact Hnd.
    + intros c n Hc Hcn. apply elem_of_cons in Hc as [-> | Hc].
      * congruence.
      * apply (Hfree c n Hc Hcn).
  - intros ((h & Hh & Hhd & Hch) & Hnd & Hfree).
    destruct all as [| h' cs]; [discriminate Hhd |].
    simpl in Hhd. injection Hhd as ->.
    inversion Hch as [| c n cs' Hn Hch' E1]; subst.
    split; [simpl; congruence |]. simpl.
    exists h, n. split; [exact Hh |]. split; [exact Hn |].
    split; [apply (Hfree h n); [left | exact Hn] |].
    split; [exact Hch' |]. split; [exact Hnd |].
    intros c m Hc Hcm. apply (Hfree c m); [right; exact Hc | exact Hcm].
Qed.

Lemma head_middle {X} (pre : list X) c post post' :
  head (pre ++ c :: post) = head (pre ++ c :: post').
Proof. destruct pre; reflexivity. Qed.

(** X26: insertion at any point.  On a list that is, with its head,
    [pre], [c], [post] (pairwise distinct, none locked),
    [insert_after_weak] at [c] returns in any case; when it returns an
    iterator, its node is new, the list is [pre], [c], that node,
    [post], and the values are those before with the value inserted
    after that of [c]; when it returns the empty iterator the list and
    its values are as before.  It returns an iterator when no CAS
    fails spuriously. *)
Theorem X26_insert_anywhere (l : atomic_list) (s : state) pre c post x :
  quiescent N0 s -> links_ok s -> flags_ok s ->
  whole l s (pre ++ c :: post) ->
  exists it s',
    insert_after_weak (mkIterator (Some c)) x s = Done it s'
    /\ quiescent N0 s' /\ links_ok s' /\ flags_ok s'
    /\ match value it with
       | Some cn =>
           whole l s' (pre ++ c :: cn :: post)
           /\ datas s' (pre ++ c :: cn :: post)
              = datas s (pre ++ [c]) ++ x :: datas s post
       | None =>
           whole l s' (pre ++ c :: post)
           /\ datas s' (pre ++ c :: post) = datas s (pre ++ c :: post)
       end
    /\ (weak_cas s = [] -> to_bool it = true).
Proof.
  intros Hq Hl Hf Hw.
  apply whole_chain in Hw as ((h & Hh & Hhd & Hch) & Hnd & Hfree).
  assert (Hcin : c ∈ pre ++ c :: post).
  { apply elem_of_app. right. left. }
  destruct (chain_values s _ _ c Hch Hcin) as [nc Hnc].
  pose proof (Hfree c nc Hcin Hnc) as Hunl.
  destruct (insert_after_weak_total c s nc x Hq Hl Hf Hnc)
    as (it & s' & Hrun & Hpost & Hq' & Hl' & Hf' & Hprog).
  exists it, s'. split; [exact Hrun |]. split; [exact Hq' |].
  split; [exact Hl' |]. split; [exact Hf' |].
  split; [| intros Ho; apply Hprog; assumption].
  apply NoDup_app in Hnd as (Hndpre & Hdisj & Hndpost).
  apply NoDup_cons in Hndpost as [Hcpost Hndpost].
  assert (Hcpre : c ∉ pre).
  { intros Hin. apply (Hdisj c Hin). left. }
  destruct (chain_suffix s pre _ _ Hch) as [q Hsuf].
  inversion Hsuf as [| c0 nc' cs Hnc' Hchpost E1]; subst.
  assert (nc' = nc) by congruence. subst nc'.
  unfold insert_post in Hpost. destruct (value it) as [cn |].
  - destruct Hpost as (_ & Hfresh & Hcn & Hc' & Hother).
    assert (Hnew : forall y, is_Some (value_of s y) -> y <> cn).
    { intros y [n Hy] ->. destruct (value_of_cell s cn n Hy) as (? & E & _).
      congruence. }
    assert (Hold : forall y, y ∈ pre ++ c :: post -> y <> cn).
    { intros y Hy. apply Hnew. apply (chain_values s _ _ y Hch Hy). }
    assert (Hsame : forall y, y ∈ pre ++ c :: post -> y <> c ->
                              value_of s' y = value_of s y).
    { intros y Hy Hyc. apply Hother; [exact Hyc | apply Hold, Hy]. }
    assert (Hsamepre : forall y, y ∈ pre -> value_of s' y = value_of s y).
    { intros y Hy. apply Hsame.
      - apply elem_of_app. left. exact Hy.
      - intros ->. contradiction. }
    assert (Hsamepost : forall y, y ∈ post -> value_of s' y = value_of s y).
    { intros y Hy. apply Hsame.
      - apply elem_of_app. right. right. exact Hy.
      - intros ->. contradiction. }
    split.
    + apply whole_chain. split; [| split].
      * exists h. split; [exact Hh |].
        split; [rewrite <- Hhd; apply head_middle |].
        apply (chain_splice s s' pre c post (cn :: post) _ Hch Hsamepre).
        apply (chain_cons s' c _ _ Hc'). simpl.
        apply (chain_cons s' cn _ _ Hcn). simpl.
        apply (chain_frame s s' _ post Hchpost Hsamepost).
      * apply NoDup_app. split; [exact Hndpre |]. split.
        { intros y Hy Hin. apply elem_of_cons in Hin as [-> | Hin].
          - contradiction.
          - apply elem_of_cons in Hin as [-> | Hin].
            + apply (Hold cn); [| reflexivity].
              apply elem_of_app. left. exact Hy.
            + apply (Hdisj y Hy). right. exact Hin. }
        apply NoDup_cons. split.
        { intros Hin. apply elem_of_cons in Hin as [-> | Hin].
          - apply (Hold cn Hcin). reflexivity.
          - contradiction. }
        apply NoDup_cons. split; [| exact Hndpost].
        intros Hin. apply (Hold cn); [| reflexivity].
        apply elem_of_app. right. right. exact Hin.
      * intros y n Hy Hyn.
        apply elem_of_app in Hy as [Hy | Hy].
        { rewrite (Hsamepre y Hy) in Hyn.
          apply (Hfree y n); [apply elem_of_app; left; exact Hy | exact Hyn]. }
        apply elem_of_cons in Hy as [-> | Hy].
        { rewrite Hc' in Hyn. injection Hyn as <-. exact Hunl. }
        apply elem_of_cons in Hy as [-> | Hy].
        { rewrite Hcn in Hyn. injection Hyn as <-. reflexivity. }
        rewrite (Hsamepost y Hy) in Hyn.
        apply (Hfree y n); [| exact Hyn].
        apply elem_of_app. right. right. exact Hy.
    + unfold datas. rewrite !map_app. simpl. rewrite Hc', Hnc, Hcn. simpl.
      rewrite <- app_assoc. simpl. f_equal.
      * apply map_ext_in. intros y Hy.
        rewrite Hsamepre; [reflexivity | apply list_elem_of_In, Hy].
      * f_equal. f_equal. apply map_ext_in. intros y Hy.
        rewrite Hsamepost; [reflexivity | apply list_elem_of_In, Hy].
  - destruct Hpost as (Hkeep & _).
    assert (Hsame : forall y, y ∈ pre ++ c :: post ->
                              value_of s' y = value_of s y).
    { intros y Hy. destruct (chain_values s _ _ y Hch Hy) as [n Hyn].
      rewrite Hyn. apply Hkeep, Hyn. }
    split; [| apply (datas_frame s s' _ Hsame)].
    apply whole_chain. split; [| split].
    + exists h. split; [exact Hh |]. split; [exact Hhd |].
      apply (chain_frame s s' _ _ Hch Hsame).
    + apply NoDup_app. split; [exact Hndpre |]. split; [exact Hdisj |].
      apply NoDup_cons. split; assumption.
    + intros y n Hy Hyn. rewrite (Hsame y Hy) in Hyn.
      apply (Hfree y n Hy Hyn).
Qed.


End Verified.

End List.

(** ** A list of [int], queue size 4

    The list after [push_front( 7 )]; the oracle lets the first
    [erase_after_weak] lose the CAS that publishes the node before the
    victim. *)
Definition demo_oracle : list bool := [false; false; false; false; false; true].

Definition demo : AtomicData.state (T:=node (A:=Z)) :=
  state_of 4 (setup 0 4 7 (zero_state 4 demo_oracle)).

Definition demo_list : atomic_list := mkList (Some 1%positive).

Definition demo_head : node (A:=Z) := mkNode false false 0 (Some 2%positive).

Lemma N0_ok_4 : N0_ok 4.
Proof. exists 2. split; [lia | reflexivity]. Qed.

Lemma demo_inv : quiescent 4 demo /\ links_ok demo /\ flags_ok demo.
Proof.
  destruct (wp_total _ _ _ _ (setup_spec 0 4 N0_ok_4 demo_oracle 7))
    as [(li & s & Hrun & Hq & Hl & Hf & _) | (? & _ & [])].
  unfold demo. rewrite Hrun. auto.
Qed.

(** The state after the call of [update_weak] on the head. *)
Definition demo_outer : AtomicData.state (T:=node (A:=Z)) :=
  state_of 4 (erase_outer 4 (mkIterator (Some 1%positive)) demo).

Lemma C8_witness :
  match run_op 4 1 0 demo_list PopFront demo with
  | Done _ s' =>
      flags_ok s' /\ sticky demo s'
      /\ quiescent 4 s' /\ links_ok s'
      /\ (forall c', is_Some (value_of demo c') -> is_Some (value_of s' c'))
  | Raised _ => False
  | Undef => False
  | Timeout => True
  end.
Proof.
  exact (C8_flags_preserved 4 N0_ok_4 1 0 demo_list PopFront demo
           1%positive demo_head
           (proj1 demo_inv) (proj1 (proj2 demo_inv)) (proj2 (proj2 demo_inv))
           ltac:(reflexivity) ltac:(vm_compute; reflexivity)).
Defined.

(** The list after [pop_front]: the node of cell 2 is deleted. *)
Definition popped : AtomicData.state (T:=node (A:=Z)) :=
  state_of 4 (pop_front 4 1 0 demo_list demo).

Lemma C9_witness :
  value_of popped 2%positive = Some (mkNode true true 7 None)
  /\ iterator_update 4 0 (mkIterator (Some 2%positive)) 9 popped
     = Done false popped.
Proof.
  split; [vm_compute; reflexivity |].
  apply (C9_update_deleted 4 0 2%positive 9 popped (mkNode true true 7 None)).
  - vm_compute. repeat split; intros Hx; discriminate Hx.
  - vm_compute. reflexivity.
  - reflexivity.
Defined.

(** A list with the head only. *)
Definition empty_list : AtomicData.state (T:=node (A:=Z)) :=
  state_of 4 (bind (init_static 4 (default_node 0)) (fun _ => new_list 0)
                (zero_state 4 [])).

Lemma C10_witness :
  empty 4 demo_list empty_list = Done true empty_list
  /\ pop_front 4 0 0 demo_list empty_list = Done empty_iterator empty_list
  /\ to_bool empty_iterator = false.
Proof.
  apply (C10_pop_front_empty 4 0 0 demo_list 1%positive empty_list
           (default_node 0)).
  - vm_compute. repeat split; intros Hx; discriminate Hx.
  - reflexivity.
  - vm_compute. reflexivity.
  - reflexivity.
Defined.

(** ** The further properties on the list of [int] *)

(** The same list when no CAS fails spuriously. *)
Definition calm : AtomicData.state (T:=node (A:=Z)) :=
  state_of 4 (setup 0 4 7 (zero_state 4 [])).

Definition calm_node : node (A:=Z) := mkNode false false 7 None.

Lemma calm_inv : quiescent 4 calm /\ links_ok calm /\ flags_ok calm.
Proof.
  destruct (wp_total _ _ _ _ (setup_spec 0 4 N0_ok_4 [] 7))
    as [(li & s & Hrun & Hq & Hl & Hf & _) | (? & _ & [])].
  unfold calm. rewrite Hrun. auto.
Qed.

(** The state after the call of [update_weak] on the head of [calm]:
    no CAS is lost, the node is unlinked. *)
Definition calm_outer : AtomicData.state (T:=node (A:=Z)) :=
  state_of 4 (erase_outer 4 (mkIterator (Some 1%positive)) calm).

Lemma C7_witness :
  (next demo_head = Some 2%positive
   /\ exists nv s2,
        value_of demo_outer 2%positive = Some nv /\ locked nv = true
        /\ erase_after_weak 4 0 (mkIterator (Some 1%positive)) demo
           = Done empty_iterator s2
        /\ value_of s2 2%positive = Some (set_locked false nv)
        /\ (exists n',
              value_of s2 2%positive = Some n'
              /\ deleted n' = deleted nv /\ locked n' = false
              /\ data n' = data nv /\ next n' = next nv)
        /\ (forall c', c' <> 2%positive ->
                       value_of s2 c' = value_of demo_outer c'))
  /\ (next demo_head = Some 2%positive
      /\ exists nv s2,
           value_of calm_outer 2%positive = Some nv /\ locked nv = true
           /\ erase_after_weak 4 0 (mkIterator (Some 1%positive)) calm
              = Done (mkIterator (Some 2%positive)) s2
           /\ value_of s2 2%positive = Some (set_deleted true nv)
           /\ (exists n',
                 value_of s2 2%positive = Some n'
                 /\ deleted n' = true /\ locked n' = true
                 /\ data n' = data nv /\ next n' = next nv)
           /\ (forall c', c' <> 2%positive ->
                          value_of s2 c' = value_of calm_outer c')).
Proof.
  split.
  - exact (C7_erase_after_weak 4 N0_ok_4 0 1%positive demo demo_head
             false (Some 2%positive) demo_outer
             (proj1 demo_inv) (proj1 (proj2 demo_inv))
             (proj2 (proj2 demo_inv))
             ltac:(vm_compute; reflexivity) ltac:(vm_compute; reflexivity)
             ltac:(vm_compute; lia)).
  - exact (C7_erase_after_weak 4 N0_ok_4 0 1%positive calm demo_head
             true (Some 2%positive) calm_outer
             (proj1 calm_inv) (proj1 (proj2 calm_inv))
             (proj2 (proj2 calm_inv))
             ltac:(vm_compute; reflexivity) ltac:(vm_compute; reflexivity)
             ltac:(vm_compute; lia)).
Defined.

Lemma calm_listed : listed demo_list calm [2%positive].
Proof.
  exists 1%positive, demo_head. split; [reflexivity |].
  split; [vm_compute; reflexivity |]. split; [reflexivity |]. split.
  { apply (chain_cons calm 2%positive calm_node []).
    - vm_compute. reflexivity.
    - apply chain_nil. }
  split.
  { apply NoDup_cons. split; [| apply NoDup_singleton].
    intros Hin. apply list_elem_of_singleton in Hin. discriminate Hin. }
  intros c n Hc Hn. apply list_elem_of_singleton in Hc. subst c.
  assert (E : value_of calm 2%positive = Some calm_node)
    by (vm_compute; reflexivity).
  rewrite E in Hn. injection Hn as <-. reflexivity.
Qed.


(** The list after a second [push_front]. *)
Definition pushed : AtomicData.state (T:=node (A:=Z)) :=
  state_of 4 (push_front 4 demo_list 9 calm).

Lemma X12_witness :
  begin 4 demo_list calm = Done (mkIterator (Some 2%positive)) calm
  /\ begin 4 demo_list pushed = Done (mkIterator (Some 3%positive)) pushed
  /\ get 4 (mkIterator (Some 3%positive)) pushed = Done 9 pushed
  /\ advance 4 (mkIterator (Some 3%positive)) pushed
     = Done (mkIterator (Some 2%positive)) pushed.
Proof.
  apply (X12_push_front_first 4 N0_ok_4 demo_list 1%positive calm demo_head
           9 (mkIterator (Some 3%positive)) pushed
           (proj1 calm_inv) (proj1 (proj2 calm_inv))
           (proj2 (proj2 calm_inv))).
  - reflexivity.
  - vm_compute. reflexivity.
  - vm_compute. reflexivity.
  - reflexivity.
Defined.


Lemma X14_witness :
  exists r s',
    iterator_update_weak 4 (mkIterator (Some 2%positive)) 8 calm = Done r s'
    /\ r = true.
Proof.
  destruct (X14_iterator_update_weak 4 N0_ok_4 2%positive calm calm_node 8
              (proj1 calm_inv) (proj1 (proj2 calm_inv))
              (proj2 (proj2 calm_inv)) ltac:(vm_compute; reflexivity))
    as (r & s' & Hrun & _ & _ & _ & _ & _ & Hprog).
  exists r, s'. split; [exact Hrun |]. apply Hprog; reflexivity.
Defined.


Lemma X17_witness :
  size 4 1 demo_list calm = Done (wrap 1) calm.
Proof.
  apply (X17_size_counts 4 1 demo_list 1%positive calm demo_head
           [2%positive]).
  - apply (pool_counters _ _ _ (proj1 (proj1 calm_inv))).
  - reflexivity.
  - vm_compute. reflexivity.
  - apply (chain_cons calm 2%positive calm_node []).
    + vm_compute. reflexivity.
    + apply chain_nil.
  - simpl. lia.
Defined.

Lemma X18_witness :
  exists it s',
    push_front 4 demo_list 9 calm = Done it s'
    /\ to_bool it = true.
Proof.
  destruct (X18_push_front_listed 0 4 N0_ok_4 demo_list calm [2%positive] 9
              (proj1 calm_inv) (proj1 (proj2 calm_inv))
              (proj2 (proj2 calm_inv)) calm_listed)
    as (it & s' & Hrun & _ & _ & _ & _ & Hprog).
  exists it, s'. split; [exact Hrun |]. apply Hprog. reflexivity.
Defined.


Lemma X20_witness :
  exists s',
    clear 4 1 0 demo_list calm = Done tt s'
    /\ empty 4 demo_list s' = Done true s'.
Proof.
  destruct (X20_clear_empties 0 4 N0_ok_4 1 demo_list calm [2%positive]
              ltac:(lia) ltac:(simpl; lia)
              (proj1 calm_inv) (proj1 (proj2 calm_inv))
              (proj2 (proj2 calm_inv)) ltac:(reflexivity) calm_listed)
    as (s' & Hrun & _ & He & _).
  exists s'. auto.
Defined.

(** The list after [pop_front]: the node of cell 2 is locked and
    deleted. *)
Definition erased : AtomicData.state (T:=node (A:=Z)) :=
  state_of 4 (pop_front 4 1 0 demo_list calm).

Lemma erased_inv : quiescent 4 erased /\ links_ok erased /\ flags_ok erased.
Proof.
  destruct (pop_front_listed 0 4 N0_ok_4 1 demo_list calm 2%positive []
              ltac:(lia) ltac:(lia)
              (proj1 calm_inv) (proj1 (proj2 calm_inv))
              (proj2 (proj2 calm_inv)) ltac:(reflexivity) calm_listed)
    as (s' & nv & Hrun & _ & _ & _ & _ & _ & Hq & Hl & Hf & _).
  unfold erased. rewrite Hrun. auto.
Qed.

Lemma X16_witness :
  (exists s',
     insert_after_weak 4 (mkIterator (Some 2%positive)) 9 erased
     = Done empty_iterator s')
  /\ (exists s',
        erase_after_weak 4 0 (mkIterator (Some 2%positive)) erased
        = Done empty_iterator s')
  /\ (exists s',
        iterator_update_weak 4 (mkIterator (Some 2%positive)) 9 erased
        = Done false s').
Proof.
  destruct (X16_locked_node_rejects 4 N0_ok_4 0 2%positive erased
              (mkNode true true 7 None) 9
              (proj1 erased_inv) (proj1 (proj2 erased_inv))
              (proj2 (proj2 erased_inv)) ltac:(vm_compute; reflexivity)
              ltac:(reflexivity) ltac:(vm_compute; lia))
    as ((s1 & H1 & _) & (s2 & H2 & _) & (s3 & H3 & _)).
  eauto 10.
Defined.

Lemma calm_whole : whole demo_list calm [1%positive; 2%positive].
Proof. split; [reflexivity | exact calm_listed]. Qed.

(** The list after [erase_after_weak] at the head. *)
Definition unlinked : AtomicData.state (T:=node (A:=Z)) :=
  state_of 4 (erase_after_weak 4 0 (mkIterator (Some 1%positive)) calm).

Lemma X24_witness :
  exists nv,
    value_of calm 2%positive = Some nv
    /\ is_deleted 4 (mkIterator (Some 2%positive)) unlinked
       = Done true unlinked
    /\ is_locked 4 (mkIterator (Some 2%positive)) unlinked
       = Done true unlinked
    /\ get 4 (mkIterator (Some 2%positive)) unlinked = Done (data nv) unlinked
    /\ (forall (fuel' : nat) x,
          iterator_update 4 fuel' (mkIterator (Some 2%positive)) x unlinked
          = Done false unlinked).
Proof.
  apply (X24_erased_iterator 4 N0_ok_4 0 1%positive calm demo_head
           (mkIterator (Some 2%positive)) unlinked 2%positive
           (proj1 calm_inv) (proj1 (proj2 calm_inv))
           (proj2 (proj2 calm_inv))).
  - vm_compute. reflexivity.
  - vm_compute. lia.
  - vm_compute. reflexivity.
  - reflexivity.
Defined.

Lemma X26_witness :
  exists it s',
    insert_after_weak 4 (mkIterator (Some 2%positive)) 9 calm = Done it s'
    /\ match value it with
       | Some cn =>
           whole demo_list s' [1%positive; 2%positive; cn]
           /\ datas 0 s' [1%positive; 2%positive; cn] = [0; 7; 9]
       | None => False
       end.
Proof.
  destruct (X26_insert_anywhere 0 4 N0_ok_4 demo_list calm [1%positive]
              2%positive [] 9
              (proj1 calm_inv) (proj1 (proj2 calm_inv))
              (proj2 (proj2 calm_inv)) calm_whole)
    as (it & s' & Hrun & _ & _ & _ & Hcase & Hprog).
  exists it, s'. split; [exact Hrun |].
  specialize (Hprog eq_refl). unfold to_bool in Hprog.
  destruct (value it) as [cn |]; [| discriminate Hprog].
  destruct Hcase as [Hw Hd]. split; [exact Hw |].
  simpl app in Hd. rewrite Hd. vm_compute. reflexivity.
Defined.


End AtomicList.

(** * The earlier cell of [atomic_data.h]: one usage counter and the
    signal [no_reading] *)
Module Legacy.

Section Cell.

Context {T : Type}.
Variable N0 : Z.

Definition queue_size : Z := N0.

(** [atomic<int>]: 32 bits, two's complement. *)
Definition wrap_int (x : Z) : Z := (x + 2 ^ 31) mod 2 ^ 32 - 2 ^ 31.

(** The static members and the [data] of the instance. *)
Record state : Type := mkState {
  left : Z;
  right : Z;
  counter_usage : Z;
  counter_sync : Z;
  no_reading : Z;
  heap : gmap addr T;
  data : ptr
}.

(** [counter_guard counter{no_reading}] and its destructor. *)
Definition signal (s : state) : state :=
  mkState (left s) (right s) (counter_usage s) (counter_sync s)
    (wrap_int (no_reading s + 1)) (heap s) (data s).

Definition unsignal (s : state) : state :=
  mkState (left s) (right s) (counter_usage s) (counter_sync s)
    (wrap_int (no_reading s - 1)) (heap s) (data s).

(** [counter_guard counter{counter_usage}] and its destructor. *)
Definition enter (s : state) : state :=
  mkState (left s) (right s) (wrap_int (counter_usage s + 1))
    (counter_sync s) (no_reading s) (heap s) (data s).

Definition leave (s : state) : state :=
  mkState (left s) (right s) (wrap_int (counter_usage s - 1))
    (counter_sync s) (no_reading s) (heap s) (data s).

Definition count_sync (s : state) : state :=
  mkState (left s) (right s) (counter_usage s)
    (wrap_int (counter_sync s + 1)) (no_reading s) (heap s) (data s).

(** Logic for the synchronization barrier: between [signal] and
    [unsignal] the writer has [no_reading] raised. *)
Definition sync (left_ : Z) (s : state) : bool * state :=
  if left_ mod queue_size =? 0 then
    let s1 := signal s in
    if counter_usage s1 =? 0 then (true, unsignal s1)
    else (false, unsignal (count_sync s1))
  else (true, s).

(** The own steps of [read]: the test of the loop
    [while( no_reading.load() ) yield();], the constructor of the
    guard, [data.load()], the functor, the destructor of the guard. *)
Inductive read_pc (R : Type) : Type :=
| Call
| Passed
| Counted
| Loaded (p : ptr)
| Applied (r : R)
| Return (r : R).
Arguments Call {R}.
Arguments Passed {R}.
Arguments Counted {R}.
Arguments Loaded {R} p.
Arguments Applied {R} r.
Arguments Return {R} r.

Definition read_own {R} (g : ptr -> state -> R) (pc : read_pc R) (s : state)
  : read_pc R * state :=
  match pc with
  | Call => if no_reading s =? 0 then (Passed, s) else (Call, s)
  | Passed => (Counted, enter s)
  | Counted => (Loaded (data s), s)
  | Loaded p => (Applied (g p s), s)
  | Applied r => (Return r, leave s)
  | Return r => (Return r, s)
  end.

Definition read_returned {R} (pc : read_pc R) : bool :=
  match pc with
  | Return _ => true
  | _ => false
  end.

(** The call as a whole, the loop on fuel; [None] when it runs out. *)
Fixpoint read {R} (fuel : nat) (g : ptr -> state -> R) (s : state)
  : option (R * state) :=
  match fuel with
  | O => None
  | S fuel' =>
      if no_reading s =? 0
      then Some (g (data s) (enter s), leave (enter s))
      else read fuel' g s
  end.

(** [atomic_data( T0* object )] with the static members as they are
    defined. *)
Definition constructed (object : addr) (v : T) : state :=
  mkState 0 (wrap_int queue_size) 0 0 0 {[object := v]} (Some object).

Lemma read_own_spins {R} (g : ptr -> state -> R) s n :
  no_reading s <> 0 ->
  forall others : nat -> state -> state,
    (forall i s', others i s' = s') ->
    run (read_own g) others n Call s = (Call, s).
Proof.
  intros Hs. induction n as [| n IH]; intros others Hid; [reflexivity |].
  simpl. rewrite Hid.
  destruct (Z.eqb_spec (no_reading s) 0) as [E | _]; [contradiction |].
  apply IH. intros i s'. apply Hid.
Qed.

Lemma read_spins {R} (g : ptr -> state -> R) s fuel :
  no_reading s <> 0 -> read fuel g s = None.
Proof.
  intros Hs. induction fuel as [| fuel IH]; [reflexivity |].
  simpl. destruct (Z.eqb_spec (no_reading s) 0); [contradiction | exact IH].
Qed.

End Cell.

Arguments Call {R}.
Arguments Passed {R}.
Arguments Counted {R}.
Arguments Loaded {R} p.
Arguments Applied {R} r.
Arguments Return {R} r.

(** The state in which a writer has entered [sync] for the first
    allocation ([left = 0]) of a cell of [unsigned] with queue size 8
    and has not left it. *)
Definition signalled : state (T:=Z) := signal (constructed 8 1%positive 0).

(** C5 as stated fails for this cell: while the writer is inside
    [sync], no number of own steps lets [read] return, and the call as
    a whole exhausts any fuel. *)
Lemma C5_counterexample :
  no_reading signalled = 1
  /\ ~ wait_free (read_own (fun _ _ => 0)) read_returned Call
         (fun _ : state (T:=Z) => True)
  /\ (forall fuel, read fuel (fun _ _ => 0) signalled = None).
Proof.
  split; [reflexivity |]. split.
  - intros [bound H].
    specialize (H (fun _ s => s) signalled (fun _ _ _ => I) I).
    rewrite (read_own_spins (fun _ _ => 0) signalled bound) in H.
    + discriminate H.
    + discriminate.
    + reflexivity.
  - intros fuel. apply read_spins. discriminate.
Qed.

End Legacy.
